(** * Dokdash: schema layer, flattening, pin state and aggregation endpoint

    A shallow embedding of [src/lib/dokploy.ts], [src/App.tsx] and
    [src/index.tsx].  JavaScript strings are modelled as [string]
    (sequences of code units below 256), the numbers of the typed data
    as [number] (the values of IEEE 754 doubles), the numbers inside JSON
    values, of which validation inspects the type only, HTTP status codes
    and comparison results as [Z], array indices as [nat], arrays as
    [list], JSON objects as finite maps from property names to values. *)

From stdpp Require Import base option list strings gmap pretty sorting.
From Stdlib Require Import ZArith Lia Ascii.

Set Warnings "-register-all".
Open Scope string_scope.

(** ** JavaScript values that may be [undefined] or [null] *)

(** A field declared [.optional().nullable()]: omitted, [null] or a value.
    A field declared only [.optional()] is an [option]. *)
Inductive maybe (A : Type) : Type :=
  | Undefined : maybe A
  | Null : maybe A
  | Val : A → maybe A.
Arguments Undefined {A}.
Arguments Null {A}.
Arguments Val {A} _.

(** [x ?? d] on a nullable field. *)
Definition nullish {A} (x : maybe A) (d : A) : A :=
  match x with Val a => a | _ => d end.

(** [x ?? d] on an optional field. *)
Definition coalesce {A} (x : option A) (d : A) : A :=
  match x with Some a => a | None => d end.

(** ** JavaScript numbers

    A Number is an IEEE 754 double: NaN, an infinity, a zero, or
    [± mantissa × 2^exponent].  The type has a value for every double (and
    values outside the range of doubles, which no input holds: what holds
    for every [number] holds for every double). *)
Inductive number : Type :=
  | NaN : number
  | Infinity (negative : bool) : number
  | Zero (negative : bool) : number
  | Dyadic (negative : bool) (mantissa : positive) (exponent : Z) : number.

(** The number of an integer. *)
Definition integer (n : Z) : number :=
  match n with
  | Z0 => Zero false
  | Zpos p => Dyadic false p 0
  | Zneg p => Dyadic true p 0
  end.

(** ToBoolean on strings and numbers: the empty string, the two zeros and
    NaN are falsy. *)
Definition truthy_string (s : string) : bool :=
  match s with EmptyString => false | String _ _ => true end.

Definition truthy_number (x : number) : bool :=
  match x with
  | NaN | Zero _ => false
  | Infinity _ | Dyadic _ _ _ => true
  end.

(** ** The data model of [lib/dokploy.ts] (the types inferred from the schemas) *)

Module Domain.
Record t : Type := mk {
  domainId : option string;
  host : string;
  https : option bool;
  port : maybe number;
  path : maybe string;
  serviceName : maybe string
}.
End Domain.

Module Resource.
Record t : Type := mk {
  composeId : option string;
  applicationId : option string;
  databaseId : option string;
  name : option string;
  appName : option string;
  composeStatus : option string;
  status : option string;
  domains : maybe (list Domain.t)
}.
End Resource.

Module Environment.
Record t : Type := mk {
  environmentId : option string;
  name : option string;
  description : maybe string;
  applications : option (list Resource.t);
  compose : option (list Resource.t);
  postgres : option (list Resource.t);
  mysql : option (list Resource.t);
  mariadb : option (list Resource.t);
  mongo : option (list Resource.t);
  redis : option (list Resource.t)
}.
End Environment.

Module Project.
Record t : Type := mk {
  projectId : option string;
  name : option string;
  description : maybe string;
  environments : option (list Environment.t)
}.
End Project.

(** ** [resolveDomainUrl] *)

Section ResolveDomainUrl.
(** [Number::toString], the conversion that a template literal applies
    to a number: a builtin. *)
Variable Number_toString : number → string.

(** The argument is an [option]: the function guards against a missing
    domain with [domain?.host]. *)
Definition resolveDomainUrl (domain : option Domain.t) : option string :=
  match domain with
  | None => None
  | Some d =>
      if negb (truthy_string (Domain.host d)) then None
      else
        let protocol :=
          match Domain.https d with Some true => "https" | _ => "http" end in
        let port :=
          match Domain.port d with
          | Val p => if truthy_number p then ":" +:+ Number_toString p else ""
          | _ => ""
          end in
        let path :=
          match Domain.path d with
          | Val p =>
              if truthy_string p && negb (String.eqb p "/") then p else ""
          | _ => ""
          end in
        Some (protocol +:+ "://" +:+ Domain.host d +:+ port +:+ path)
  end.
End ResolveDomainUrl.

(** The seven resource categories, in the order of [resourceSections]. *)
Inductive sectionKey : Type :=
  | applications | compose | postgres | mysql | mariadb | mongo | redis.

Record section : Type := mkSection { key : sectionKey; label : string }.

Definition resourceSections : list section :=
  [ mkSection applications "Applications";
    mkSection compose "Compose Stacks";
    mkSection postgres "Postgres";
    mkSection mysql "MySQL";
    mkSection mariadb "MariaDB";
    mkSection mongo "MongoDB";
    mkSection redis "Redis" ].

(** The property name a key stands for, as it is spliced into a string. *)
Definition keyName (k : sectionKey) : string :=
  match k with
  | applications => "applications"
  | compose => "compose"
  | postgres => "postgres"
  | mysql => "mysql"
  | mariadb => "mariadb"
  | mongo => "mongo"
  | redis => "redis"
  end.

(** [environment[section.key]] *)
Definition environmentGet (e : Environment.t) (k : sectionKey)
  : option (list Resource.t) :=
  match k with
  | applications => Environment.applications e
  | compose => Environment.compose e
  | postgres => Environment.postgres e
  | mysql => Environment.mysql e
  | mariadb => Environment.mariadb e
  | mongo => Environment.mongo e
  | redis => Environment.redis e
  end.

(** ** [flattenProjects] ([App.tsx]) *)

Module ResourceEntry.
Record t : Type := mk {
  id : string;
  projectKey : string;
  title : string;
  projectName : string;
  environmentName : option string;
  sectionLabel : string;
  urls : list string
}.
End ResourceEntry.

(** [index.toString(36)] *)
Definition digit36 (n : N) : Ascii.ascii :=
  if (n <? 10)%N then Ascii.ascii_of_N (48 + n) else Ascii.ascii_of_N (87 + n).

Fixpoint toString36_go (fuel : nat) (n : N) (acc : string) : string :=
  match fuel with
  | O => acc
  | S fuel' =>
      let acc' := String (digit36 (n `mod` 36)%N) acc in
      if (n `div` 36 =? 0)%N then acc' else toString36_go fuel' (n `div` 36)%N acc'
  end.

Definition toString36 (index : nat) : string :=
  toString36_go (S index) (N.of_nat index) "".

(** [array.forEach((x, i) => ...)] where the callback updates a state
    ([entries], grown with [push]): the state is threaded from left to
    right, the index counts from 0. *)
Fixpoint forEachFrom {A St : Type} (f : A → nat → St → St)
    (i : nat) (l : list A) (s : St) : St :=
  match l with
  | [] => s
  | x :: l' => forEachFrom f (S i) l' (f x i s)
  end.

Definition forEach {A St : Type} (f : A → nat → St → St) (l : list A) (s : St) : St :=
  forEachFrom f 0 l s.

(** [entries.push(e)] *)
Definition push {A : Type} (e : A) (entries : list A) : list A := entries ++ [e].

(** [.filter((value): value is string => typeof value === "string" &&
    value.length > 0)] on the results of [resolveDomainUrl]. *)
Fixpoint filterNonEmptyStrings (l : list (option string)) : list string :=
  match l with
  | [] => []
  | Some s :: l' =>
      if (0 <? String.length s)%nat then s :: filterNonEmptyStrings l'
      else filterNonEmptyStrings l'
  | None :: l' => filterNonEmptyStrings l'
  end.

Definition resourceUrls (Number_toString : number → string) (resource : Resource.t)
  : list string :=
  filterNonEmptyStrings
    (map (λ domain, resolveDomainUrl Number_toString (Some domain))
         (nullish (Resource.domains resource) [])).

(** [Array.prototype.sort(compare)] is a builtin.  It is stable and, for a
    comparator that is a consistent ordering of the elements, returns them
    in non-decreasing order; the model is the stable insertion sort, which
    places an element before the first later element it does not exceed.
    For a comparator that is not consistent, the order the builtin returns
    is implementation-defined, and the model stands for one
    implementation. *)
Section Sort.
Context {A : Type} (compare : A → A → Z).

Fixpoint insertSorted (x : A) (l : list A) : list A :=
  match l with
  | [] => [x]
  | y :: l' =>
      if (compare x y <=? 0)%Z then x :: y :: l' else y :: insertSorted x l'
  end.

Fixpoint sort (l : list A) : list A :=
  match l with
  | [] => []
  | x :: l' => insertSorted x (sort l')
  end.
End Sort.

Section Flatten.
(** [Number::toString] *)
Variable Number_toString : number → string.
(** [String.prototype.localeCompare]: negative, zero or positive. *)
Variable localeCompare : string → string → Z.

Definition compareEntries (a b : ResourceEntry.t) : Z :=
  if negb (String.eqb (ResourceEntry.projectName a) (ResourceEntry.projectName b))
  then localeCompare (ResourceEntry.projectName a) (ResourceEntry.projectName b)
  else localeCompare (ResourceEntry.title a) (ResourceEntry.title b).

(** The entry pushed for one resource. *)
Definition entryOf (project : Project.t) (index : nat)
    (environment : Environment.t) (sec : section)
    (resource : Resource.t) (resIndex : nat) : ResourceEntry.t :=
  let projectName := coalesce (Project.name project) "Unnamed project" in
  let projectKey :=
    coalesce (Project.projectId project)
      (coalesce (Project.name project) ("project-" +:+ toString36 index)) in
  let environmentName := Environment.name environment in
  let urls := resourceUrls Number_toString resource in
  let title :=
    coalesce (Resource.name resource)
      (coalesce (Resource.appName resource) "Untitled resource") in
  let id :=
    coalesce (Resource.composeId resource)
      (coalesce (Resource.applicationId resource)
         (coalesce (Resource.databaseId resource)
            (coalesce (Project.projectId project) projectName
               +:+ "-" +:+ keyName (key sec) +:+ "-" +:+ pretty resIndex))) in
  {| ResourceEntry.id := id;
     ResourceEntry.projectKey := projectKey;
     ResourceEntry.title := title;
     ResourceEntry.projectName := projectName;
     ResourceEntry.environmentName := environmentName;
     ResourceEntry.sectionLabel := label sec;
     ResourceEntry.urls := urls |}.

(** The nested loops of [flattenProjects], before the final sort. *)
Definition collectEntries (projects : list Project.t) : list ResourceEntry.t :=
  forEach (λ project index entries,
    forEach (λ environment _ entries,
      forEach (λ sec _ entries,
        match environmentGet environment (key sec) with
        | None => entries
        | Some resources =>
            forEach (λ resource resIndex entries,
              push (entryOf project index environment sec resource resIndex) entries)
              resources entries
        end)
        resourceSections entries)
      (coalesce (Project.environments project) []) entries)
    projects [].

Definition flattenProjects (projects : list Project.t) : list ResourceEntry.t :=
  sort compareEntries (collectEntries projects).
End Flatten.

(** ** Pin state ([App.tsx]) *)

(** The state updater of [togglePin]. *)
Definition togglePin (entryId : string) (prev : list string) : list string :=
  if decide (entryId ∈ prev) then filter (λ key, key ≠ entryId) prev
  else prev ++ [entryId].

Definition pinnedEntries (entries : list ResourceEntry.t) (pinnedResources : list string)
  : list ResourceEntry.t :=
  filter (λ entry, ResourceEntry.id entry ∈ pinnedResources) entries.

Definition regularEntries (entries : list ResourceEntry.t) (pinnedResources : list string)
  : list ResourceEntry.t :=
  filter (λ entry, ResourceEntry.id entry ∉ pinnedResources) entries.

(** ** JavaScript values and exceptions *)

Inductive value : Type :=
  | VUndefined : value
  | VNull : value
  | VBool : bool → value
  | VNum : Z → value
  | VStr : string → value
  | VArr : list value → value
  | VObj : gmap string value → value.

(** [obj[k]]: a missing property reads as [undefined]. *)
Definition getProp (m : gmap string value) (k : string) : value :=
  default VUndefined (m !! k).

(** The outcome of an expression that may throw an [Error]; the error is
    kept as its [message]. *)
Inductive completion (A : Type) : Type :=
  | Return : A → completion A
  | Throw : string → completion A.
Arguments Return {A} _.
Arguments Throw {A} _.

Global Instance completion_ret : MRet completion := λ A a, Return a.

Global Instance completion_bind : MBind completion := λ A B k c,
  match c with Return a => k a | Throw e => Throw e end.

(** [try { body } catch (error) { handler }] *)
Definition tryCatch {A} (body : completion A) (handler : string → completion A)
  : completion A :=
  match body with Return a => Return a | Throw e => handler e end.

(** ** The zod combinators used by [lib/dokploy.ts]

    zod is a library outside the repository.  Its combinators are modelled
    from their documented behaviour: a primitive schema accepts the values
    of its type; [optional] accepts [undefined], [nullable] accepts
    [null], [default] parses the default in place of [undefined]; an array
    schema parses every element; an object schema parses the properties of
    its shape and, by default, leaves the other properties of the input
    out of the result ([Strip]), while [.passthrough()] copies them
    ([Passthrough]).  Every issue is reported with its path. *)

Module Zod.
Inductive unknownKeys : Type := Strip | Passthrough.

(** [ZString n] is [z.string().min(n)]; [z.string()] is [ZString 0]. *)
Inductive schema : Type :=
  | ZString : nat → schema
  | ZBoolean : schema
  | ZNumber : schema
  | ZOptional : schema → schema
  | ZNullable : schema → schema
  | ZDefault : schema → value → schema
  | ZArray : schema → schema
  | ZObject : list (string * schema) → unknownKeys → schema.

Inductive pathItem : Type := Key (k : string) | Index (i : nat).
Inductive issueCode : Type := invalid_type | too_small.
Record issue : Type := mkIssue { code : issueCode; path : list pathItem }.

Inductive outcome : Type :=
  | Valid : value → outcome
  | Invalid : list issue → outcome.

Definition isValid (o : outcome) : bool :=
  match o with Valid _ => true | Invalid _ => false end.

Definition issuesOf (o : outcome) : list issue :=
  match o with Valid _ => [] | Invalid errs => errs end.

Definition valueOf (o : outcome) : option value :=
  match o with Valid v => Some v | Invalid _ => None end.

(** An array is valid when every element is; otherwise the issues of all
    elements are reported, in index order. *)
Definition mergeArray (results : list outcome) : outcome :=
  if forallb isValid results then Valid (VArr (omap valueOf results))
  else Invalid (mjoin (issuesOf <$> results)).

(** A parsed property is written to the result when it is defined or
    when the input had the property. *)
Definition setParsed (data : gmap string value) (acc : gmap string value)
    (r : string * outcome) : gmap string value :=
  match r.2 with
  | Valid v =>
      match v, data !! r.1 with
      | VUndefined, None => acc
      | _, _ => <[r.1 := v]> acc
      end
  | Invalid _ => acc
  end.

(** The properties of the input the shape does not name: kept by
    [.passthrough()], dropped by a plain [z.object]. *)
Definition extraKeys (mode : unknownKeys) (shapeKeys : list string)
    (data : gmap string value) : gmap string value :=
  match mode with
  | Passthrough => filter (λ kv, kv.1 ∉ shapeKeys) data
  | Strip => ∅
  end.

(** An object is valid when every declared property is; otherwise the
    issues of all properties are reported, in the order of the shape. *)
Definition mergeObject (mode : unknownKeys) (data : gmap string value)
    (results : list (string * outcome)) : outcome :=
  if forallb (λ r, isValid r.2) results then
    Valid (VObj (foldl (setParsed data) (extraKeys mode (results.*1) data) results))
  else Invalid (mjoin ((λ r, issuesOf r.2) <$> results)).

Fixpoint parseAt (s : schema) (p : list pathItem) (v : value) : outcome :=
  match s with
  | ZString min =>
      match v with
      | VStr x =>
          if (min <=? String.length x)%nat then Valid v
          else Invalid [mkIssue too_small p]
      | _ => Invalid [mkIssue invalid_type p]
      end
  | ZBoolean =>
      match v with VBool _ => Valid v | _ => Invalid [mkIssue invalid_type p] end
  | ZNumber =>
      match v with VNum _ => Valid v | _ => Invalid [mkIssue invalid_type p] end
  | ZOptional s' =>
      match v with VUndefined => Valid VUndefined | _ => parseAt s' p v end
  | ZNullable s' =>
      match v with VNull => Valid VNull | _ => parseAt s' p v end
  | ZDefault s' d =>
      match v with VUndefined => parseAt s' p d | _ => parseAt s' p v end
  | ZArray s' =>
      match v with
      | VArr l => mergeArray (imap (λ i x, parseAt s' (p ++ [Index i]) x) l)
      | _ => Invalid [mkIssue invalid_type p]
      end
  | ZObject shape mode =>
      match v with
      | VObj data =>
          mergeObject mode data
            ((λ f, (f.1, parseAt f.2 (p ++ [Key f.1]) (getProp data f.1))) <$> shape)
      | _ => Invalid [mkIssue invalid_type p]
      end
  end.

(** [schema.safeParse(v)] *)
Definition safeParse (s : schema) (v : value) : outcome := parseAt s [] v.
End Zod.

(** ** The schemas of [lib/dokploy.ts] *)

Import Zod.

Definition zString : schema := ZString 0.

Definition domainSchema : schema :=
  ZObject
    [ ("domainId", ZOptional zString);
      ("host", ZString 1);
      ("https", ZOptional ZBoolean);
      ("port", ZNullable (ZOptional ZNumber));
      ("path", ZNullable (ZOptional zString));
      ("serviceName", ZNullable (ZOptional zString)) ]
    Passthrough.

Definition resourceSchema : schema :=
  ZObject
    [ ("composeId", ZOptional zString);
      ("applicationId", ZOptional zString);
      ("databaseId", ZOptional zString);
      ("name", ZOptional zString);
      ("appName", ZOptional zString);
      ("composeStatus", ZOptional zString);
      ("status", ZOptional zString);
      ("domains", ZNullable (ZOptional (ZArray domainSchema))) ]
    Passthrough.

Definition environmentSchema : schema :=
  ZObject
    [ ("environmentId", ZOptional zString);
      ("name", ZOptional zString);
      ("description", ZOptional (ZNullable zString));
      ("applications", ZOptional (ZArray resourceSchema));
      ("compose", ZOptional (ZArray resourceSchema));
      ("postgres", ZOptional (ZArray resourceSchema));
      ("mysql", ZOptional (ZArray resourceSchema));
      ("mariadb", ZOptional (ZArray resourceSchema));
      ("mongo", ZOptional (ZArray resourceSchema));
      ("redis", ZOptional (ZArray resourceSchema)) ]
    Passthrough.

Definition projectSchema : schema :=
  ZObject
    [ ("projectId", ZOptional zString);
      ("name", ZOptional zString);
      ("description", ZOptional (ZNullable zString));
      ("environments", ZOptional (ZArray environmentSchema)) ]
    Passthrough.

Definition projectListSchema : schema := ZArray projectSchema.

Definition openApiInfoSchema : schema :=
  ZObject
    [ ("info",
       ZOptional
         (ZObject
            [ ("title", ZOptional zString);
              ("version", ZOptional zString);
              ("description", ZOptional zString) ]
            Strip));
      ("servers", ZOptional (ZArray (ZObject [ ("url", zString) ] Strip))) ]
    Passthrough.

Definition configResponseSchema : schema :=
  ZObject
    [ ("projects", projectListSchema);
      ("meta",
       ZObject
         [ ("title", ZOptional zString);
           ("version", ZOptional zString);
           ("description", ZOptional zString);
           ("servers", ZDefault (ZArray zString) (VArr []));
           ("fetchedAt", zString) ]
         Strip) ]
    Strip.

(** The property names a schema of the layer declares. *)
Definition shapeKeys (s : schema) : list string :=
  match s with ZObject shape _ => shape.*1 | _ => [] end.

(** ** Restoring the pin set ([App.tsx], the initializer of [pinnedResources]) *)

Definition PIN_STORAGE_KEY : string := "dokdash:pinnedResources".

(** [parsed.filter((item): item is string => typeof item === "string")] *)
Definition filterStrings (items : list value) : list string :=
  omap (λ item, match item with VStr s => Some s | _ => None end) items.

Section PinStorage.
(** [JSON.parse]: the parsed value, or a thrown [SyntaxError]. *)
Variable JSON_parse : string → completion value.

(** [window] is [None] where [typeof window === "undefined"]; otherwise
    it holds what reading [window.localStorage] gives: the store, or a
    thrown error where storage access is denied. *)
Definition initialPinnedResources
    (window : option (completion (gmap string string)))
  : completion (list string) :=
  match window with
  | None => Return []
  | Some localStorage =>
      tryCatch
        (store ← localStorage;
         match store !! PIN_STORAGE_KEY with
         | None => Return []
         | Some stored =>
             if negb (truthy_string stored) then Return []
             else
               parsed ← JSON_parse stored;
               Return
                 match parsed with
                 | VArr items => filterStrings items
                 | _ => []
                 end
         end)
        (λ error, Return [])
  end.
End PinStorage.

(** ** The server ([index.tsx]) *)

(** White space and line terminators among the code units below 256:
    TAB, LF, VT, FF, CR, SPACE and NBSP. *)
Definition isWhiteSpace (c : Ascii.ascii) : bool :=
  let n := Ascii.N_of_ascii c in
  ((9 <=? n) && (n <=? 13) || (n =? 32) || (n =? 160))%N.

Fixpoint trimStart (s : string) : string :=
  match s with
  | EmptyString => EmptyString
  | String c s' => if isWhiteSpace c then trimStart s' else s
  end.

Fixpoint trimEnd (s : string) : string :=
  match s with
  | EmptyString => EmptyString
  | String c s' =>
      match trimEnd s' with
      | EmptyString => if isWhiteSpace c then EmptyString else String c EmptyString
      | r => String c r
      end
  end.

(** [input.trim()] *)
Definition trim (s : string) : string := trimEnd (trimStart s).

(** [s.replace(/\/$/, "")]: without the [m] flag, [$] matches at the end
    of the input only. *)
Fixpoint stripTrailingSlash (s : string) : string :=
  match s with
  | EmptyString => EmptyString
  | String c s' =>
      match s' with
      | EmptyString => if Ascii.eqb c "/"%char then EmptyString else s
      | _ => String c (stripTrailingSlash s')
      end
  end.

(** Whether [/\/api(?:\/|$)/] matches at the start of [s]. *)
Definition apiSegmentHere (s : string) : bool :=
  match s with
  | String c1 (String c2 (String c3 (String c4 rest))) =>
      Ascii.eqb c1 "/"%char && Ascii.eqb c2 "a"%char
      && Ascii.eqb c3 "p"%char && Ascii.eqb c4 "i"%char
      && match rest with
         | EmptyString => true
         | String c _ => Ascii.eqb c "/"%char
         end
  | _ => false
  end.

(** [/\/api(?:\/|$)/.test(s)] *)
Fixpoint testApiSegment (s : string) : bool :=
  match s with
  | EmptyString => false
  | String _ s' => apiSegmentHere s || testApiSegment s'
  end.

Definition sanitizeBaseUrl (input : string) : option string :=
  let trimmed := trim input in
  if negb (truthy_string trimmed) then None
  else
    let normalized := stripTrailingSlash trimmed in
    let normalized :=
      if negb (testApiSegment normalized) then normalized +:+ "/api"
      else normalized in
    Some normalized.

Module Server.
(** What [fetch] resolves to. *)
Record FetchResponse : Type := mkFetchResponse {
  status : Z;
  statusText : string;
  json : completion value
}.

(** [response.ok]: the status is in the range 200-299. *)
Definition ok (r : FetchResponse) : bool :=
  ((200 <=? status r) && (status r <=? 299))%Z.

(** What the route answers: [Response.json(body, { status, headers })]. *)
Record HttpResponse : Type := mkHttpResponse {
  code : Z;
  body : value;
  headers : list (string * string)
}.

(** [Promise.all] of two promises: both values, or the reason of the
    promise that rejects first. *)
Definition promiseAll {A B} (secondRejectsFirst : bool)
    (a : completion A) (b : completion B) : completion (A * B) :=
  match a, b with
  | Return x, Return y => Return (x, y)
  | Throw e, Return _ => Throw e
  | Return _, Throw e => Throw e
  | Throw e1, Throw e2 => Throw (if secondRejectsFirst then e2 else e1)
  end.

(** [v?.k] and, on an object, [v.k]. *)
Definition getField (v : value) (k : string) : value :=
  match v with VObj m => getProp m k | _ => VUndefined end.

(** [(servers ?? []).map((server) => server.url)] *)
Definition serverUrls (servers : value) : completion value :=
  match servers with
  | VUndefined | VNull => Return (VArr [])
  | VArr l => Return (VArr (map (λ server, getField server "url") l))
  | _ => Throw "servers.map is not a function"
  end.

Definition errorResponse (message : string) : HttpResponse :=
  mkHttpResponse 500 (VObj {[ "error" := VStr message ]}) [].

Section Handler.
(** The message of the [ZodError] that [parse] throws. *)
Variable zodMessage : list issue → string.
(** The upstream: what [fetch(url, { headers })] settles to. *)
Variable fetch : string → list (string * string) → completion FetchResponse.
Variable secondRejectsFirst : bool.
(** [new Date().toISOString()] *)
Variable now : string.

(** [schema.parse(v)] *)
Definition parse (s : schema) (v : value) : completion value :=
  match safeParse s v with
  | Valid v' => Return v'
  | Invalid errs => Throw (zodMessage errs)
  end.

(** The handler of the route [/api/config]. *)
Definition configHandler (DOKPLOY_BASE_URL DOKPLOY_API_KEY : option string)
  : completion HttpResponse :=
  tryCatch
    (let baseUrl := coalesce DOKPLOY_BASE_URL "" in
     let apiKey := coalesce DOKPLOY_API_KEY "" in
     let missing :=
       Return (errorResponse "Missing DOKPLOY_BASE_URL environment variable.") in
     match sanitizeBaseUrl baseUrl with
     | None => missing
     | Some sanitizedBase =>
         if negb (truthy_string sanitizedBase) then missing else
         let headers :=
           ("Accept", "application/json")
             :: (if truthy_string apiKey then [("x-api-key", apiKey)] else []) in
         let openApiUrl := sanitizedBase +:+ "/settings.getOpenApiDocument" in
         let projectsUrl := sanitizedBase +:+ "/project.all" in
         responses ← promiseAll secondRejectsFirst
                       (fetch openApiUrl headers) (fetch projectsUrl headers);
         let openApiResponse := responses.1 in
         let projectsResponse := responses.2 in
         if negb (ok openApiResponse) then
           Throw ("Unable to load Dokploy OpenAPI document ("
                    +:+ pretty (status openApiResponse) +:+ " "
                    +:+ statusText openApiResponse +:+ ")")
         else if negb (ok projectsResponse) then
           Throw ("Unable to load Dokploy projects ("
                    +:+ pretty (status projectsResponse) +:+ " "
                    +:+ statusText projectsResponse +:+ ")")
         else
           openApiJson ← json openApiResponse;
           projectsJson ← json projectsResponse;
           openApi ← parse openApiInfoSchema openApiJson;
           projects ← parse projectListSchema projectsJson;
           servers ← serverUrls (getField openApi "servers");
           payload ← parse configResponseSchema
             (VObj
                (list_to_map
                   [ ("projects", projects);
                     ("meta",
                      VObj
                        (list_to_map
                           [ ("title", getField (getField openApi "info") "title");
                             ("version", getField (getField openApi "info") "version");
                             ("description",
                              getField (getField openApi "info") "description");
                             ("servers", servers);
                             ("fetchedAt", VStr now) ])) ]));
           Return (mkHttpResponse 200 payload [("cache-control", "no-store")])
     end)
    (λ message, Return (errorResponse message)).
End Handler.
End Server.

(** * Specification-level notions

    The definitions below are not part of the program: they phrase what
    the theorems state about it. *)

(** ** Ordering *)

(** [x] is not after [y] in the order a comparator induces. *)
Definition notAfter {A : Type} (compare : A → A → Z) (x y : A) : Prop :=
  (compare x y ≤ 0)%Z.

Global Instance notAfter_dec {A : Type} (compare : A → A → Z) (x y : A) :
  Decision (notAfter compare x y) := Z_le_dec _ _.

(** [y] is ranked with [x]: neither is after the other. *)
Definition rankedWith {A : Type} (compare : A → A → Z) (x y : A) : Prop :=
  notAfter compare x y ∧ notAfter compare y x.

Global Instance rankedWith_dec {A : Type} (compare : A → A → Z) (x y : A) :
  Decision (rankedWith compare x y) := and_dec _ _.

(** Comparison of strings by code units, as a comparator. *)
Definition codeUnitCompare (a b : string) : Z :=
  if decide (a = b) then 0%Z
  else if String.leb a b then (-1)%Z else 1%Z.

(** ** The entries of a project list, without loops *)

Definition sectionEntries (Number_toString : number → string)
    (project : Project.t) (index : nat)
    (environment : Environment.t) (sec : section) : list ResourceEntry.t :=
  match environmentGet environment (key sec) with
  | None => []
  | Some resources =>
      imap (λ resIndex resource,
              entryOf Number_toString project index environment sec resource resIndex)
        resources
  end.

Definition projectEntries (Number_toString : number → string)
    (index : nat) (project : Project.t) : list ResourceEntry.t :=
  environment ← coalesce (Project.environments project) [];
  sec ← resourceSections;
  sectionEntries Number_toString project index environment sec.

(** Where a resource sits in a project list: project [index], one of its
    environments, one of the seven categories, position [resIndex]. *)
Record located (projects : list Project.t) (index : nat) (project : Project.t)
    (environment : Environment.t) (sec : section) (resIndex : nat)
    (resource : Resource.t) : Prop := mkLocated {
  located_project : projects !! index = Some project;
  located_environment : environment ∈ coalesce (Project.environments project) [];
  located_section : sec ∈ resourceSections;
  located_resource :
    ∃ resources, environmentGet environment (key sec) = Some resources ∧
                 resources !! resIndex = Some resource
}.

(** The number of resources in a project list. *)
Definition resourceCount (projects : list Project.t) : nat :=
  sum_list_with (λ project,
    sum_list_with (λ environment,
      sum_list_with (λ sec,
        length (coalesce (environmentGet environment (key sec)) []))
        resourceSections)
      (coalesce (Project.environments project) []))
    projects.

(** ** Identifiers *)

(** The first candidate that is present. *)
Definition firstPresent (candidates : list (option string)) : option string :=
  mjoin (head (filter is_Some candidates)).

(** [{projectId ?? projectName}-{categoryKey}-{resIndex}] *)
Definition fallbackId (project : Project.t) (sec : section) (resIndex : nat) : string :=
  match Project.projectId project with
  | Some projectId => projectId
  | None =>
      match Project.name project with
      | Some name => name
      | None => "Unnamed project"
      end
  end +:+ "-" +:+ keyName (key sec) +:+ "-" +:+ pretty resIndex.

Definition expectedId (project : Project.t) (sec : section) (resIndex : nat)
    (resource : Resource.t) : string :=
  match firstPresent [Resource.composeId resource;
                      Resource.applicationId resource;
                      Resource.databaseId resource] with
  | Some explicit => explicit
  | None => fallbackId project sec resIndex
  end.

Definition noExplicitId (resource : Resource.t) : Prop :=
  Resource.composeId resource = None ∧
  Resource.applicationId resource = None ∧
  Resource.databaseId resource = None.

(** ** Resolved URLs *)

(** [resolvedUrls ds us]: [us] lists, in the order of [ds], the URLs of
    the domains that resolve to a non-empty string. *)
Inductive resolvedUrls (Number_toString : number → string)
  : list Domain.t → list string → Prop :=
  | resolved_nil : resolvedUrls Number_toString [] []
  | resolved_keep d ds u us :
      resolveDomainUrl Number_toString (Some d) = Some u → u ≠ "" →
      resolvedUrls Number_toString ds us →
      resolvedUrls Number_toString (d :: ds) (u :: us)
  | resolved_drop d ds us :
      resolveDomainUrl Number_toString (Some d) = None
      ∨ resolveDomainUrl Number_toString (Some d) = Some "" →
      resolvedUrls Number_toString ds us →
      resolvedUrls Number_toString (d :: ds) us.

(** ** Base URLs *)

Fixpoint allWhiteSpace (s : string) : bool :=
  match s with
  | EmptyString => true
  | String c s' => isWhiteSpace c && allWhiteSpace s'
  end.

(** [s] neither starts nor ends with white space. *)
Definition isTrimmed (s : string) : Prop :=
  (∀ c r, s = String c r → isWhiteSpace c = false) ∧
  (∀ c r, s = r +:+ String c "" → isWhiteSpace c = false).

(** [n] is [t] without its last character when that is a slash, else [t]. *)
Definition oneSlashStripped (t n : string) : Prop :=
  t = n +:+ "/" ∨ ((∀ r, t ≠ r +:+ "/") ∧ n = t).

(** [s] contains [/api] followed by a slash or by the end of the string
    (anywhere in the string: the test is on the text, not on a parsed URL). *)
Definition containsApiSegment (s : string) : Prop :=
  ∃ pre post, s = pre +:+ "/api" +:+ post ∧ (post = "" ∨ ∃ post', post = "/" +:+ post').

(** ** Validation *)

(** The object schemas declared with [.passthrough()], and all the object
    schemas of the layer. *)
Definition passthroughSchemas : list schema :=
  [domainSchema; resourceSchema; environmentSchema; projectSchema; openApiInfoSchema].

Definition layerSchemas : list schema := passthroughSchemas ++ [configResponseSchema].

Definition shapeOf (s : schema) : list (string * schema) :=
  match s with ZObject shape _ => shape | _ => [] end.

(** Properties of an accepted object that the schema does not name are
    in the parsed result, unchanged. *)
Definition retainsExtraFields (s : schema) : Prop :=
  ∀ data v, safeParse s (VObj data) = Valid v →
    ∃ out, v = VObj out ∧ ∀ k, k ∉ shapeKeys s → out !! k = data !! k.

(** Properties of an accepted object that the schema does not name are
    absent from the parsed result. *)
Definition dropsExtraFields (s : schema) : Prop :=
  ∀ data v, safeParse s (VObj data) = Valid v →
    ∃ out, v = VObj out ∧ ∀ k, k ∉ shapeKeys s → out !! k = None.

(** An object one of whose declared properties is rejected by the
    property's schema (a required property that is missing reads as
    [undefined]) is rejected. *)
Definition rejectsBadFields (s : schema) : Prop :=
  ∀ k fieldSchema data,
    (k, fieldSchema) ∈ shapeOf s →
    isValid (parseAt fieldSchema [Key k] (getProp data k)) = false →
    isValid (safeParse s (VObj data)) = false.

(** The properties a schema requires: those whose schema rejects [undefined]. *)
Definition requiredKeys (s : schema) : list string :=
  (filter (λ f, isValid (parseAt f.2 [Key f.1] VUndefined) = false) (shapeOf s)).*1.

(** ** Sample inputs *)

(** A [Number::toString] for the samples: the builtin's text on an
    integer below [2^53] written with exponent 0, on the zeros, the
    infinities and NaN; on other numbers it stands for no builtin. *)
Definition sampleNumberToString (x : number) : string :=
  match x with
  | NaN => "NaN"
  | Infinity negative => if negative then "-Infinity" else "Infinity"
  | Zero _ => "0"
  | Dyadic negative mantissa _ =>
      (if negative then "-" else "") +:+ pretty (Npos mantissa)
  end.

Definition namedResource (name : string) : Resource.t :=
  Resource.mk None None None (Some name) None None None Undefined.

Definition sampleEnvironment (apps : list Resource.t) : Environment.t :=
  Environment.mk None (Some "production") Undefined (Some apps)
    None None None None None None.

(** Two projects, given in decreasing order of their names. *)
Definition sampleProjects : list Project.t :=
  [ Project.mk (Some "p2") (Some "zeta") Undefined
      (Some [sampleEnvironment [namedResource "web"; namedResource "api"]]);
    Project.mk (Some "p1") (Some "alpha") Undefined
      (Some [sampleEnvironment [namedResource "db"]]) ].

(** The soft hyphen, U+00AD, which the collation behind [localeCompare]
    ignores, and a comparator that ignores it: the order on code units
    of the strings without their soft hyphens. *)
Definition softHyphen : string := String (Ascii.ascii_of_N 173) EmptyString.

Fixpoint withoutSoftHyphens (s : string) : string :=
  match s with
  | EmptyString => EmptyString
  | String c s' =>
      if Ascii.eqb c (Ascii.ascii_of_N 173) then withoutSoftHyphens s'
      else String c (withoutSoftHyphens s')
  end.

Definition ignoringSoftHyphens (a b : string) : Z :=
  codeUnitCompare (withoutSoftHyphens a) (withoutSoftHyphens b).

(** Three projects with one application each: the names of the first and
    the third are [a], the name of the second is [a] with a soft hyphen. *)
Definition softHyphenProjects : list Project.t :=
  [ Project.mk None (Some "a") Undefined
      (Some [sampleEnvironment [namedResource "z"]]);
    Project.mk None (Some ("a" +:+ softHyphen)) Undefined
      (Some [sampleEnvironment [namedResource "y"]]);
    Project.mk None (Some "a") Undefined
      (Some [sampleEnvironment [namedResource "x"]]) ].

(** A resource without identifiers or names. *)
Definition anonymousResource : Resource.t :=
  Resource.mk None None None None None None None Undefined.

(** One project with one environment that holds two applications without
    explicit identifiers. *)
Definition twoApplicationsEnvironment : Environment.t :=
  sampleEnvironment [anonymousResource; anonymousResource].

Definition twoApplicationsProject : Project.t :=
  Project.mk None (Some "shop") Undefined (Some [twoApplicationsEnvironment]).

(** One project without [projectId] whose two environments each hold, at
    index 0 of [applications], a resource without explicit identifiers. *)
Definition stagingEnvironment : Environment.t :=
  Environment.mk None (Some "staging") Undefined (Some [anonymousResource])
    None None None None None None.

Definition productionEnvironment : Environment.t :=
  Environment.mk None (Some "production") Undefined (Some [anonymousResource])
    None None None None None None.

Definition twoEnvironmentsProject : Project.t :=
  Project.mk None (Some "shop") Undefined
    (Some [stagingEnvironment; productionEnvironment]).

(** A [JSON.parse] that knows two texts, an object and an array, and
    throws on every other text. *)
Definition sampleParse (text : string) : completion value :=
  if decide (text = "{}") then Return (VObj ∅)
  else if decide (text = "[1,{}]") then Return (VArr [VNum 1; VObj ∅])
  else Throw "Unexpected token".

(** A response envelope with a property the schema does not name. *)
Definition envelopeWithExtra : gmap string value :=
  list_to_map
    [ ("projects", VArr []);
      ("meta", VObj (list_to_map [("fetchedAt", VStr "2024-01-01T00:00:00.000Z")]));
      ("extra", VNum 1) ].

(** A domain with a property the schema does not name, and one that
    misses its host. *)
Definition domainWithExtra : gmap string value :=
  list_to_map [("host", VStr "a.com"); ("certificateType", VStr "letsencrypt")].

Definition domainWithoutHost : gmap string value :=
  list_to_map [("hostname", VStr "a.com")].

(** ** The upstream requests *)

(** The headers of both requests: [Accept], and the credential when one
    is configured. *)
Definition requestHeaders (DOKPLOY_API_KEY : option string) : list (string * string) :=
  match DOKPLOY_API_KEY with
  | Some credential =>
      if decide (credential = "") then [("Accept", "application/json")]
      else [("Accept", "application/json"); ("x-api-key", credential)]
  | None => [("Accept", "application/json")]
  end.

(** An upstream that answers both calls: an OpenAPI document with a
    title and one server, and one project with a property the schema does
    not name. *)
Definition healthyFetch (url : string) (headers : list (string * string))
  : completion Server.FetchResponse :=
  if decide (url = "https://host/api/settings.getOpenApiDocument") then
    Return
      (Server.mkFetchResponse 200 "OK"
         (Return
            (VObj
               (list_to_map
                  [ ("info", VObj (list_to_map [("title", VStr "Dokploy")]));
                    ("servers",
                     VArr [VObj (list_to_map [("url", VStr "https://host")])]) ]))))
  else
    Return
      (Server.mkFetchResponse 200 "OK"
         (Return
            (VArr
               [VObj
                  (list_to_map
                     [ ("name", VStr "shop"); ("organizationId", VStr "o1") ])]))).

(** An upstream whose OpenAPI call answers 503 and whose project call
    answers 200 with an empty list. *)
Definition sampleFetch (url : string) (headers : list (string * string))
  : completion Server.FetchResponse :=
  if decide (url = "https://host/api/settings.getOpenApiDocument") then
    Return (Server.mkFetchResponse 503 "Service Unavailable" (Throw "no body"))
  else Return (Server.mkFetchResponse 200 "OK" (Return (VArr []))).


(** * Further parts of the program *)

(** ** Persisting the pin set ([App.tsx], the effect on [pinnedResources]) *)

Section PinPersistence.
(** [JSON.stringify] *)
Variable JSON_stringify : value → string.

(** The storage after the effect has run: where there is a window,
    [localStorage.setItem(PIN_STORAGE_KEY, JSON.stringify(pinnedResources))]
    inside [try]; when reading [localStorage] or [setItem] throws (access
    denied, quota exceeded) the error is caught and the storage is as it
    was. *)
Definition persistPinnedResources
    (window : option (completion (gmap string string))) (setItemThrows : bool)
    (pinnedResources : list string)
  : option (completion (gmap string string)) :=
  match window with
  | None => None
  | Some localStorage =>
      Some
        (tryCatch
           (store ← localStorage;
            if setItemThrows then Throw "QuotaExceededError"
            else
              Return
                (<[PIN_STORAGE_KEY := JSON_stringify (VArr (VStr <$> pinnedResources))]>
                   store))
           (λ error, localStorage))
  end.
End PinPersistence.

(** A [JSON.stringify] and a [JSON.parse] that agree on one pin list. *)
Definition pinsStringify (v : value) : string := "[web]".

Definition pinsParse (text : string) : completion value :=
  if decide (text = "[web]") then Return (VArr [VStr "web"])
  else Throw "Unexpected token".


(** ** Parsed values at their inferred types ([lib/dokploy.ts], [z.infer])

    [schema.parse] is typed: the code that follows it reads the result at
    the type inferred from the schema.  The functions below read a value
    at these types; they are [None] on a value that does not have the
    type.  Properties that the type does not declare are not read. *)

Definition asString (v : value) : option string :=
  match v with VStr s => Some s | _ => None end.

Definition asBoolean (v : value) : option bool :=
  match v with VBool b => Some b | _ => None end.

Definition asNumber (v : value) : option number :=
  match v with VNum n => Some (integer n) | _ => None end.

(** [T | undefined] *)
Definition asOptional {A} (read : value → option A) (v : value) : option (option A) :=
  match v with VUndefined => Some None | _ => Some <$> read v end.

(** [T | null | undefined] *)
Definition asNullish {A} (read : value → option A) (v : value) : option (maybe A) :=
  match v with
  | VUndefined => Some Undefined
  | VNull => Some Null
  | _ => Val <$> read v
  end.

(** [T[]] *)
Definition asArray {A} (read : value → option A) (v : value) : option (list A) :=
  match v with VArr l => mapM read l | _ => None end.

Definition asDomain (v : value) : option Domain.t :=
  match v with
  | VObj o =>
      domainId ← asOptional asString (getProp o "domainId");
      host ← asString (getProp o "host");
      https ← asOptional asBoolean (getProp o "https");
      port ← asNullish asNumber (getProp o "port");
      path ← asNullish asString (getProp o "path");
      serviceName ← asNullish asString (getProp o "serviceName");
      Some (Domain.mk domainId host https port path serviceName)
  | _ => None
  end.

Definition asResource (v : value) : option Resource.t :=
  match v with
  | VObj o =>
      composeId ← asOptional asString (getProp o "composeId");
      applicationId ← asOptional asString (getProp o "applicationId");
      databaseId ← asOptional asString (getProp o "databaseId");
      name ← asOptional asString (getProp o "name");
      appName ← asOptional asString (getProp o "appName");
      composeStatus ← asOptional asString (getProp o "composeStatus");
      status ← asOptional asString (getProp o "status");
      domains ← asNullish (asArray asDomain) (getProp o "domains");
      Some (Resource.mk composeId applicationId databaseId name appName
              composeStatus status domains)
  | _ => None
  end.

Definition asEnvironment (v : value) : option Environment.t :=
  match v with
  | VObj o =>
      environmentId ← asOptional asString (getProp o "environmentId");
      name ← asOptional asString (getProp o "name");
      description ← asNullish asString (getProp o "description");
      applications ← asOptional (asArray asResource) (getProp o "applications");
      compose ← asOptional (asArray asResource) (getProp o "compose");
      postgres ← asOptional (asArray asResource) (getProp o "postgres");
      mysql ← asOptional (asArray asResource) (getProp o "mysql");
      mariadb ← asOptional (asArray asResource) (getProp o "mariadb");
      mongo ← asOptional (asArray asResource) (getProp o "mongo");
      redis ← asOptional (asArray asResource) (getProp o "redis");
      Some (Environment.mk environmentId name description applications compose
              postgres mysql mariadb mongo redis)
  | _ => None
  end.

Definition asProject (v : value) : option Project.t :=
  match v with
  | VObj o =>
      projectId ← asOptional asString (getProp o "projectId");
      name ← asOptional asString (getProp o "name");
      description ← asNullish asString (getProp o "description");
      environments ← asOptional (asArray asEnvironment) (getProp o "environments");
      Some (Project.mk projectId name description environments)
  | _ => None
  end.

(** The [meta] record of [ConfigResponse]. *)
Module Meta.
Record t : Type := mk {
title : option string;
version : option string;
description : option string;
servers : list string;
fetchedAt : string
}.
End Meta.

Module ConfigResponse.
Record t : Type := mk {
projects : list Project.t;
meta : Meta.t
}.
End ConfigResponse.

Definition asMeta (v : value) : option Meta.t :=
  match v with
  | VObj o =>
      title ← asOptional asString (getProp o "title");
      version ← asOptional asString (getProp o "version");
      description ← asOptional asString (getProp o "description");
      servers ← asArray asString (getProp o "servers");
      fetchedAt ← asString (getProp o "fetchedAt");
      Some (Meta.mk title version description servers fetchedAt)
  | _ => None
  end.

Definition asConfigResponse (v : value) : option ConfigResponse.t :=
  match v with
  | VObj o =>
      projects ← asArray asProject (getProp o "projects");
      meta ← asMeta (getProp o "meta");
      Some (ConfigResponse.mk projects meta)
  | _ => None
  end.

(** ** [getDomainLabel] ([App.tsx]) *)

(** [s.split(sep)] for a separator of one character: the pieces between
    the separators; a string without separator is one piece. *)
Fixpoint splitOn (sep : Ascii.ascii) (s : string) : list string :=
  match s with
  | EmptyString => [EmptyString]
  | String c s' =>
      if Ascii.eqb c sep then EmptyString :: splitOn sep s'
      else
        match splitOn sep s' with
        | [] => [String c EmptyString]
        | piece :: pieces => String c piece :: pieces
        end
  end.

(** [parts.slice(-n)] *)
Definition sliceLast {A} (n : nat) (parts : list A) : list A :=
  drop (length parts - n) parts.

Section DomainLabel.
(** [new URL(url).hostname]: the host name, or a thrown [TypeError] when
  the text is not a URL. *)
Variable hostname : string → completion string.

Definition getDomainLabel (url : string) : string :=
match hostname url with
| Return host =>
    let parts := splitOn "."%char host in
    if (length parts <=? 2)%nat then host
    else String.concat "." (sliceLast 2 parts)
| Throw _ => url
end.
End DomainLabel.

(** ** The client ([App.tsx]) *)

Module Client.
Inductive loadStatus : Type := loading | idle.

Record FetchState : Type := mkFetchState {
status : loadStatus;
data : option value;
error : option string
}.

Definition initialState : FetchState := mkFetchState loading None None.

Section LoadConfig.
(** The message of the [ZodError] that [parse] throws. *)
Variable zodMessage : list issue → string.

(** [loadConfig]: the states it sets, in order, given what
[fetch("/api/config")] settles to.  The first [setState] keeps the
data and the error of the previous state. *)
Definition loadConfig (response : completion Server.FetchResponse)
(prev : FetchState) : completion (list FetchState) :=
let started := mkFetchState loading (data prev) (error prev) in
settled ←
tryCatch
  (response ← response;
   if negb (Server.ok response) then
     Throw (pretty (Server.status response) +:+ " "
              +:+ Server.statusText response)
   else
     payload ← Server.json response;
     parsed ← Server.parse zodMessage configResponseSchema payload;
     Return (mkFetchState idle (Some parsed) None))
  (λ message, Return (mkFetchState idle None (Some message)));
Return [started; settled].
End LoadConfig.

(** One link of a card. *)
Record Link : Type := mkLink {
linkKey : string;
href : string;
linkLabel : string
}.

(** What [DashboardCard] shows. *)
Record Card : Type := mkCard {
cardKey : string;
cardTitle : string;
badge : string;
pinLabel : string;
environmentLabel : string;
categoryLabel : string;
(** Empty: the card says "No domains configured." instead. *)
links : list Link
}.

(** What [App] shows, the brand line and the version of the package apart. *)
Record View : Type := mkView {
heading : string;
description : option string;
updated : option string;
errorCard : option string;
skeleton : bool;
emptyCard : bool;
(** Each of the two grids is rendered when it has a card. *)
pinnedSection : list Card;
regularGrid : list Card
}.

(** ToBoolean on a string that may be null or undefined, and on an
  object that may be null. *)
Definition truthy_nullable (x : option string) : bool :=
match x with Some s => truthy_string s | None => false end.

Definition present {A} (x : option A) : bool :=
match x with Some _ => true | None => false end.

(** [x && <element>]: the element is rendered when [x] is truthy. *)
Definition whenTruthy (x : option string) : option string :=
if truthy_nullable x then x else None.

Section Render.
Variable Number_toString : number → string.
Variable localeCompare : string → string → Z.
(** [new Date(input).toLocaleString()] *)
Variable toLocaleString : string → completion string.
Variable hostname : string → completion string.

Definition formatTimestamp (input : option string) : option string :=
match input with
| None => None
| Some input =>
  if negb (truthy_string input) then None
  else
    match toLocaleString input with
    | Return text => Some text
    | Throw _ => Some input
    end
end.

Definition DashboardCard (entry : ResourceEntry.t) (pinnedResources : list string)
: Card :=
{| cardKey := ResourceEntry.id entry;
 cardTitle := ResourceEntry.title entry;
 badge := ResourceEntry.projectName entry;
 pinLabel :=
   if decide (ResourceEntry.id entry ∈ pinnedResources) then "Unpin project"
   else "Pin project";
 environmentLabel := coalesce (ResourceEntry.environmentName entry) "Environment";
 categoryLabel := ResourceEntry.sectionLabel entry;
 links :=
   map (λ url,
          mkLink (ResourceEntry.id entry +:+ "-" +:+ url) url
            (getDomainLabel hostname url))
     (ResourceEntry.urls entry) |}.

(** The view of a state.  The data of the state is read at the type
[ConfigResponse]; there is no view in this model for data that does
not have the type. *)
Definition render (state : FetchState) (pinnedResources : list string)
: option View :=
config ← match data state with
       | None => Some None
       | Some parsed => Some <$> asConfigResponse parsed
       end;
let isLoading := match status state with loading => true | idle => false end in
let meta := ConfigResponse.meta <$> config in
let lastUpdated :=
match meta with
| Some meta => formatTimestamp (Some (Meta.fetchedAt meta))
| None => None
end in
let entries :=
match config with
| Some config =>
    flattenProjects Number_toString localeCompare (ConfigResponse.projects config)
| None => []
end in
let pinned := pinnedEntries entries pinnedResources in
let regular := regularEntries entries pinnedResources in
Some
{| heading := coalesce (meta ≫= Meta.title) "Applications Overview";
   description := whenTruthy (meta ≫= Meta.description);
   updated := whenTruthy lastUpdated;
   errorCard := whenTruthy (error state);
   skeleton := isLoading && negb (present (data state));
   emptyCard :=
     present (data state)
     && (length entries =? 0)%nat
     && negb isLoading
     && negb (truthy_nullable (error state));
   pinnedSection := map (λ entry, DashboardCard entry pinnedResources) pinned;
   regularGrid := map (λ entry, DashboardCard entry pinnedResources) regular |}.
End Render.
End Client.

(** ** Sample payloads *)

Definition sampleHostname (url : string) : completion string :=
  if String.eqb url "https://app.shop.example.com" then Return "app.shop.example.com"
  else Throw "Invalid URL".

(** A payload with one project, one application and one domain, and a
    property the envelope schema does not name. *)
Definition samplePayload : value :=
  VObj
    (list_to_map
       [ ("projects",
          VArr
            [VObj
               (list_to_map
                  [ ("name", VStr "shop");
                    ("environments",
                     VArr
                       [VObj
                          (list_to_map
                             [ ("name", VStr "production");
                               ("applications",
                                VArr
                                  [VObj
                                     (list_to_map
                                        [ ("applicationId", VStr "app-1");
                                          ("name", VStr "web");
                                          ("domains",
                                           VArr
                                             [VObj
                                                (list_to_map
                                                   [ ("host", VStr "app.shop.example.com");
                                                     ("https", VBool true) ])]) ])]) ])]) ])]);
         ("meta", VObj (list_to_map [("fetchedAt", VStr "2024-01-01T00:00:00.000Z")]));
         ("extra", VNum 1) ]).


(** * Further notions and samples

    The definitions below are not part of the program, except where they
    stand for a sample input. *)

(** ** The path of a URL *)

(** The text before the first [c], or the whole text. *)
Fixpoint before (c : Ascii.ascii) (s : string) : string :=
  match s with
  | EmptyString => EmptyString
  | String c' s' => if Ascii.eqb c' c then EmptyString else String c' (before c s')
  end.

(** The segments of the path of a URL written
    [scheme://authority/path?query#fragment]: the pieces between the
    slashes that follow the authority, the query and the fragment apart. *)
Definition pathSegments (url : string) : list string :=
  drop 3 (splitOn "/"%char (before "#"%char (before "?"%char url))).

(** ** Entries that the sort ranks together *)

(** [e] has the project name and the title of [x]. *)
Definition sameNameAndTitle (x e : ResourceEntry.t) : Prop :=
  ResourceEntry.projectName e = ResourceEntry.projectName x ∧
  ResourceEntry.title e = ResourceEntry.title x.

Global Instance sameNameAndTitle_dec (x e : ResourceEntry.t) :
  Decision (sameNameAndTitle x e) := and_dec _ _.



(** ** Schemas whose objects name each property once *)

(** In a zod shape, a JavaScript object, every property name occurs once. *)
Fixpoint wellFormed (s : schema) : bool :=
  match s with
  | ZString _ | ZBoolean | ZNumber => true
  | ZOptional s' | ZNullable s' | ZArray s' => wellFormed s'
  | ZDefault s' _ => wellFormed s'
  | ZObject shape _ =>
      bool_decide (NoDup (shape.*1)) && forallb (λ f, wellFormed f.2) shape
  end.

(** The schemas that [lib/dokploy.ts] exports. *)
Definition exportedSchemas : list schema :=
  [domainSchema; resourceSchema; environmentSchema; projectSchema;
   projectListSchema; openApiInfoSchema; configResponseSchema].


(** ** The envelope of a successful answer *)

(** The object the handler passes to [configResponseSchema.parse]: the
    validated projects, and the meta record lifted from the validated
    OpenAPI document with the server URLs and the time of the request. *)
Definition handlerEnvelope (openApi projects servers : value) (now : string)
  : gmap string value :=
  list_to_map
    [ ("projects", projects);
      ("meta",
       VObj
         (list_to_map
            [ ("title", Server.getField (Server.getField openApi "info") "title");
              ("version", Server.getField (Server.getField openApi "info") "version");
              ("description",
               Server.getField (Server.getField openApi "info") "description");
              ("servers", servers);
              ("fetchedAt", VStr now) ])) ].


(** ** Typed data and host names *)

(** [x] is a value that [s] accepts and returns as it is. *)
Definition validFor (s : schema) (x : value) : Prop :=
  ∀ p, parseAt s p x = Valid x.

(** Every value valid for [s] reads with [read], and what is read
    satisfies [P]. *)
Definition readsAs {A} (s : schema) (read : value → option A) (P : A → Prop) : Prop :=
  ∀ x, validFor s x → ∃ a, read x = Some a ∧ P a.

(** Every domain of the resource, of the environment, of the project has
    a host that is not empty. *)
Definition resourceHasHosts (resource : Resource.t) : Prop :=
  Forall (λ domain, Domain.host domain ≠ "") (nullish (Resource.domains resource) []).

Definition environmentHasHosts (environment : Environment.t) : Prop :=
  ∀ k resources, environmentGet environment k = Some resources →
    Forall resourceHasHosts resources.

Definition projectHasHosts (project : Project.t) : Prop :=
  Forall environmentHasHosts (coalesce (Project.environments project) []).

(** The number of dots in a host name. *)
Fixpoint dots (s : string) : nat :=
  match s with
  | EmptyString => 0
  | String c s' => (if Ascii.eqb c "."%char then 1 else 0) + dots s'
  end.


(** ** Sample upstreams *)

(** An upstream that cannot be reached. *)
Definition refusedFetch (url : string) (headers : list (string * string))
  : completion Server.FetchResponse :=
  Throw "Unable to connect".

(** An upstream whose project call answers 200 with an object where a
    list is expected. *)
Definition malformedFetch (url : string) (headers : list (string * string))
  : completion Server.FetchResponse :=
  if decide (url = "https://host/api/settings.getOpenApiDocument") then
    Return (Server.mkFetchResponse 200 "OK" (Return (VObj ∅)))
  else Return (Server.mkFetchResponse 200 "OK" (Return (VObj ∅))).

(** An upstream that answers the two requests of the handler as
    [healthyFetch] does, and no other request. *)
Definition twoRequestsFetch (url : string) (headers : list (string * string))
  : completion Server.FetchResponse :=
  if decide (url = "https://host/api/settings.getOpenApiDocument"
             ∨ url = "https://host/api/project.all")
  then healthyFetch url headers
  else Throw "not requested".

(** The message of a validation error, for the samples: the number of issues. *)
Definition countIssues (issues : list issue) : string :=
  pretty (length issues) +:+ " issue(s)".

(** * Theorems *)

#[local] Arguments String.append !_ _ / : simpl nomatch.

(** ** Truthiness *)

Lemma truthy_string_false (s : string) : truthy_string s = false ↔ s = "".
Proof. destruct s; simpl; split; congruence. Qed.

Lemma truthy_string_true (s : string) : truthy_string s = true ↔ s ≠ "".
Proof. destruct s; simpl; split; congruence. Qed.

(** ** [resolveDomainUrl] *)

(** C1. [resolveDomainUrl] returns null exactly when the domain is absent
    or its host is empty.  Otherwise it returns
    [scheme://host] followed by a port segment and a path segment, where
    the scheme is [https] when the https flag is [true] and [http]
    otherwise, the port segment is [:port], with the port as a template
    literal prints a number, when the port is a number other than zero
    (and than NaN, which validation rejects), and empty when the port is
    omitted, null or zero, and the path segment is the path when it is a
    string other than [/] and empty when it is omitted, null or [/]. *)
Theorem resolveDomainUrl_spec (Number_toString : number → string)
    (domain : option Domain.t) :
  (resolveDomainUrl Number_toString domain = None ↔
     domain = None ∨ ∃ d, domain = Some d ∧ Domain.host d = "") ∧
  (∀ d, domain = Some d → Domain.host d ≠ "" →
     ∃ scheme portSegment pathSegment,
       resolveDomainUrl Number_toString domain
         = Some (scheme +:+ "://" +:+ Domain.host d +:+ portSegment +:+ pathSegment) ∧
       (if decide (Domain.https d = Some true)
        then scheme = "https" else scheme = "http") ∧
       match Domain.port d with
       | Val (Zero _) | Val NaN => portSegment = ""
       | Val p => portSegment = ":" +:+ Number_toString p
       | Undefined | Null => portSegment = ""
       end ∧
       match Domain.path d with
       | Val s => if decide (s = "/") then pathSegment = "" else pathSegment = s
       | Undefined | Null => pathSegment = ""
       end).
Proof.
  split.
  - destruct domain as [d|]; simpl.
    + destruct (truthy_string (Domain.host d)) eqn:Hh; simpl.
      * apply truthy_string_true in Hh. split; [done|].
        intros [?|(d' & [= <-] & ?)]; done.
      * apply truthy_string_false in Hh. split; [|done]. eauto.
    + split; auto.
  - intros d -> Hhost. unfold resolveDomainUrl.
    apply truthy_string_true in Hhost as ->. cbn [negb].
    eexists _, _, _. split; [reflexivity|]. repeat split.
    + destruct (Domain.https d) as [[]|]; case_decide; congruence.
    + by destruct (Domain.port d) as [| |[| | |]].
    + destruct (Domain.path d) as [| |s]; try done.
      case_decide as Hs.
      * by rewrite Hs.
      * apply String.eqb_neq in Hs as ->. by destruct s.
Qed.

(** The examples of the specification, and ports that are not small
    integers: whatever the builtin prints for the number follows the
    colon. *)
Example resolveDomainUrl_full :
  resolveDomainUrl sampleNumberToString
    (Some (Domain.mk None "a.com" (Some true) (Val (integer 8080)) (Val "/x") Undefined))
  = Some "https://a.com:8080/x".
Proof. reflexivity. Qed.

Example resolveDomainUrl_host_only :
  resolveDomainUrl sampleNumberToString
    (Some (Domain.mk None "a.com" None Undefined Undefined Undefined))
  = Some "http://a.com".
Proof. reflexivity. Qed.

Example resolveDomainUrl_root_path :
  resolveDomainUrl sampleNumberToString
    (Some (Domain.mk None "a.com" None Undefined (Val "/") Undefined))
  = Some "http://a.com".
Proof. reflexivity. Qed.

Example resolveDomainUrl_large_port (Number_toString : number → string) :
  resolveDomainUrl Number_toString
    (Some (Domain.mk None "a.com" None (Val (Dyadic false (5 ^ 21) 21)) (Val "/x")
             Undefined))
  = Some ("http://a.com:" +:+ Number_toString (Dyadic false (5 ^ 21) 21) +:+ "/x") ∧
  resolveDomainUrl Number_toString
    (Some (Domain.mk None "a.com" None (Val (Dyadic false 3 (-1))) (Val "/x") Undefined))
  = Some ("http://a.com:" +:+ Number_toString (Dyadic false 3 (-1)) +:+ "/x") ∧
  resolveDomainUrl Number_toString
    (Some (Domain.mk None "a.com" None (Val (Zero true)) (Val "/x") Undefined))
  = Some "http://a.com/x".
Proof. repeat split; reflexivity. Qed.

Lemma resolveDomainUrl_spec_witness :
  ∃ scheme portSegment pathSegment,
    resolveDomainUrl sampleNumberToString
      (Some (Domain.mk None "a.com" (Some true) (Val (integer 8080)) (Val "/x") Undefined))
    = Some (scheme +:+ "://" +:+ "a.com" +:+ portSegment +:+ pathSegment) ∧
    scheme = "https" ∧ portSegment = ":8080" ∧ pathSegment = "/x".
Proof.
  destruct (proj2 (resolveDomainUrl_spec sampleNumberToString
    (Some (Domain.mk None "a.com" (Some true) (Val (integer 8080)) (Val "/x") Undefined)))
    _ eq_refl) as (scheme & portSegment & pathSegment & Hurl & Hs & Hport & Hpath).
  - discriminate.
  - exists scheme, portSegment, pathSegment. simpl in *.
    repeat split; done.
Defined.

(** ** The loops of [flattenProjects] *)

Lemma forEachFrom_push {A B : Type} (f : A → nat → list B → list B)
    (g : A → nat → list B) :
  (∀ x i s, f x i s = (s ++ g x i)%list) →
  ∀ l k s, forEachFrom f k l s = (s ++ mjoin (imap (λ i x, g x (k + i)) l))%list.
Proof.
  intros Hf l. induction l as [|x l IH]; intros k s; simpl.
  - by rewrite app_nil_r.
  - rewrite IH, Hf, <-app_assoc, Nat.add_0_r. do 3 f_equal.
    apply imap_ext. intros i y _. simpl. f_equal. lia.
Qed.

Lemma forEach_push {A B : Type} (f : A → nat → list B → list B)
    (g : A → nat → list B) :
  (∀ x i s, f x i s = (s ++ g x i)%list) →
  ∀ l s, forEach f l s = (s ++ mjoin (imap (λ i x, g x i) l))%list.
Proof. intros Hf l s. unfold forEach. by rewrite (forEachFrom_push f g Hf). Qed.

Lemma join_imap_const {A B} (g : A → list B) (l : list A) :
  mjoin (imap (λ _ x, g x) l) = l ≫= g.
Proof. induction l as [|x l IH]; simpl; [done|]. by f_equal. Qed.

Lemma join_imap_singleton {A B} (g : nat → A → B) (l : list A) :
  mjoin (imap (λ i x, [g i x]) l) = imap g l.
Proof.
  revert g. induction l as [|x l IH]; intros g; simpl; [done|]. f_equal. apply IH.
Qed.

(** The loops push the entries of each project, environment and
    category in turn. *)
Lemma collectEntries_flat (Number_toString : number → string) (projects : list Project.t) :
  collectEntries Number_toString projects = mjoin (imap (projectEntries Number_toString) projects).
Proof.
  unfold collectEntries.
  rewrite (forEach_push _ (λ project index, projectEntries Number_toString index project)); [done|].
  intros project index s.
  rewrite (forEach_push _ (λ environment _,
             sec ← resourceSections; sectionEntries Number_toString project index environment sec)).
  { unfold projectEntries. by rewrite join_imap_const. }
  intros environment _ s1.
  rewrite (forEach_push _ (λ sec _, sectionEntries Number_toString project index environment sec)).
  { by rewrite join_imap_const. }
  intros sec _ s2. unfold sectionEntries.
  destruct (environmentGet environment (key sec)) as [resources|].
  - rewrite (forEach_push _ (λ resource resIndex,
               [entryOf Number_toString project index environment sec resource resIndex])).
    + by rewrite join_imap_singleton.
    + done.
  - by rewrite app_nil_r.
Qed.

Lemma elem_of_collectEntries (Number_toString : number → string) (projects : list Project.t) (e : ResourceEntry.t) :
  e ∈ collectEntries Number_toString projects ↔
  ∃ index project environment sec resIndex resource,
    located projects index project environment sec resIndex resource ∧
    e = entryOf Number_toString project index environment sec resource resIndex.
Proof.
  rewrite collectEntries_flat, list_elem_of_join. split.
  - intros (l & He & Hl).
    apply elem_of_lookup_imap in Hl as (index & project & -> & Hp).
    unfold projectEntries in He.
    apply list_elem_of_bind in He as (environment & He & Henv).
    apply list_elem_of_bind in He as (sec & He & Hsec).
    unfold sectionEntries in He.
    destruct (environmentGet environment (key sec)) as [resources|] eqn:Hget;
      [|by apply elem_of_nil in He].
    apply elem_of_lookup_imap in He as (resIndex & resource & -> & Hr).
    exists index, project, environment, sec, resIndex, resource.
    split; [split; eauto|done].
  - intros (index & project & environment & sec & resIndex & resource
            & [Hp Henv Hsec (resources & Hget & Hr)] & ->).
    exists (projectEntries Number_toString index project). split.
    + unfold projectEntries. apply list_elem_of_bind. exists environment. split; [|done].
      apply list_elem_of_bind. exists sec. split; [|done].
      unfold sectionEntries. rewrite Hget.
      by apply (elem_of_lookup_imap_2
                  (λ resIndex resource,
                     entryOf Number_toString project index environment sec resource resIndex)).
    + by apply (elem_of_lookup_imap_2 (projectEntries Number_toString)).
Qed.

Lemma length_join_imap {A B} (f : nat → A → list B) (g : A → nat) (l : list A) :
  (∀ i x, length (f i x) = g x) →
  length (mjoin (imap f l)) = sum_list_with g l.
Proof.
  revert f. induction l as [|x l IH]; intros f Hf; simpl; [done|].
  rewrite length_app, Hf. f_equal. apply IH. intros i y. apply Hf.
Qed.

Lemma length_bind {A B} (f : A → list B) (l : list A) :
  length (l ≫= f) = sum_list_with (λ x, length (f x)) l.
Proof.
  induction l as [|x l IH]; [done|].
  by rewrite bind_cons, length_app, IH.
Qed.

Lemma sum_list_with_ext {A} (f g : A → nat) (l : list A) :
  (∀ x, x ∈ l → f x = g x) → sum_list_with f l = sum_list_with g l.
Proof.
  induction l as [|x l IH]; intros Hfg; simpl; [done|].
  rewrite Hfg, IH; [done| |]; [|apply list_elem_of_here].
  intros y Hy. apply Hfg. by apply list_elem_of_further.
Qed.

Lemma length_collectEntries (Number_toString : number → string) (projects : list Project.t) :
  length (collectEntries Number_toString projects) = resourceCount projects.
Proof.
  rewrite collectEntries_flat. apply length_join_imap. intros index project.
  unfold projectEntries. rewrite length_bind.
  apply sum_list_with_ext. intros environment _.   
  rewrite length_bind. apply sum_list_with_ext. intros sec _.
  unfold sectionEntries. destruct (environmentGet environment (key sec)); simpl; [|done].
  apply length_imap.
Qed.

(** ** The sort *)

Section SortFacts.
Context {A : Type} (compare : A → A → Z).

Lemma insertSorted_Permutation (x : A) (l : list A) :
  insertSorted compare x l ≡ₚ x :: l.
Proof.
  induction l as [|y l IH]; simpl; [done|].
  destruct (compare x y <=? 0)%Z; [done|].
  rewrite IH. apply Permutation_swap.
Qed.

Lemma sort_Permutation (l : list A) : sort compare l ≡ₚ l.
Proof.
  induction l as [|x l IH]; simpl; [done|].
  by rewrite insertSorted_Permutation, IH.
Qed.

Lemma elem_of_sort (x : A) (l : list A) : x ∈ sort compare l ↔ x ∈ l.
Proof. by rewrite sort_Permutation. Qed.

(** The result is sorted for every relation that the comparator decides
    on the elements of the list and that is transitive on them: [R x y]
    when [compare x y] is not positive, [R y x] when it is.  Such a
    comparator is a consistent comparator for the list, and on these the
    model and the builtin agree. *)
Section SortOrder.
Variable P : A → Prop.
Variable R : relation A.
Hypothesis R_trans : ∀ x y z, P x → P y → P z → R x y → R y z → R x z.
Hypothesis compare_le : ∀ x y, P x → P y → (compare x y ≤ 0)%Z → R x y.
Hypothesis compare_gt : ∀ x y, P x → P y → (0 < compare x y)%Z → R y x.

Lemma insertSorted_StronglySorted (x : A) (l : list A) :
  P x → Forall P l →
  StronglySorted R l → StronglySorted R (insertSorted compare x l).
Proof.
  intros Hx HP. induction 1 as [|y l Hl IH Hy]; simpl.
  - repeat constructor.
  - apply Forall_cons in HP as [HPy HPl].
    destruct (Z.leb_spec (compare x y) 0) as [Hxy|Hxy].
    + constructor; [by constructor|].
      constructor; [by apply compare_le|].
      rewrite Forall_forall in Hy, HPl. apply Forall_forall. intros z Hz.
      apply (R_trans x y z); auto.
    + constructor; [by apply IH|].
      rewrite insertSorted_Permutation. constructor; [|done].
      by apply compare_gt.
Qed.

Lemma sort_StronglySorted (l : list A) :
  Forall P l → StronglySorted R (sort compare l).
Proof.
  induction l as [|x l IH]; simpl; [constructor|].
  intros [Hx Hl]%Forall_cons.
  apply insertSorted_StronglySorted; [done| |by apply IH].
  by rewrite sort_Permutation.
Qed.
End SortOrder.

(** The sort is stable: elements that a transitive comparator ranks
    together keep the order they had in the input. *)
Section SortStability.
Hypothesis compare_trans :
  ∀ x y z, (compare x y ≤ 0)%Z → (compare y z ≤ 0)%Z → (compare x z ≤ 0)%Z.


End SortStability.
End SortFacts.

Lemma StronglySorted_lookup {A} (R : relation A) (l : list A) (i j : nat) (x y : A) :
  StronglySorted R l → l !! i = Some x → l !! j = Some y → i < j → R x y.
Proof.
  intros Hl. revert i j. induction Hl as [|z l Hl IH Hz]; intros i j Hi Hj Hij.
  - done.
  - destruct j as [|j]; [lia|]. destruct i as [|i]; simpl in *.
    + injection Hi as ->. rewrite Forall_forall in Hz.
      apply Hz. by eapply list_elem_of_lookup_2.
    + apply (IH i j); [done..|lia].
Qed.

Lemma elem_of_flattenProjects (Number_toString : number → string) (localeCompare : string → string → Z)
    (projects : list Project.t) (e : ResourceEntry.t) :
  e ∈ flattenProjects Number_toString localeCompare projects ↔
  ∃ index project environment sec resIndex resource,
    located projects index project environment sec resIndex resource ∧
    e = entryOf Number_toString project index environment sec resource resIndex.
Proof. unfold flattenProjects. by rewrite elem_of_sort, elem_of_collectEntries. Qed.

Lemma length_flattenProjects (Number_toString : number → string) (localeCompare : string → string → Z)
    (projects : list Project.t) :
  length (flattenProjects Number_toString localeCompare projects) = resourceCount projects.
Proof.
  unfold flattenProjects. by rewrite sort_Permutation, length_collectEntries.
Qed.

(** ** Order of the output *)

Section CompareEntries.
Variable localeCompare : string → string → Z.

(** The comparator under three assumptions on [localeCompare]: the signs
    of [a.localeCompare(b)] and [b.localeCompare(a)] are opposite, the
    order is transitive, and only identical strings compare equal. *)
Hypothesis localeCompare_antisym :
  ∀ a b, (localeCompare a b < 0)%Z ↔ (0 < localeCompare b a)%Z.
Hypothesis localeCompare_trans :
  ∀ a b c, (localeCompare a b ≤ 0)%Z → (localeCompare b c ≤ 0)%Z →
           (localeCompare a c ≤ 0)%Z.
Hypothesis localeCompare_eq : ∀ a b, localeCompare a b = 0%Z → a = b.

Lemma compareEntries_names (a b : ResourceEntry.t) :
  ResourceEntry.projectName a ≠ ResourceEntry.projectName b →
  compareEntries localeCompare a b
  = localeCompare (ResourceEntry.projectName a) (ResourceEntry.projectName b).
Proof. intros Hne. unfold compareEntries. by apply String.eqb_neq in Hne as ->. Qed.

Lemma compareEntries_titles (a b : ResourceEntry.t) :
  ResourceEntry.projectName a = ResourceEntry.projectName b →
  compareEntries localeCompare a b
  = localeCompare (ResourceEntry.title a) (ResourceEntry.title b).
Proof. intros Heq. unfold compareEntries. by apply String.eqb_eq in Heq as ->. Qed.

Lemma compareEntries_total (a b : ResourceEntry.t) :
  (0 < compareEntries localeCompare a b)%Z →
  (compareEntries localeCompare b a ≤ 0)%Z.
Proof.
  destruct (decide (ResourceEntry.projectName a = ResourceEntry.projectName b))
    as [Heq|Hne].
  - rewrite !compareEntries_titles by done. intros H%localeCompare_antisym. lia.
  - rewrite !compareEntries_names by done. intros H%localeCompare_antisym. lia.
Qed.



End CompareEntries.

(** The order on code units is such a total order. *)
Lemma codeUnitCompare_le (a b : string) :
  (codeUnitCompare a b ≤ 0)%Z ↔ String.le a b.
Proof.
  unfold codeUnitCompare, String.le. case_decide as Hab.
  - subst b. split; [|lia]. intros _. apply (reflexivity (R := String.le)).
  - destruct (String.leb a b); simpl; split; (lia || done).
Qed.

Lemma codeUnitCompare_antisym (a b : string) :
  (codeUnitCompare a b < 0)%Z ↔ (0 < codeUnitCompare b a)%Z.
Proof.
  unfold codeUnitCompare. repeat case_decide; try congruence; [lia|].
  destruct (String.leb a b) eqn:Hab, (String.leb b a) eqn:Hba; try lia.
  - exfalso. assert (a = b); [|done].
    apply (anti_symm String.le); unfold String.le; by rewrite ?Hab, ?Hba.
  - exfalso. destruct (total String.le a b) as [Hle|Hle]; unfold String.le in Hle;
      by rewrite ?Hab, ?Hba in Hle.
Qed.

Lemma codeUnitCompare_trans (a b c : string) :
  (codeUnitCompare a b ≤ 0)%Z → (codeUnitCompare b c ≤ 0)%Z →
  (codeUnitCompare a c ≤ 0)%Z.
Proof. rewrite !codeUnitCompare_le. apply transitivity. Qed.

Lemma codeUnitCompare_eq (a b : string) : codeUnitCompare a b = 0%Z → a = b.
Proof. unfold codeUnitCompare. case_decide; [done|]. by destruct (String.leb a b). Qed.

Section FlattenSorted.
Variable Number_toString : number → string.
Variable localeCompare : string → string → Z.

(** [localeCompare] is a consistent comparison of strings: the signs of
    [a.localeCompare(b)] and [b.localeCompare(a)] are opposite, and the
    order is transitive.  Different strings may compare equal. *)
Hypothesis localeCompare_antisym :
  ∀ a b, (localeCompare a b < 0)%Z ↔ (0 < localeCompare b a)%Z.
Hypothesis localeCompare_trans :
  ∀ a b c, (localeCompare a b ≤ 0)%Z → (localeCompare b c ≤ 0)%Z →
           (localeCompare a c ≤ 0)%Z.

(** On entries whose project names [localeCompare] tells apart, the
    comparator of the sort is transitive. *)
Lemma compareEntries_trans_on (P : ResourceEntry.t → Prop) :
  (∀ a b, P a → P b →
     localeCompare (ResourceEntry.projectName a) (ResourceEntry.projectName b) = 0%Z →
     ResourceEntry.projectName a = ResourceEntry.projectName b) →
  ∀ a b c, P a → P b → P c →
    (compareEntries localeCompare a b ≤ 0)%Z →
    (compareEntries localeCompare b c ≤ 0)%Z →
    (compareEntries localeCompare a c ≤ 0)%Z.
Proof.
  intros Hapart a b c Ha Hb Hc.
  destruct (decide (ResourceEntry.projectName a = ResourceEntry.projectName b))
    as [Hab|Hab],
    (decide (ResourceEntry.projectName b = ResourceEntry.projectName c))
    as [Hbc|Hbc].
  - rewrite !compareEntries_titles by congruence. apply localeCompare_trans.
  - rewrite (compareEntries_titles _ a b), !compareEntries_names by congruence.
    rewrite Hab. auto.
  - rewrite (compareEntries_titles _ b c), !compareEntries_names by congruence.
    rewrite Hbc. auto.
  - rewrite (compareEntries_names _ a b), (compareEntries_names _ b c) by done.
    intros H1 H2.
    destruct (decide (ResourceEntry.projectName a = ResourceEntry.projectName c))
      as [Hac|Hac].
    + rewrite Hac in H1. destruct Hbc. apply (Hapart b c Hb Hc).
      pose proof (localeCompare_antisym (ResourceEntry.projectName b)
                    (ResourceEntry.projectName c)). lia.
    + rewrite compareEntries_names by done. by eapply localeCompare_trans.
Qed.

(** C2. With [localeCompare] a consistent comparison of strings, and for
    an input such that [localeCompare] tells the project names of its
    entries apart (it returns 0 on two of them only when they are the
    same string), the output of [flattenProjects] is sorted by project
    name, then by title: of two entries with different project names, the
    one whose name is smaller comes first, whatever the order of the
    input; of two entries with the same project name, the earlier one has
    the title that is not greater; and the empty project list gives the
    empty list. *)
Theorem flattenProjects_sorted (projects : list Project.t) :
  (∀ a b,
     a ∈ flattenProjects Number_toString localeCompare projects →
     b ∈ flattenProjects Number_toString localeCompare projects →
     localeCompare (ResourceEntry.projectName a) (ResourceEntry.projectName b) = 0%Z →
     ResourceEntry.projectName a = ResourceEntry.projectName b) →
  (∀ i j a b,
     flattenProjects Number_toString localeCompare projects !! i = Some a →
     flattenProjects Number_toString localeCompare projects !! j = Some b →
     (ResourceEntry.projectName a ≠ ResourceEntry.projectName b →
      (localeCompare (ResourceEntry.projectName a) (ResourceEntry.projectName b) < 0)%Z →
      i < j) ∧
     (ResourceEntry.projectName a = ResourceEntry.projectName b →
      i < j →
      (localeCompare (ResourceEntry.title a) (ResourceEntry.title b) ≤ 0)%Z)) ∧
  flattenProjects Number_toString localeCompare [] = [].
Proof.
  intros Hapart. split; [|done].
  assert (StronglySorted (notAfter (compareEntries localeCompare))
            (flattenProjects Number_toString localeCompare projects)) as Hsorted.
  { unfold flattenProjects in *.
    apply (sort_StronglySorted _
             (λ e, e ∈ collectEntries Number_toString projects)).
    - apply compareEntries_trans_on. intros a b Ha Hb.
      apply Hapart; by apply elem_of_sort.
    - done.
    - intros a b _ _. by apply compareEntries_total.
    - by apply Forall_forall. }
  intros i j a b Ha Hb. split.
  - intros Hne Hlt. destruct (decide (i < j)) as [|Hge]; [done|]. exfalso.
    destruct (decide (i = j)) as [->|Hij]; [congruence|].
    pose proof (StronglySorted_lookup _ _ j i b a Hsorted Hb Ha ltac:(lia)) as Hba.
    unfold notAfter in Hba. rewrite compareEntries_names in Hba by done.
    apply localeCompare_antisym in Hlt. lia.
  - intros Heq Hij.
    pose proof (StronglySorted_lookup _ _ i j a b Hsorted Ha Hb Hij) as Hab.
    unfold notAfter in Hab. by rewrite compareEntries_titles in Hab.
Qed.
End FlattenSorted.

Lemma flattenProjects_sorted_witness :
  (∀ a b, (codeUnitCompare a b < 0)%Z ↔ (0 < codeUnitCompare b a)%Z) ∧
  (∀ a b c, (codeUnitCompare a b ≤ 0)%Z → (codeUnitCompare b c ≤ 0)%Z →
            (codeUnitCompare a c ≤ 0)%Z) ∧
  (∀ a b,
     a ∈ flattenProjects sampleNumberToString codeUnitCompare sampleProjects →
     b ∈ flattenProjects sampleNumberToString codeUnitCompare sampleProjects →
     codeUnitCompare (ResourceEntry.projectName a) (ResourceEntry.projectName b) = 0%Z →
     ResourceEntry.projectName a = ResourceEntry.projectName b) ∧
  ((∀ i j a b,
      flattenProjects sampleNumberToString codeUnitCompare sampleProjects !! i = Some a →
      flattenProjects sampleNumberToString codeUnitCompare sampleProjects !! j = Some b →
      (ResourceEntry.projectName a ≠ ResourceEntry.projectName b →
       (codeUnitCompare (ResourceEntry.projectName a) (ResourceEntry.projectName b) < 0)%Z →
       i < j) ∧
      (ResourceEntry.projectName a = ResourceEntry.projectName b →
       i < j →
       (codeUnitCompare (ResourceEntry.title a) (ResourceEntry.title b) ≤ 0)%Z)) ∧
   flattenProjects sampleNumberToString codeUnitCompare [] = []).
Proof.
  assert (∀ a b,
     a ∈ flattenProjects sampleNumberToString codeUnitCompare sampleProjects →
     b ∈ flattenProjects sampleNumberToString codeUnitCompare sampleProjects →
     codeUnitCompare (ResourceEntry.projectName a) (ResourceEntry.projectName b) = 0%Z →
     ResourceEntry.projectName a = ResourceEntry.projectName b) as Hapart.
  { intros a b _ _. apply codeUnitCompare_eq. }
  split; [exact codeUnitCompare_antisym|].
  split; [exact codeUnitCompare_trans|].
  split; [exact Hapart|].
  exact (flattenProjects_sorted sampleNumberToString codeUnitCompare
           codeUnitCompare_antisym codeUnitCompare_trans sampleProjects Hapart).
Defined.

(** [localeCompare] returns 0 on some strings that differ: the collation
    ignores the soft hyphen.  For three projects named [a], [a] with a
    soft hyphen and [a] again, the comparator of the sort ranks the first
    with the second and the second with the third, the sort leaves the
    three entries as they are, and the two entries of the projects named
    [a] stay in the order [z], [x] of their titles. *)
Lemma flattenProjects_soft_hyphen :
  (∀ a b, (ignoringSoftHyphens a b < 0)%Z ↔ (0 < ignoringSoftHyphens b a)%Z) ∧
  (∀ a b c, (ignoringSoftHyphens a b ≤ 0)%Z → (ignoringSoftHyphens b c ≤ 0)%Z →
            (ignoringSoftHyphens a c ≤ 0)%Z) ∧
  ignoringSoftHyphens "a" ("a" +:+ softHyphen) = 0%Z ∧
  (λ e, (ResourceEntry.projectName e, ResourceEntry.title e))
    <$> flattenProjects sampleNumberToString ignoringSoftHyphens softHyphenProjects
  = [("a", "z"); ("a" +:+ softHyphen, "y"); ("a", "x")] ∧
  (0 < ignoringSoftHyphens "z" "x")%Z.
Proof.
  split; [intros a b; apply codeUnitCompare_antisym|].
  split; [intros a b c; apply codeUnitCompare_trans|].
  split; [reflexivity|]. split; [|reflexivity].
  vm_compute. reflexivity.
Qed.


Example flattenProjects_sample :
  (λ e, (ResourceEntry.projectName e, ResourceEntry.title e))
    <$> flattenProjects sampleNumberToString codeUnitCompare sampleProjects
  = [("alpha", "db"); ("zeta", "api"); ("zeta", "web")].
Proof. vm_compute. reflexivity. Qed.

(** ** Identifiers *)

Lemma entryOf_id (Number_toString : number → string) project index environment sec resource resIndex :
  ResourceEntry.id (entryOf Number_toString project index environment sec resource resIndex)
  = expectedId project sec resIndex resource.
Proof.
  unfold expectedId, fallbackId, firstPresent. cbn [entryOf ResourceEntry.id].
  destruct (Resource.composeId resource), (Resource.applicationId resource),
    (Resource.databaseId resource), (Project.projectId project), (Project.name project);
    reflexivity.
Qed.

Lemma located_applications (project : Project.t) (environment : Environment.t)
    (resources : list Resource.t) (resIndex : nat) (resource : Resource.t) :
  Project.environments project = Some [environment] →
  Environment.applications environment = Some resources →
  resources !! resIndex = Some resource →
  located [project] 0 project environment (mkSection applications "Applications")
    resIndex resource.
Proof.
  intros Henvs Happs Hr. split.
  - done.
  - rewrite Henvs. apply list_elem_of_here.
  - apply list_elem_of_here.
  - by exists resources.
Qed.

(** C3. Every entry of the output comes from a resource of the input and
    carries as id the first of [composeId], [applicationId], [databaseId]
    that is present, and otherwise
    [{projectId ?? projectName}-{categoryKey}-{resIndex}]; every resource
    of the input has such an entry.  For one project with one environment
    whose applications are two resources without explicit ids, the two
    generated ids end in [-applications-0] and [-applications-1] and are
    distinct.  ([flattenProjects] is a function of its input, so the ids
    are determined by the input order.) *)
Theorem flattenProjects_id (Number_toString : number → string) (localeCompare : string → string → Z)
    (projects : list Project.t) :
  (∀ e, e ∈ flattenProjects Number_toString localeCompare projects →
     ∃ index project environment sec resIndex resource,
       located projects index project environment sec resIndex resource ∧
       ResourceEntry.id e = expectedId project sec resIndex resource) ∧
  (∀ index project environment sec resIndex resource,
     located projects index project environment sec resIndex resource →
     ∃ e, e ∈ flattenProjects Number_toString localeCompare projects ∧
          ResourceEntry.id e = expectedId project sec resIndex resource) ∧
  (∀ project environment r1 r2,
     projects = [project] →
     Project.environments project = Some [environment] →
     Environment.applications environment = Some [r1; r2] →
     noExplicitId r1 → noExplicitId r2 →
     ∃ e1 e2,
       e1 ∈ flattenProjects Number_toString localeCompare projects ∧
       e2 ∈ flattenProjects Number_toString localeCompare projects ∧
       ResourceEntry.id e1
         = coalesce (Project.projectId project)
             (coalesce (Project.name project) "Unnamed project")
           +:+ "-applications-0" ∧
       ResourceEntry.id e2
         = coalesce (Project.projectId project)
             (coalesce (Project.name project) "Unnamed project")
           +:+ "-applications-1" ∧
       ResourceEntry.id e1 ≠ ResourceEntry.id e2).
Proof.
  split; [|split].
  - intros e (index & project & environment & sec & resIndex & resource
              & Hloc & ->)%elem_of_flattenProjects.
    exists index, project, environment, sec, resIndex, resource.
    split; [done|apply entryOf_id].
  - intros index project environment sec resIndex resource Hloc.
    exists (entryOf Number_toString project index environment sec resource resIndex).
    split; [|apply entryOf_id].
    apply elem_of_flattenProjects.
    by exists index, project, environment, sec, resIndex, resource.
  - intros project environment r1 r2 -> Henvs Happs
      (Hc1 & Ha1 & Hd1) (Hc2 & Ha2 & Hd2).
    set (sec := mkSection applications "Applications").
    exists (entryOf Number_toString project 0 environment sec r1 0),
           (entryOf Number_toString project 0 environment sec r2 1).
    assert (∀ r i, [r1; r2] !! i = Some r →
              entryOf Number_toString project 0 environment sec r i
              ∈ flattenProjects Number_toString localeCompare [project]) as Hin.
    { intros r i Hr. apply elem_of_flattenProjects.
      exists 0, project, environment, sec, i, r.
      split; [|done]. by eapply located_applications. }
    split; [by apply Hin|]. split; [by apply Hin|].
    cbn [entryOf ResourceEntry.id]. rewrite Hc1, Ha1, Hd1, Hc2, Ha2, Hd2. 
    cbn [coalesce key sec keyName].
    split; [|split].
    + by destruct (Project.projectId project), (Project.name project).
    + by destruct (Project.projectId project), (Project.name project).
    + change "-applications-0" with ("-applications-" +:+ "0").
     intros H. by apply (inj (String.app _)) in H.
Qed.

Lemma flattenProjects_id_witness :
  ∃ e1 e2,
    e1 ∈ flattenProjects sampleNumberToString codeUnitCompare [twoApplicationsProject] ∧
    e2 ∈ flattenProjects sampleNumberToString codeUnitCompare [twoApplicationsProject] ∧
    ResourceEntry.id e1 = "shop-applications-0" ∧
    ResourceEntry.id e2 = "shop-applications-1" ∧
    ResourceEntry.id e1 ≠ ResourceEntry.id e2.
Proof.
  apply (proj2 (proj2 (flattenProjects_id sampleNumberToString codeUnitCompare [twoApplicationsProject]))
           twoApplicationsProject twoApplicationsEnvironment
           anonymousResource anonymousResource);
    repeat split; reflexivity.
Defined.

(** ** URLs *)

Lemma filterNonEmptyStrings_resolved (Number_toString : number → string) (ds : list Domain.t) :
  resolvedUrls Number_toString ds
    (filterNonEmptyStrings (map (λ domain, resolveDomainUrl Number_toString (Some domain)) ds)).
Proof.
  induction ds as [|d ds IH]; cbn [map filterNonEmptyStrings]; [constructor|].
  destruct (resolveDomainUrl Number_toString (Some d)) as [u|] eqn:Hu.
  - destruct u as [|c u].
    + cbn. apply resolved_drop; auto.
    + cbn. by apply resolved_keep.
  - apply resolved_drop; auto.
Qed.

(** C7. Every resource of the input has its entry in the output, and the
    output has as many entries as the input has resources.  The [urls] of
    the entry are the resource's domains resolved by [resolveDomainUrl] in
    source order, without the nulls and the empty strings; they are the
    empty list when [domains] is omitted, null or empty. *)
Theorem flattenProjects_urls (Number_toString : number → string) (localeCompare : string → string → Z)
    (projects : list Project.t) :
  length (flattenProjects Number_toString localeCompare projects) = resourceCount projects ∧
  ∀ index project environment sec resIndex resource,
    located projects index project environment sec resIndex resource →
    ∃ e, e ∈ flattenProjects Number_toString localeCompare projects ∧
         e = entryOf Number_toString project index environment sec resource resIndex ∧
         ResourceEntry.id e = expectedId project sec resIndex resource ∧
         resolvedUrls Number_toString (nullish (Resource.domains resource) []) (ResourceEntry.urls e) ∧
         (Resource.domains resource = Undefined ∨
          Resource.domains resource = Null ∨
          Resource.domains resource = Val [] →
          ResourceEntry.urls e = []).
Proof.
  split; [apply length_flattenProjects|].
  intros index project environment sec resIndex resource Hloc.
  exists (entryOf Number_toString project index environment sec resource resIndex).
  split; [|split; [done|split; [apply entryOf_id|split]]].
  - apply elem_of_flattenProjects.
    by exists index, project, environment, sec, resIndex, resource.
  - apply filterNonEmptyStrings_resolved.
  - cbn [entryOf ResourceEntry.urls]. unfold resourceUrls.
    by intros [->|[->| ->]].
Qed.

Lemma flattenProjects_urls_witness :
  ∃ e, e ∈ flattenProjects sampleNumberToString codeUnitCompare [twoApplicationsProject] ∧
       ResourceEntry.id e = "shop-applications-1" ∧
       ResourceEntry.urls e = [].
Proof.
  destruct (proj2 (flattenProjects_urls sampleNumberToString codeUnitCompare [twoApplicationsProject])
              0 twoApplicationsProject twoApplicationsEnvironment
              (mkSection applications "Applications") 1 anonymousResource)
    as (e & Hin & He & Hid & Hresolved & Hurls).
  - by apply (located_applications _ _ [anonymousResource; anonymousResource]).
  - exists e. split; [done|]. split; [by rewrite Hid|]. apply Hurls. by left.
Defined.

(** ** Colliding identifiers *)

(** C10. The ids of the output need not be unique: for the project
    without [projectId] whose two environments each hold one application
    without explicit ids, the output has two distinct entries, at two
    positions, with the same id. *)
Theorem flattenProjects_id_collision (Number_toString : number → string) (localeCompare : string → string → Z) :
  ∃ i j e1 e2,
    i ≠ j ∧
    flattenProjects Number_toString localeCompare [twoEnvironmentsProject] !! i = Some e1 ∧
    flattenProjects Number_toString localeCompare [twoEnvironmentsProject] !! j = Some e2 ∧
    e1 ≠ e2 ∧
    ResourceEntry.id e1 = ResourceEntry.id e2.
Proof.
  set (sec := mkSection applications "Applications").
  set (e1 := entryOf Number_toString twoEnvironmentsProject 0 stagingEnvironment sec anonymousResource 0).
  set (e2 := entryOf Number_toString twoEnvironmentsProject 0 productionEnvironment sec anonymousResource 0).
  assert (e1 ∈ flattenProjects Number_toString localeCompare [twoEnvironmentsProject]) as H1.
  { apply elem_of_flattenProjects.
    exists 0, twoEnvironmentsProject, stagingEnvironment, sec, 0, anonymousResource.
    split; [|done]. split; [done|apply list_elem_of_here|apply list_elem_of_here|].
    by exists [anonymousResource]. }
  assert (e2 ∈ flattenProjects Number_toString localeCompare [twoEnvironmentsProject]) as H2.
  { apply elem_of_flattenProjects.
    exists 0, twoEnvironmentsProject, productionEnvironment, sec, 0, anonymousResource.
    split; [|done]. split; [done| |apply list_elem_of_here|].
    - apply list_elem_of_further, list_elem_of_here.
    - by exists [anonymousResource]. }
  apply list_elem_of_lookup_1 in H1 as [i Hi], H2 as [j Hj].
  exists i, j, e1, e2. split; [|done].
  intros ->. rewrite Hi in Hj. discriminate Hj.
Qed.

Example flattenProjects_collision_ids :
  ResourceEntry.id <$> flattenProjects sampleNumberToString codeUnitCompare [twoEnvironmentsProject]
  = ["shop-applications-0"; "shop-applications-0"].
Proof. vm_compute. reflexivity. Qed.

(** ** Pins *)

Lemma filter_ne_not_elem_of (entryId : string) (l : list string) :
  entryId ∉ l → filter (λ key, key ≠ entryId) l = l.
Proof.
  induction l as [|x l IH]; [done|].
  rewrite not_elem_of_cons. intros [Hne Hl].
  rewrite filter_cons_True by done. by rewrite IH.
Qed.

(** C8. For an id that is not pinned, [togglePin] appends it, and a
    second [togglePin] restores the pin set exactly; so the pinned and the
    regular entries are again what they were. *)
Theorem togglePin_roundtrip (entryId : string) (prev : list string) :
  entryId ∉ prev →
  togglePin entryId prev = (prev ++ [entryId])%list ∧
  togglePin entryId (togglePin entryId prev) = prev ∧
  ∀ entries,
    pinnedEntries entries (togglePin entryId (togglePin entryId prev))
    = pinnedEntries entries prev ∧
    regularEntries entries (togglePin entryId (togglePin entryId prev))
    = regularEntries entries prev.
Proof.
  intros Hnot.
  assert (togglePin entryId prev = (prev ++ [entryId])%list) as Hpin.
  { unfold togglePin. by rewrite decide_False. }
  assert (togglePin entryId (togglePin entryId prev) = prev) as Hunpin.
  { rewrite Hpin. unfold togglePin.
    rewrite decide_True by (apply elem_of_app; right; apply list_elem_of_here).
    rewrite filter_app, filter_ne_not_elem_of by done.
    rewrite filter_cons_False by (intros H; by apply H).
    by rewrite filter_nil, app_nil_r. }
  split; [done|]. split; [done|]. intros entries. by rewrite Hunpin.
Qed.

Lemma togglePin_roundtrip_witness :
  ("c" ∉ ["a"; "b"]) ∧
  togglePin "c" ["a"; "b"] = ["a"; "b"; "c"] ∧
  togglePin "c" (togglePin "c" ["a"; "b"]) = ["a"; "b"].
Proof.
  assert ("c" ∉ ["a"; "b"]) as Hnot.
  { apply (bool_decide_unpack _). vm_compute. exact I. }
  split; [exact Hnot|].
  destruct (togglePin_roundtrip "c" ["a"; "b"] Hnot) as (Hpin & Hunpin & _).
  split; [exact Hpin|exact Hunpin].
Defined.

(** C9. Restoring the pin set never throws.  When the stored text is not
    valid JSON ([JSON.parse] throws), or parses to a value that is not an
    array, the result is the empty pin set. *)
Theorem initialPinnedResources_safe (JSON_parse : string → completion value)
    (window : option (completion (gmap string string))) :
  (∃ pins, initialPinnedResources JSON_parse window = Return pins) ∧
  (∀ store stored,
     window = Some (Return store) →
     store !! PIN_STORAGE_KEY = Some stored →
     (∀ e, JSON_parse stored = Throw e →
        initialPinnedResources JSON_parse window = Return []) ∧
     (∀ v, JSON_parse stored = Return v → (∀ items, v ≠ VArr items) →
        initialPinnedResources JSON_parse window = Return [])).
Proof.
  split.
  - destruct window as [[store|e]|]; cbn; eauto.
    destruct (store !! PIN_STORAGE_KEY) as [stored|]; cbn; eauto.
    destruct (truthy_string stored); cbn; eauto.
    destruct (JSON_parse stored); cbn; eauto.
  - intros store stored -> Hstored. cbn. rewrite Hstored.
    split.
    + intros e He. destruct (truthy_string stored); cbn; [|done]. by rewrite He.
    + intros v Hv Hnot. destruct (truthy_string stored); cbn; [|done].
      rewrite Hv. cbn. destruct v; try done. by destruct (Hnot l).
Qed.

Lemma initialPinnedResources_safe_witness :
  initialPinnedResources sampleParse
    (Some (Return {[ PIN_STORAGE_KEY := "not json" ]})) = Return [] ∧
  initialPinnedResources sampleParse
    (Some (Return {[ PIN_STORAGE_KEY := "{}" ]})) = Return [].
Proof.
  split.
  - destruct (proj2 (initialPinnedResources_safe sampleParse
                       (Some (Return {[ PIN_STORAGE_KEY := "not json" ]})))
                {[ PIN_STORAGE_KEY := "not json" ]} "not json" eq_refl
                (lookup_singleton_eq _ _)) as [Hthrow _].
    by apply (Hthrow "Unexpected token").
  - destruct (proj2 (initialPinnedResources_safe sampleParse
                       (Some (Return {[ PIN_STORAGE_KEY := "{}" ]})))
                {[ PIN_STORAGE_KEY := "{}" ]} "{}" eq_refl
                (lookup_singleton_eq _ _)) as [_ Hother].
    by apply (Hother (VObj ∅)).
Defined.

Example initialPinnedResources_strings_only :
  initialPinnedResources (λ _, Return (VArr [VStr "a"; VNum 1; VStr "b"; VNull]))
    (Some (Return {[ PIN_STORAGE_KEY := "stored" ]}))
  = Return ["a"; "b"].
Proof. vm_compute. reflexivity. Qed.

(** ** Validation *)

Lemma foldl_setParsed_other (data : gmap string value)
    (results : list (string * outcome)) (acc : gmap string value) (k : string) :
  k ∉ results.*1 → foldl (setParsed data) acc results !! k = acc !! k.
Proof.
  revert acc. induction results as [|[k' o] results IH]; intros acc Hk; simpl; [done|].
  rewrite fmap_cons, not_elem_of_cons in Hk. destruct Hk as [Hne Hk].
  rewrite IH by done. unfold setParsed. simpl in *.
  destruct o as [v|]; [|done].
  destruct v, (data !! k'); try done; by rewrite lookup_insert_ne.
Qed.

Lemma extraKeys_lookup (mode : unknownKeys) (keys : list string)
    (data : gmap string value) (k : string) :
  k ∉ keys →
  extraKeys mode keys data !! k
  = match mode with Passthrough => data !! k | Strip => None end.
Proof.
  intros Hk. destruct mode; simpl; [done|].
  destruct (data !! k) as [v|] eqn:Hv.
  - by apply map_lookup_filter_Some.
  - apply map_lookup_filter_None. by left.
Qed.

Lemma results_keys {B} (shape : list (string * schema)) (f : string * schema → B) :
  ((λ fld, (fld.1, f fld)) <$> shape).*1 = shape.*1.
Proof. by rewrite <-list_fmap_compose. Qed.

(** What an object schema does with the properties its shape does not name. *)
Lemma parseAt_object_extra (shape : list (string * schema)) (mode : unknownKeys)
    (p : list pathItem) (data : gmap string value) (v : value) :
  parseAt (ZObject shape mode) p (VObj data) = Valid v →
  ∃ out, v = VObj out ∧
    ∀ k, k ∉ shape.*1 →
      out !! k = match mode with Passthrough => data !! k | Strip => None end.
Proof.
  simpl. unfold mergeObject. case_match; [|done]. intros [= <-].
  eexists. split; [done|]. intros k Hk.
  rewrite foldl_setParsed_other, extraKeys_lookup; rewrite ?results_keys; done.
Qed.

(** An object with a rejected property is rejected. *)
Lemma parseAt_object_invalid (shape : list (string * schema)) (mode : unknownKeys)
    (p : list pathItem) (data : gmap string value) (k : string) (s : schema) :
  (k, s) ∈ shape →
  isValid (parseAt s (p ++ [Key k]) (getProp data k)) = false →
  isValid (parseAt (ZObject shape mode) p (VObj data)) = false.
Proof.
  intros Hin Hbad. simpl. unfold mergeObject.
  case_match eqn:Hall; [|done].
  rewrite forallb_forall in Hall.
  specialize (Hall (k, parseAt s (p ++ [Key k]) (getProp data k))).
  simpl in Hall. rewrite Hall in Hbad; [done|].
  apply list_elem_of_In, list_elem_of_fmap. by exists (k, s).
Qed.

Lemma passthrough_retainsExtraFields (shape : list (string * schema)) :
  retainsExtraFields (ZObject shape Passthrough).
Proof. intros data v Hv. by apply parseAt_object_extra in Hv. Qed.

Lemma strip_dropsExtraFields (shape : list (string * schema)) :
  dropsExtraFields (ZObject shape Strip).
Proof. intros data v Hv. by apply parseAt_object_extra in Hv. Qed.

Lemma object_rejectsBadFields (shape : list (string * schema)) (mode : unknownKeys) :
  rejectsBadFields (ZObject shape mode).
Proof. intros k s data Hin Hbad. by apply (parseAt_object_invalid _ _ [] _ k s). Qed.

(** C6, as the code has it.  The schemas of domains, resources,
    environments, projects and the OpenAPI document keep the properties
    they do not name; the schema of the response envelope drops them.  All
    six reject an object one of whose declared properties is rejected, a
    missing required property included; the required properties are
    [host] of a domain and [projects] and [meta] of the envelope. *)
Theorem validation_layer :
  (∀ s, s ∈ passthroughSchemas → retainsExtraFields s) ∧
  dropsExtraFields configResponseSchema ∧
  (∀ s, s ∈ layerSchemas → rejectsBadFields s) ∧
  requiredKeys <$> layerSchemas = [["host"]; []; []; []; []; ["projects"; "meta"]].
Proof.
  split; [|split; [|split]].
  - intros s Hs. unfold passthroughSchemas in Hs.
    repeat (apply elem_of_cons in Hs as [->|Hs];
            [apply passthrough_retainsExtraFields|]).
    by apply elem_of_nil in Hs.
  - apply strip_dropsExtraFields.
  - intros s Hs. unfold layerSchemas, passthroughSchemas in Hs. simpl in Hs.
    repeat (apply elem_of_cons in Hs as [->|Hs];
            [apply object_rejectsBadFields|]).
    by apply elem_of_nil in Hs.
  - vm_compute. reflexivity.
Qed.

Lemma validation_layer_witness :
  (∃ out, safeParse domainSchema (VObj domainWithExtra) = Valid (VObj out) ∧
          out !! "certificateType" = Some (VStr "letsencrypt")) ∧
  isValid (safeParse domainSchema (VObj domainWithoutHost)) = false.
Proof.
  destruct validation_layer as (Hkeep & _ & Hreject & _).
  split.
  - destruct (safeParse domainSchema (VObj domainWithExtra)) as [v|] eqn:Hv;
      [|vm_compute in Hv; discriminate Hv].
    destruct (Hkeep domainSchema ltac:(apply list_elem_of_here) _ _ Hv)
      as (out & -> & Hout).
    exists out. split; [done|]. rewrite Hout; [by vm_compute|].
    apply (bool_decide_unpack _). vm_compute. exact I.
  - apply (Hreject domainSchema ltac:(apply list_elem_of_here) "host" (ZString 1)).
    + apply list_elem_of_further, list_elem_of_here.
    + by vm_compute.
Defined.

(** The envelope schema does not keep the properties it does not name. *)
Lemma configResponseSchema_drops_extra :
  ¬ retainsExtraFields configResponseSchema.
Proof.
  intros Hretains.
  destruct (safeParse configResponseSchema (VObj envelopeWithExtra)) as [v|] eqn:Hv;
    [|vm_compute in Hv; discriminate Hv].
  assert ("extra" ∉ shapeKeys configResponseSchema) as Hextra.
  { apply (bool_decide_unpack _). vm_compute. exact I. }
  destruct (Hretains _ _ Hv) as (out & -> & Hout).
  destruct (strip_dropsExtraFields _ _ _ Hv) as (out' & [= <-] & Hout').
  specialize (Hout _ Hextra). specialize (Hout' _ Hextra).
  rewrite Hout' in Hout. vm_compute in Hout. discriminate Hout.
Qed.

(** ** Base-URL normalisation *)

Lemma trimStart_spec (s : string) :
  ∃ pre, s = pre +:+ trimStart s ∧ allWhiteSpace pre = true ∧
         ∀ c r, trimStart s = String c r → isWhiteSpace c = false.
Proof.
  induction s as [|c s (pre & Hs & Hpre & Hhead)]; simpl.
  - by exists "".
  - destruct (isWhiteSpace c) eqn:Hc.
    + exists (String c pre). simpl. rewrite Hc, Hpre, <-Hs. done.
    + exists "". simpl. split; [done|]. split; [done|]. by intros c' r [= <- _].
Qed.

Lemma trimEnd_spec (s : string) :
  ∃ post, s = trimEnd s +:+ post ∧ allWhiteSpace post = true ∧
          (∀ c r, trimEnd s = r +:+ String c "" → isWhiteSpace c = false) ∧
          (∀ c r, trimEnd s = String c r → ∃ r', s = String c r').
Proof.
  induction s as [|c s (post & Hs & Hpost & Hlast & Hfirst)]; simpl.
  - exists "". repeat split; try done. intros c [|??]; done.
  - destruct (trimEnd s) as [|c' t] eqn:Ht; [destruct (isWhiteSpace c) eqn:Hc|].
    + exists (String c post). simpl in *. rewrite Hc, Hpost, <-Hs.
      repeat split; done.
    + exists post. simpl in Hs. subst post.
      split; [done|]. split; [done|]. split.
      * intros c0 [|c1 r]; simpl.
        -- by intros [= <-].
        -- intros [= _ H]. by destruct r.
      * intros c0 r [= <- _]. eauto.
    + exists post. simpl in Hs. rewrite Hs.
      split; [done|]. split; [done|]. split.
      * intros c0 [|c1 r]; simpl.
        -- by intros [= _ H].
        -- intros [= _ H]. by apply (Hlast c0 r).
      * intros c0 r [= <- _]. eauto.
Qed.

Lemma trim_spec (s : string) :
  ∃ pre post, s = pre +:+ trim s +:+ post ∧
    allWhiteSpace pre = true ∧ allWhiteSpace post = true ∧ isTrimmed (trim s).
Proof.
  destruct (trimStart_spec s) as (pre & Hs & Hpre & Hhead).
  destruct (trimEnd_spec (trimStart s)) as (post & Ht & Hpost & Hlast & Hfirst).
  exists pre, post. unfold trim. rewrite <-Ht, <-Hs. repeat split; try done.
  intros c r H. destruct (Hfirst c r H) as [r' Hr']. by apply (Hhead c r').
Qed.

Lemma stripTrailingSlash_spec (t : string) : oneSlashStripped t (stripTrailingSlash t).
Proof.
  unfold oneSlashStripped. induction t as [|c t IH]; simpl.
  - right. split; [|done]. by intros [|??].
  - destruct t as [|c' t].
    + destruct (Ascii.eqb_spec c "/"%char) as [->|Hc]; [by left|].
      right. split; [|done]. intros [|c1 r]; simpl.
      * by intros [= ?].
      * intros [= _ H]. by destruct r.
    + destruct IH as [IH|[IH1 IH2]].
      * left. simpl in *. by rewrite <-IH.
      * right. rewrite IH2. split; [|done].
        intros [|c1 r]; simpl; [done|]. intros [= _ H]. by apply (IH1 r).
Qed.

Lemma apiSegmentHere_spec (s : string) :
  apiSegmentHere s = true ↔
  ∃ post, s = "/api" +:+ post ∧ (post = "" ∨ ∃ post', post = "/" +:+ post').
Proof.
  split.
  - destruct s as [|c1 [|c2 [|c3 [|c4 rest]]]]; simpl; try done.
    rewrite !andb_true_iff, !Ascii.eqb_eq. intros [[[[-> ->] ->] ->] Hrest].
    exists rest. split; [done|].
    destruct rest as [|c rest]; [by left|].
    apply Ascii.eqb_eq in Hrest as ->. right. by exists rest.
  - by intros (post & -> & [->|(post' & ->)]).
Qed.

Lemma testApiSegment_spec (s : string) :
  testApiSegment s = true ↔ containsApiSegment s.
Proof.
  unfold containsApiSegment. induction s as [|c s IH].
  - simpl. split; [done|]. by intros ([|??] & post & H & _).
  - cbn [testApiSegment]. rewrite orb_true_iff, apiSegmentHere_spec, IH. split.
    + intros [(post & Hs & Hpost)|(pre & post & Hs & Hpost)].
      * by exists "", post.
      * exists (String c pre), post. simpl. by rewrite Hs.
    + intros ([|c' pre] & post & Hs & Hpost).
      * left. by exists post.
      * right. simpl in Hs. injection Hs as _ Hs. by exists pre, post.
Qed.

(** ** The handler *)

Section HandlerFacts.
Variable zodMessage : list issue → string.
Variable fetch : string → list (string * string) → completion Server.FetchResponse.
Variable secondRejectsFirst : bool.
Variable now : string.

Lemma configHandler_missing_base (DOKPLOY_BASE_URL DOKPLOY_API_KEY : option string) :
  sanitizeBaseUrl (coalesce DOKPLOY_BASE_URL "") = None →
  Server.configHandler zodMessage fetch secondRejectsFirst now
    DOKPLOY_BASE_URL DOKPLOY_API_KEY
  = Return (Server.errorResponse "Missing DOKPLOY_BASE_URL environment variable.").
Proof. intros Hbase. unfold Server.configHandler. by rewrite Hbase. Qed.

(** A base URL that is not null is not empty. *)
Lemma sanitizeBaseUrl_truthy (input base : string) :
  sanitizeBaseUrl input = Some base → truthy_string base = true.
Proof.
  unfold sanitizeBaseUrl. destruct (truthy_string (trim input)); [|done].
  cbn [negb]. intros [= <-].
  destruct (stripTrailingSlash (trim input)) as [|c n]; [done|].
  by destruct (testApiSegment (String c n)).
Qed.

Lemma configHandler_headers (DOKPLOY_API_KEY : option string) :
  ("Accept", "application/json")
    :: (if truthy_string (coalesce DOKPLOY_API_KEY "")
        then [("x-api-key", coalesce DOKPLOY_API_KEY "")] else [])
  = requestHeaders DOKPLOY_API_KEY.
Proof.
  destruct DOKPLOY_API_KEY as [credential|]; [|done]. simpl.
  case_decide as Hc; [by rewrite Hc|]. by apply truthy_string_true in Hc as ->.
Qed.

(** C4. When the base URL is configured and both requests are
    answered, a non-success status of either answer makes the handler
    answer 500 with a body that holds only an [error] message; the
    message names the OpenAPI call with its status and status text when
    that call failed, and the projects call with its status and status
    text when only that one failed. *)
Theorem configHandler_upstream_failure
    (DOKPLOY_BASE_URL DOKPLOY_API_KEY : option string) (base : string)
    (openApiResponse projectsResponse : Server.FetchResponse) :
  sanitizeBaseUrl (coalesce DOKPLOY_BASE_URL "") = Some base →
  fetch (base +:+ "/settings.getOpenApiDocument") (requestHeaders DOKPLOY_API_KEY)
    = Return openApiResponse →
  fetch (base +:+ "/project.all") (requestHeaders DOKPLOY_API_KEY)
    = Return projectsResponse →
  Server.ok openApiResponse = false ∨ Server.ok projectsResponse = false →
  ∃ message,
    Server.configHandler zodMessage fetch secondRejectsFirst now
      DOKPLOY_BASE_URL DOKPLOY_API_KEY
    = Return (Server.mkHttpResponse 500 (VObj {[ "error" := VStr message ]}) []) ∧
    message
    = if Server.ok openApiResponse then
        "Unable to load Dokploy projects ("
          +:+ pretty (Server.status projectsResponse) +:+ " "
          +:+ Server.statusText projectsResponse +:+ ")"
      else
        "Unable to load Dokploy OpenAPI document ("
          +:+ pretty (Server.status openApiResponse) +:+ " "
          +:+ Server.statusText openApiResponse +:+ ")".
Proof.
  intros Hbase HopenApi Hprojects Hfailed.
  eexists. split; [|reflexivity].
  unfold Server.configHandler. rewrite Hbase. cbv zeta.
  rewrite (sanitizeBaseUrl_truthy _ _ Hbase). cbn [negb].
  rewrite configHandler_headers, HopenApi, Hprojects. cbn.
  destruct (Server.ok openApiResponse); cbn; [|done].
  destruct Hfailed as [?| ->]; done.
Qed.
End HandlerFacts.

Lemma configHandler_upstream_failure_witness :
  sanitizeBaseUrl "https://host/" = Some "https://host/api" ∧
  Server.configHandler (λ _, "invalid") sampleFetch false "2024-01-01T00:00:00.000Z"
    (Some "https://host/") None
  = Return
      (Server.mkHttpResponse 500
         (VObj {[ "error" :=
                    VStr "Unable to load Dokploy OpenAPI document (503 Service Unavailable)" ]})
         []).
Proof.
  split; [reflexivity|].
  destruct (configHandler_upstream_failure (λ _, "invalid") sampleFetch false
              "2024-01-01T00:00:00.000Z" (Some "https://host/") None
              "https://host/api"
              (Server.mkFetchResponse 503 "Service Unavailable" (Throw "no body"))
              (Server.mkFetchResponse 200 "OK" (Return (VArr []))))
    as (message & Hresponse & Hmessage).
  - reflexivity.
  - reflexivity.
  - reflexivity.
  - by left.
  - rewrite Hresponse, Hmessage. reflexivity.
Defined.

(** When both calls succeed the handler answers 200 with the envelope;
    the unnamed property of the project is still there. *)
Example configHandler_success :
  Server.configHandler (λ _, "invalid") healthyFetch false "2024-01-01T00:00:00.000Z"
    (Some "https://host/") (Some "secret")
  = Return
      (Server.mkHttpResponse 200
         (VObj
            (list_to_map
               [ ("projects",
                  VArr
                    [VObj
                       (list_to_map
                          [ ("name", VStr "shop"); ("organizationId", VStr "o1") ])]);
                 ("meta",
                  VObj
                    (list_to_map
                       [ ("title", VStr "Dokploy");
                         ("version", VUndefined);
                         ("description", VUndefined);
                         ("servers", VArr [VStr "https://host"]);
                         ("fetchedAt", VStr "2024-01-01T00:00:00.000Z") ])) ]))
         [("cache-control", "no-store")]).
Proof. vm_compute. reflexivity. Qed.

(** The test for [/api] in terms of the pieces between slashes: some
    piece after the first slash is [api]. *)
Lemma head_splitOn (sep : Ascii.ascii) (s : string) :
  head (splitOn sep s) = Some (before sep s).
Proof.
  induction s as [|c s IH]; [done|]. simpl.
  destruct (Ascii.eqb c sep); [done|].
  destruct (splitOn sep s); simpl in *; congruence.
Qed.

Lemma before_inv (sep : Ascii.ascii) (s p : string) :
  before sep s = p → s = p ∨ ∃ rest, s = p +:+ String sep rest.
Proof.
  revert p. induction s as [|c s IH]; intros p; simpl.
  - intros <-. by left.
  - destruct (Ascii.eqb_spec c sep) as [->|Hc].
    + intros <-. right. by exists s.
    + intros <-. destruct (IH _ eq_refl) as [Hs|[rest Hs]].
      * left. by rewrite <-Hs.
      * right. exists rest. simpl. by rewrite <-Hs.
Qed.

Lemma head_splitOn_api (s : string) :
  head (splitOn "/"%char s) = Some "api" ↔
  apiSegmentHere (String "/"%char s) = true.
Proof.
  rewrite head_splitOn, apiSegmentHere_spec. split.
  - intros [= [->|[rest ->]]%before_inv].
    + exists "". split; [done|by left].
    + exists (String "/"%char rest). split; [done|]. right. by exists rest.
  - intros (post & [= ->] & [->|[post' ->]]); done.
Qed.

Lemma testApiSegment_pieces (s : string) :
  testApiSegment s = true ↔ "api" ∈ drop 1 (splitOn "/"%char s).
Proof.
  induction s as [|c s IH].
  - simpl. split; [done|]. by intros ?%elem_of_nil.
  - cbn [testApiSegment splitOn]. rewrite orb_true_iff, IH.
    pose proof (head_splitOn "/"%char s) as Hhead.
    destruct (Ascii.eqb_spec c "/"%char) as [->|Hc].
    + rewrite <-head_splitOn_api.
      destruct (splitOn "/"%char s) as [|piece pieces]; [done|].
      cbn [drop head]. rewrite elem_of_cons. split.
      * intros [[= ->]|?]; auto.
      * intros [<-|?]; auto.
    + assert (apiSegmentHere (String c s) = false) as ->.
      { destruct s as [|? [|? [|? ?]]]; simpl; try done;
          by apply Ascii.eqb_neq in Hc as ->. }
      destruct (splitOn "/"%char s) as [|piece pieces]; [done|].
      cbn [drop]. split; [by intros [?|?]|auto].
Qed.

(** C5. [sanitizeBaseUrl] trims the white space around its input.  When
    nothing is left the result is null, and the handler answers with the
    configuration error, as it does when the variable is not set.
    Otherwise one trailing slash is removed, when there is one, and
    [/api] is appended exactly when the text does not already contain
    [/api] followed by a slash or by the end of the text, that is, when
    none of the pieces between the slashes of the text, the piece before
    the first slash apart, is [api].  The test is on the text: in a URL
    such a piece may be the host, and the last piece of a path that a
    query follows is not [api]. *)
Theorem sanitizeBaseUrl_spec (input : string) :
  (∃ pre t post,
     input = pre +:+ t +:+ post ∧
     allWhiteSpace pre = true ∧ allWhiteSpace post = true ∧ isTrimmed t ∧
     if decide (t = "") then
       sanitizeBaseUrl input = None ∧
       ∀ zodMessage fetch secondRejectsFirst now apiKey,
         Server.configHandler zodMessage fetch secondRejectsFirst now (Some input) apiKey
         = Return
             (Server.mkHttpResponse 500
                (VObj {[ "error" := VStr "Missing DOKPLOY_BASE_URL environment variable." ]})
                [])
     else
       ∃ n, oneSlashStripped t n ∧
            ((containsApiSegment n ∧ sanitizeBaseUrl input = Some n) ∨
             (¬ containsApiSegment n ∧ sanitizeBaseUrl input = Some (n +:+ "/api")))) ∧
  (∀ zodMessage fetch secondRejectsFirst now apiKey,
     Server.configHandler zodMessage fetch secondRejectsFirst now None apiKey
     = Return
         (Server.mkHttpResponse 500
            (VObj {[ "error" := VStr "Missing DOKPLOY_BASE_URL environment variable." ]})
            [])) ∧
  sanitizeBaseUrl "https://host/" = Some "https://host/api" ∧
  sanitizeBaseUrl "https://host/api/" = Some "https://host/api" ∧
  (∀ s, containsApiSegment s ↔ "api" ∈ drop 1 (splitOn "/"%char s)).
Proof.
  split; [|split; [|split; [done|split; [done|]]]].
  3: { intros s. by rewrite <-testApiSegment_spec, testApiSegment_pieces. }
  - destruct (trim_spec input) as (pre & post & Hinput & Hpre & Hpost & Htrim).
    exists pre, (trim input), post. do 4 (split; [done|]).
    case_decide as Ht.
    + assert (sanitizeBaseUrl input = None) as Hnone.
      { unfold sanitizeBaseUrl. by rewrite Ht. }
      split; [done|]. intros. by apply configHandler_missing_base.
    + unfold sanitizeBaseUrl.
      destruct (trim input) as [|c t] eqn:Htr; [done|]. cbn [truthy_string negb].
      exists (stripTrailingSlash (String c t)). split; [apply stripTrailingSlash_spec|].
      destruct (testApiSegment _) eqn:Htest; cbn [negb].
      * left. by apply testApiSegment_spec in Htest.
      * right. split; [|done]. intros H%testApiSegment_spec. congruence.
  - intros. by apply configHandler_missing_base.
Qed.

Example sanitizeBaseUrl_blank : sanitizeBaseUrl "  " = None.
Proof. reflexivity. Qed.

Example sanitizeBaseUrl_keeps_api_path :
  sanitizeBaseUrl " https://host/api/v1/ " = Some "https://host/api/v1".
Proof. reflexivity. Qed.

Example sanitizeBaseUrl_two_slashes :
  sanitizeBaseUrl "https://host//" = Some "https://host//api".
Proof. reflexivity. Qed.

Example sanitizeBaseUrl_host_named_api :
  sanitizeBaseUrl "https://api" = Some "https://api".
Proof. reflexivity. Qed.

(** The test for [/api] is a test on the text, not on the path of the
    URL.  The URL [https://api] has no path, hence no path segment [api],
    and comes back without [/api] appended; the path of
    [https://host/api?x=1] is [/api], and [/api] is appended, after the
    query. *)
Lemma sanitizeBaseUrl_not_path_segment :
  (pathSegments "https://api" = [] ∧
   sanitizeBaseUrl "https://api" = Some "https://api") ∧
  (pathSegments "https://host/api?x=1" = ["api"] ∧
   sanitizeBaseUrl "https://host/api?x=1" = Some "https://host/api?x=1/api").
Proof. repeat split; reflexivity. Qed.

(** * Further properties *)

(** ** Pins *)

Lemma elem_of_togglePin (entryId x : string) (prev : list string) :
  x ∈ togglePin entryId prev ↔
  (x = entryId ∧ entryId ∉ prev) ∨ (x ≠ entryId ∧ x ∈ prev).
Proof.
  unfold togglePin. case_decide as Hin.
  - rewrite list_elem_of_filter. split.
    + intros [? ?]. by right.
    + intros [[_ ?]|[? ?]]; done.
  - rewrite elem_of_app, list_elem_of_singleton. split.
    + intros [Hx| ->]; [|by left]. right. split; [|done]. by intros ->.
    + intros [[-> _]|[_ ?]]; auto.
Qed.

(** X1. [togglePin] flips the membership of the id it is given and leaves
    the membership of every other id as it was. *)
Theorem togglePin_membership (entryId other : string) (prev : list string) :
  (entryId ∈ togglePin entryId prev ↔ entryId ∉ prev) ∧
  (other ≠ entryId → other ∈ togglePin entryId prev ↔ other ∈ prev).
Proof.
  split; [|intros Hne]; rewrite elem_of_togglePin.
  - split; [by intros [[_ ?]|[? _]]|auto].
  - split; [by intros [[? _]|[_ ?]]|auto].
Qed.

(** X2. A pin list without repetitions stays without repetitions. *)
Theorem togglePin_NoDup (entryId : string) (prev : list string) :
  NoDup prev → NoDup (togglePin entryId prev).
Proof.
  intros Hnodup. unfold togglePin. case_decide as Hin.
  - by apply NoDup_filter.
  - apply NoDup_app. split; [done|]. split; [|apply NoDup_singleton].
    intros x Hx ->%list_elem_of_singleton. done.
Qed.

Lemma togglePin_NoDup_witness :
  NoDup ["a"; "b"] ∧ NoDup (togglePin "b" ["a"; "b"]) ∧ NoDup (togglePin "c" ["a"; "b"]).
Proof.
  assert (NoDup ["a"; "b"]) as Hnodup.
  { apply (bool_decide_unpack _). vm_compute. exact I. }
  split; [exact Hnodup|].
  split; apply togglePin_NoDup; exact Hnodup.
Defined.

Lemma pinnedEntries_ext (entries : list ResourceEntry.t) (pins1 pins2 : list string) :
  (∀ x, x ∈ pins1 ↔ x ∈ pins2) →
  pinnedEntries entries pins1 = pinnedEntries entries pins2 ∧
  regularEntries entries pins1 = regularEntries entries pins2.
Proof.
  intros Hsame. unfold pinnedEntries, regularEntries.
  split; apply list_filter_iff; intros e; by rewrite Hsame.
Qed.

(** X3. Toggling the same id twice never changes which entries are
    pinned, whether the id was pinned or not.  When the id was pinned, the
    two steps move it to the end of the pin list. *)
Theorem togglePin_twice (entryId : string) (prev : list string) :
  (∀ entries,
     pinnedEntries entries (togglePin entryId (togglePin entryId prev))
     = pinnedEntries entries prev ∧
     regularEntries entries (togglePin entryId (togglePin entryId prev))
     = regularEntries entries prev) ∧
  (entryId ∈ prev →
   togglePin entryId (togglePin entryId prev)
   = (filter (λ key, key ≠ entryId) prev ++ [entryId])%list).
Proof.
  split.
  - intros entries. apply pinnedEntries_ext. intros x.
    rewrite !elem_of_togglePin.
    destruct (decide (x = entryId)) as [->|Hne];
      destruct (decide (entryId ∈ prev)); intuition congruence.
  - intros Hin. unfold togglePin at 2. rewrite decide_True by done.
    unfold togglePin. rewrite decide_False; [done|].
    rewrite list_elem_of_filter. by intros [? _].
Qed.

Lemma togglePin_twice_witness :
  ("a" ∈ ["a"; "b"]) ∧ togglePin "a" (togglePin "a" ["a"; "b"]) = ["b"; "a"].
Proof.
  assert ("a" ∈ ["a"; "b"]) as Hin by apply list_elem_of_here.
  split; [exact Hin|].
  exact (proj2 (togglePin_twice "a" ["a"; "b"]) Hin).
Defined.

(** X4. The pinned and the regular entries partition the entries: each
    keeps the order of the entries, together they hold every entry as
    often as the entries do, no entry is on both sides, and entries that
    share an id are on the same side. *)
Theorem pinned_regular_partition (entries : list ResourceEntry.t)
    (pinnedResources : list string) :
  (pinnedEntries entries pinnedResources ++ regularEntries entries pinnedResources)%list
    ≡ₚ entries ∧
  pinnedEntries entries pinnedResources `sublist_of` entries ∧
  regularEntries entries pinnedResources `sublist_of` entries ∧
  (∀ e, e ∈ pinnedEntries entries pinnedResources →
        e ∉ regularEntries entries pinnedResources) ∧
  (∀ e1 e2, e1 ∈ entries → e2 ∈ entries →
     ResourceEntry.id e1 = ResourceEntry.id e2 →
     e1 ∈ pinnedEntries entries pinnedResources ↔
     e2 ∈ pinnedEntries entries pinnedResources).
Proof.
  unfold pinnedEntries, regularEntries. split; [|split; [|split; [|split]]].
  - apply (filter_app_complement
             (λ entry, ResourceEntry.id entry ∈ pinnedResources)).
  - apply sublist_filter.
  - apply sublist_filter.
  - intros e [Hpinned _]%list_elem_of_filter [Hregular _]%list_elem_of_filter. done.
  - intros e1 e2 H1 H2 Hid. rewrite !list_elem_of_filter, Hid. tauto.
Qed.

Lemma filterStrings_strings (pins : list string) : filterStrings (VStr <$> pins) = pins.
Proof.
  unfold filterStrings. induction pins as [|x pins IH]; [done|].
  cbn. by rewrite IH.
Qed.

(** X5. What the effect persists, the initializer restores: when
    [JSON.parse] reads back what [JSON.stringify] wrote for the pin list
    (a text that is not empty), a session that starts on the storage left
    by the effect starts with the same pin list.  When writing fails, the
    storage is unchanged. *)
Theorem persist_restore (JSON_stringify : value → string)
    (JSON_parse : string → completion value)
    (store : gmap string string) (pinnedResources : list string) :
  JSON_stringify (VArr (VStr <$> pinnedResources)) ≠ "" →
  JSON_parse (JSON_stringify (VArr (VStr <$> pinnedResources)))
    = Return (VArr (VStr <$> pinnedResources)) →
  initialPinnedResources JSON_parse
    (persistPinnedResources JSON_stringify (Some (Return store)) false pinnedResources)
  = Return pinnedResources ∧
  persistPinnedResources JSON_stringify (Some (Return store)) true pinnedResources
  = Some (Return store).
Proof.
  intros Hnonempty Hparse. split; [|done].
  cbn. rewrite lookup_insert_eq.
  apply truthy_string_true in Hnonempty as ->. cbn.
  rewrite Hparse. cbn. by rewrite filterStrings_strings.
Qed.

Lemma persist_restore_witness :
  initialPinnedResources pinsParse
    (persistPinnedResources pinsStringify (Some (Return ∅)) false ["web"])
  = Return ["web"].
Proof.
  apply (persist_restore pinsStringify pinsParse ∅ ["web"]).
  - discriminate.
  - reflexivity.
Defined.

(** ** URLs of an entry *)

Lemma resolveDomainUrl_nonempty (Number_toString : number → string) (domain : option Domain.t) (u : string) :
  resolveDomainUrl Number_toString domain = Some u →
  ∃ rest, u = "http://" +:+ rest ∨ u = "https://" +:+ rest.
Proof.
  destruct domain as [d|]; [|done]. unfold resolveDomainUrl.
  destruct (truthy_string (Domain.host d)); [|done]. cbn [negb].
  intros [= <-]. destruct (Domain.https d) as [[]|]; eauto.
Qed.

Lemma resourceUrls_omap (Number_toString : number → string) (ds : list Domain.t) :
  filterNonEmptyStrings (map (λ domain, resolveDomainUrl Number_toString (Some domain)) ds)
  = omap (λ domain, resolveDomainUrl Number_toString (Some domain)) ds.
Proof.
  induction ds as [|d ds IH]; [done|].
  cbn [map filterNonEmptyStrings]. rewrite IH.
  change (omap (λ domain, resolveDomainUrl Number_toString (Some domain)) (d :: ds))
    with (match resolveDomainUrl Number_toString (Some d) with
          | Some u => u :: omap (λ domain, resolveDomainUrl Number_toString (Some domain)) ds
          | None => omap (λ domain, resolveDomainUrl Number_toString (Some domain)) ds
          end).
  destruct (resolveDomainUrl Number_toString (Some d)) as [u|] eqn:Hu; [|done].
  destruct (resolveDomainUrl_nonempty _ _ _ Hu) as [rest [-> | ->]]; done.
Qed.

Lemma length_omap_resolve (Number_toString : number → string) (ds : list Domain.t) :
  length (omap (λ domain, resolveDomainUrl Number_toString (Some domain)) ds)
  = length (filter (λ domain, Domain.host domain ≠ "") ds).
Proof.
  induction ds as [|d ds IH]; [done|].
  change (omap (λ domain, resolveDomainUrl Number_toString (Some domain)) (d :: ds))
    with (match resolveDomainUrl Number_toString (Some d) with
          | Some u => u :: omap (λ domain, resolveDomainUrl Number_toString (Some domain)) ds
          | None => omap (λ domain, resolveDomainUrl Number_toString (Some domain)) ds
          end).
  rewrite filter_cons. unfold resolveDomainUrl at 1.
  destruct (truthy_string (Domain.host d)) eqn:Hhost; cbn [negb].
  - apply truthy_string_true in Hhost. rewrite decide_True by done.
    cbn [length]. by rewrite IH.
  - apply truthy_string_false in Hhost. rewrite decide_False; [done|]. by intros ?.
Qed.

(** X6. A resolved URL starts with [http://] or [https://], so it is
    never empty and the filter on the URLs of an entry drops nothing but
    the nulls: the entry pushed for a resource has one URL for each of its
    domains with a non-empty host, in the order of the domains. *)
Theorem entry_urls (Number_toString : number → string) (project : Project.t) (index : nat) (environment : Environment.t)
    (sec : section) (resource : Resource.t) (resIndex : nat) :
  (∀ domain u, resolveDomainUrl Number_toString domain = Some u →
     ∃ rest, u = "http://" +:+ rest ∨ u = "https://" +:+ rest) ∧
  ResourceEntry.urls (entryOf Number_toString project index environment sec resource resIndex)
  = omap (λ domain, resolveDomainUrl Number_toString (Some domain))
      (nullish (Resource.domains resource) []) ∧
  length (ResourceEntry.urls (entryOf Number_toString project index environment sec resource resIndex))
  = length (filter (λ domain, Domain.host domain ≠ "")
              (nullish (Resource.domains resource) [])).
Proof.
  split; [apply resolveDomainUrl_nonempty|].
  cbn [entryOf ResourceEntry.urls]. unfold resourceUrls.
  rewrite resourceUrls_omap. split; [done|apply length_omap_resolve].
Qed.

(** ** Fallback ids *)

Lemma section_of_key (sec : section) :
  sec ∈ resourceSections →
  ∀ sec', sec' ∈ resourceSections → key sec = key sec' → sec = sec'.
Proof.
  unfold resourceSections. intros Hsec sec' Hsec'.
  repeat (apply elem_of_cons in Hsec as [->|Hsec]);
    [..|by apply elem_of_nil in Hsec];
    repeat (apply elem_of_cons in Hsec' as [->|Hsec']);
    try (by apply elem_of_nil in Hsec'); done.
Qed.

Lemma keyName_index_inj (k1 k2 : sectionKey) (i1 i2 : nat) :
  keyName k1 +:+ "-" +:+ pretty i1 = keyName k2 +:+ "-" +:+ pretty i2 →
  k1 = k2 ∧ i1 = i2.
Proof.
  destruct k1, k2; simpl; intros H; try discriminate H;
    (split; [done|]);
    repeat (injection H as H); by apply (inj pretty) in H.
Qed.

(** X7. Among the resources of one project that have no explicit id,
    two entries get the same id exactly when they are at the same index of
    the same category: the fallback id tells categories and positions
    apart, and nothing else (not the environment). *)
Theorem fallback_id_clash (Number_toString : number → string) (project : Project.t) (index : nat)
    (environment1 environment2 : Environment.t) (sec1 sec2 : section)
    (resource1 resource2 : Resource.t) (resIndex1 resIndex2 : nat) :
  sec1 ∈ resourceSections → sec2 ∈ resourceSections →
  noExplicitId resource1 → noExplicitId resource2 →
  ResourceEntry.id (entryOf Number_toString project index environment1 sec1 resource1 resIndex1)
  = ResourceEntry.id (entryOf Number_toString project index environment2 sec2 resource2 resIndex2)
  ↔ sec1 = sec2 ∧ resIndex1 = resIndex2.
Proof.
  intros Hsec1 Hsec2 (Hc1 & Ha1 & Hd1) (Hc2 & Ha2 & Hd2).
  cbn [entryOf ResourceEntry.id]. rewrite Hc1, Ha1, Hd1, Hc2, Ha2, Hd2.
  cbn [coalesce]. split.
  - intros H. apply (inj (String.app _)) in H.
    change ("-" +:+ keyName (key sec1) +:+ "-" +:+ pretty resIndex1
            = "-" +:+ keyName (key sec2) +:+ "-" +:+ pretty resIndex2) in H.
    apply (inj (String.app "-")) in H.
    apply keyName_index_inj in H as [Hkey ->].
    split; [|done]. by apply section_of_key.
  - by intros [-> ->].
Qed.

Lemma fallback_id_clash_witness :
  ResourceEntry.id
    (entryOf sampleNumberToString twoEnvironmentsProject 0 stagingEnvironment
       (mkSection applications "Applications") anonymousResource 0)
  = ResourceEntry.id
      (entryOf sampleNumberToString twoEnvironmentsProject 0 productionEnvironment
         (mkSection applications "Applications") anonymousResource 0).
Proof.
  apply (fallback_id_clash sampleNumberToString twoEnvironmentsProject 0
           stagingEnvironment productionEnvironment
           (mkSection applications "Applications")
           (mkSection applications "Applications")
           anonymousResource anonymousResource 0 0).
  - apply list_elem_of_here.
  - apply list_elem_of_here.
  - repeat split.
  - repeat split.
  - split; reflexivity.
Defined.

(** ** Ties of the sort *)

Section FlattenStable.
Variable Number_toString : number → string.
Variable localeCompare : string → string → Z.

Hypothesis localeCompare_antisym :
  ∀ a b, (localeCompare a b < 0)%Z ↔ (0 < localeCompare b a)%Z.
Hypothesis localeCompare_trans :
  ∀ a b c, (localeCompare a b ≤ 0)%Z → (localeCompare b c ≤ 0)%Z →
           (localeCompare a c ≤ 0)%Z.
Hypothesis localeCompare_eq : ∀ a b, localeCompare a b = 0%Z → a = b.


End FlattenStable.


(** ** Validation of validated values *)

(** Induction on schemas, through the shapes of objects. *)
Lemma schema_induction (P : schema → Prop) :
  (∀ n, P (ZString n)) → P ZBoolean → P ZNumber →
  (∀ s, P s → P (ZOptional s)) →
  (∀ s, P s → P (ZNullable s)) →
  (∀ s d, P s → P (ZDefault s d)) →
  (∀ s, P s → P (ZArray s)) →
  (∀ shape mode, Forall (λ f, P f.2) shape → P (ZObject shape mode)) →
  ∀ s, P s.
Proof.
  intros Hstr Hbool Hnum Hopt Hnull Hdef Harr Hobj.
  fix IH 1.
  intros [n| | |s|s|s d|s|shape mode];
    [apply Hstr|apply Hbool|apply Hnum|apply Hopt, IH|apply Hnull, IH
    |apply Hdef, IH|apply Harr, IH|].
  apply Hobj. induction shape as [|f shape IHshape]; constructor;
    [apply IH|exact IHshape].
Qed.

Lemma extraKeys_lookup_shape (mode : unknownKeys) (keys : list string)
    (data : gmap string value) (k : string) :
  k ∈ keys → extraKeys mode keys data !! k = None.
Proof.
  intros Hk. destruct mode; simpl; [done|].
  apply map_lookup_filter_None. right. intros v _. simpl. tauto.
Qed.

Lemma setParsed_lookup (data acc : gmap string value) (k : string) (v : value) :
  setParsed data acc (k, Valid v) !! k
  = match v, data !! k with
    | VUndefined, None => acc !! k
    | _, _ => Some v
    end.
Proof.
  unfold setParsed. simpl.
  destruct v, (data !! k); try done; by rewrite lookup_insert_eq.
Qed.

Lemma setParsed_lookup_ne (data acc : gmap string value) (r : string * outcome)
    (k : string) :
  r.1 ≠ k → setParsed data acc r !! k = acc !! k.
Proof.
  intros Hne. unfold setParsed. destruct r.2 as [v|]; [|done].
  destruct v, (data !! r.1); try done; by rewrite lookup_insert_ne.
Qed.

Lemma foldl_setParsed_lookup (data : gmap string value)
    (results : list (string * outcome)) (acc : gmap string value)
    (k : string) (v : value) :
  NoDup (results.*1) → (k, Valid v) ∈ results →
  foldl (setParsed data) acc results !! k
  = match v, data !! k with
    | VUndefined, None => acc !! k
    | _, _ => Some v
    end.
Proof.
  revert acc. induction results as [|r results IH]; intros acc Hnodup Hin.
  - by apply elem_of_nil in Hin.
  - rewrite fmap_cons in Hnodup. apply NoDup_cons in Hnodup as [Hfresh Hnodup].
    simpl. apply elem_of_cons in Hin as [<-|Hin].
    + rewrite foldl_setParsed_other by done. apply setParsed_lookup.
    + rewrite IH by done.
      assert (r.1 ≠ k) as Hne.
      { intros <-. apply Hfresh. apply list_elem_of_fmap. by exists (r.1, Valid v). }
      rewrite setParsed_lookup_ne by done. done.
Qed.

(** What an accepted object holds for a property of the shape: the parsed
    value of the property. *)
Lemma getProp_parsed (data : gmap string value) (results : list (string * outcome))
    (acc : gmap string value) (k : string) (v : value) :
  NoDup (results.*1) → (k, Valid v) ∈ results → acc !! k = None →
  getProp (foldl (setParsed data) acc results) k = v.
Proof.
  intros Hnodup Hin Hacc. unfold getProp.
  rewrite (foldl_setParsed_lookup _ _ _ _ v) by done. rewrite Hacc.
  by destruct v, (data !! k).
Qed.

Lemma forallb_isValid_values (results : list outcome) :
  forallb isValid results = true → results = Valid <$> omap valueOf results.
Proof.
  induction results as [|[v|errs] results IH]; simpl; [done| |done].
  intros H. cbn. f_equal. by apply IH.
Qed.

Lemma mergeArray_valid (values : list value) :
  mergeArray (Valid <$> values) = Valid (VArr values).
Proof.
  unfold mergeArray.
  assert (forallb isValid (Valid <$> values) = true) as ->.
  { induction values; simpl; auto. }
  do 2 f_equal. induction values as [|v values IH]; [done|]. cbn. by rewrite IH.
Qed.

Lemma imap_parse_values (s : schema) (q q' : nat → list pathItem) (l : list value) :
  (∀ p v v', parseAt s p v = Valid v' → ∀ p', parseAt s p' v' = Valid v') →
  forallb isValid (imap (λ i x, parseAt s (q i) x) l) = true →
  imap (λ i y, parseAt s (q' i) y)
    (omap valueOf (imap (λ i x, parseAt s (q i) x) l))
  = Valid <$> omap valueOf (imap (λ i x, parseAt s (q i) x) l).
Proof.
  intros IH. revert q q'. induction l as [|x l IHl]; intros q q'; [done|].
  cbn [imap forallb]. destruct (parseAt s (q 0) x) as [v|] eqn:Hv; [|done].
  cbn. intros Hall. rewrite (IH _ _ _ Hv). f_equal.
  apply (IHl (q ∘ S) (q' ∘ S)), Hall.
Qed.

Lemma imap_parse_paths (s : schema) (q q' : nat → list pathItem) (l : list value) :
  (∀ p v v', parseAt s p v = Valid v' → ∀ p', parseAt s p' v = Valid v') →
  forallb isValid (imap (λ i x, parseAt s (q i) x) l) = true →
  imap (λ i x, parseAt s (q' i) x) l = imap (λ i x, parseAt s (q i) x) l.
Proof.
  intros IH. revert q q'. induction l as [|x l IHl]; intros q q'; [done|].
  cbn [imap forallb]. destruct (parseAt s (q 0) x) as [v|] eqn:Hv; [|done].
  cbn. intros Hall. rewrite (IH _ _ _ Hv). f_equal.
  apply (IHl (q ∘ S) (q' ∘ S)), Hall.
Qed.

Lemma fields_parse_paths (shape : list (string * schema)) (data : gmap string value)
    (p p' : list pathItem) :
  Forall (λ f, ∀ p v v', parseAt f.2 p v = Valid v' →
                 ∀ p', parseAt f.2 p' v = Valid v') shape →
  forallb (λ r, isValid r.2)
    ((λ f, (f.1, parseAt f.2 (p ++ [Key f.1]) (getProp data f.1))) <$> shape) = true →
  (λ f, (f.1, parseAt f.2 (p' ++ [Key f.1]) (getProp data f.1))) <$> shape
  = (λ f, (f.1, parseAt f.2 (p ++ [Key f.1]) (getProp data f.1))) <$> shape.
Proof.
  induction 1 as [|f shape Hf _ IH]; [done|].
  cbn [fmap list_fmap forallb]. cbn [snd].
  destruct (parseAt f.2 (p ++ [Key f.1]) (getProp data f.1)) as [v|] eqn:Hv; [|done].
  cbn. intros Hall. rewrite (Hf _ _ _ Hv). f_equal. by apply IH.
Qed.

(** The value a schema returns does not depend on the path at which the
    schema is applied. *)
Lemma parseAt_path (s : schema) :
  ∀ p v v', parseAt s p v = Valid v' → ∀ p', parseAt s p' v = Valid v'.
Proof.
  induction s as [n| | |s IH|s IH|s d IH|s IH|shape mode IH] using schema_induction;
    intros p v v' Hv p'.
  - cbn in *. destruct v; try done. by destruct (n <=? String.length s)%nat.
  - cbn in *. by destruct v.
  - cbn in *. by destruct v.
  - cbn [parseAt] in *. destruct v; try done; by eapply IH.
  - cbn [parseAt] in *. destruct v; try done; by eapply IH.
  - cbn [parseAt] in *. destruct v; by eapply IH.
  - cbn [parseAt] in *. destruct v as [| | | | |l|]; try done.
    unfold mergeArray in *.
    destruct (forallb isValid (imap (λ i x, parseAt s (p ++ [Index i]) x) l))
      eqn:Hall; [|done].
    by rewrite (imap_parse_paths s (λ i, (p ++ [Index i])%list)
                 (λ i, (p' ++ [Index i])%list) l IH Hall),
      Hall.
  - cbn [parseAt] in *. destruct v as [| | | | | |data]; try done.
    unfold mergeObject in *.
    destruct (forallb (λ r, isValid r.2) _) eqn:Hall in Hv; [|done].
    by rewrite (fields_parse_paths shape data p p' IH Hall), Hall.
Qed.

Lemma parseAt_defined (s : schema) (p : list pathItem) (v v' : value) :
  parseAt s p v = Valid v' → v ≠ VUndefined → v' ≠ VUndefined.
Proof.
  revert p v v'. induction s as [n| | |s IH|s IH|s IH d|s IH|shape mode];
    intros p v v' Hv Hdef; cbn [parseAt] in Hv.
  - destruct v; try done. by destruct (n <=? String.length s)%nat; simplify_eq.
  - destruct v; by simplify_eq.
  - destruct v; by simplify_eq.
  - destruct v; try done; by eapply IH.
  - destruct v; try done; try (by eapply IH). by simplify_eq.
  - destruct v; try done; by eapply IH.
  - destruct v; try done. unfold mergeArray in Hv.
    by destruct (forallb _ _); simplify_eq.
  - destruct v; try done. unfold mergeObject in Hv.
    by destruct (forallb _ _); simplify_eq.
Qed.

Lemma fields_reparse (shape : list (string * schema)) (data out : gmap string value)
    (p : list pathItem) :
  Forall (λ f, ∀ p v v', parseAt f.2 p v = Valid v' →
                 ∀ p', parseAt f.2 p' v' = Valid v') shape →
  forallb (λ r, isValid r.2)
    ((λ f, (f.1, parseAt f.2 (p ++ [Key f.1]) (getProp data f.1))) <$> shape) = true →
  (∀ k v,
     (k, Valid v)
     ∈ (λ f, (f.1, parseAt f.2 (p ++ [Key f.1]) (getProp data f.1))) <$> shape →
     getProp out k = v) →
  (λ f, (f.1, parseAt f.2 (p ++ [Key f.1]) (getProp out f.1))) <$> shape
  = (λ f, (f.1, parseAt f.2 (p ++ [Key f.1]) (getProp data f.1))) <$> shape.
Proof.
  induction 1 as [|f shape Hf _ IH]; [done|].
  cbn [fmap list_fmap forallb]. cbn [snd].
  destruct (parseAt f.2 (p ++ [Key f.1]) (getProp data f.1)) as [v|] eqn:Hv; [|done].
  cbn. intros Hall Hout.
  rewrite (Hout f.1 v) by apply list_elem_of_here.
  rewrite (Hf _ _ _ Hv). f_equal. apply IH; [done|].
  intros k w Hin. apply Hout. by apply list_elem_of_further.
Qed.

Lemma refold_parsed (mode : unknownKeys) (data : gmap string value)
    (results : list (string * outcome)) :
  NoDup (results.*1) →
  forallb (λ r, isValid r.2) results = true →
  foldl (setParsed (foldl (setParsed data) (extraKeys mode (results.*1) data) results))
    (extraKeys mode (results.*1)
       (foldl (setParsed data) (extraKeys mode (results.*1) data) results))
    results
  = foldl (setParsed data) (extraKeys mode (results.*1) data) results.
Proof.
  intros Hnodup Hall.
  set (out := foldl (setParsed data) (extraKeys mode (results.*1) data) results).
  apply map_eq. intros k.
  destruct (decide (k ∈ results.*1)) as [Hk|Hk].
  - apply list_elem_of_fmap in Hk as ([k' o] & -> & Hin). simpl.
    assert (∃ v, o = Valid v) as [v ->].
    { rewrite forallb_forall in Hall. apply list_elem_of_In, Hall in Hin.
      destruct o; [eauto|done]. }
    assert (k' ∈ results.*1) as Hk'.
    { apply list_elem_of_fmap. by exists (k', Valid v). }
    rewrite (foldl_setParsed_lookup _ _ _ _ v) by done.
    rewrite (extraKeys_lookup_shape mode _ out) by done.
    unfold out at 2. rewrite (foldl_setParsed_lookup _ _ _ _ v) by done.
    rewrite (extraKeys_lookup_shape mode _ data) by done.
    unfold out. rewrite (foldl_setParsed_lookup _ _ _ _ v) by done.
    rewrite (extraKeys_lookup_shape mode _ data) by done.
    by destruct v, (data !! k').
  - rewrite foldl_setParsed_other by done.
    rewrite extraKeys_lookup by done.
    unfold out. rewrite foldl_setParsed_other, extraKeys_lookup by done.
    by destruct mode.
Qed.

(** Parsing is idempotent: a value that a schema returns is accepted by
    the schema, at every path, and returned unchanged. *)
Lemma parseAt_idempotent (s : schema) :
  wellFormed s = true →
  ∀ p v v', parseAt s p v = Valid v' → ∀ p', parseAt s p' v' = Valid v'.
Proof.
  induction s as [n| | |s IH|s IH|s d IH|s IH|shape mode IH] using schema_induction;
    intros Hwf p v v' Hv p'; apply (parseAt_path _ p); cbn in Hwf.
  - cbn in *. destruct v as [| | | |x| |]; try done.
    destruct (n <=? String.length x)%nat eqn:Hn; simplify_eq. cbn. by rewrite Hn.
  - cbn in *. destruct v; by simplify_eq.
  - cbn in *. destruct v; by simplify_eq.
  - cbn [parseAt] in *. destruct v'; try done;
      destruct v; simplify_eq; by apply (IH Hwf p _ _ Hv).
  - cbn [parseAt] in *. destruct v'; try done;
      destruct v; simplify_eq; by apply (IH Hwf p _ _ Hv).
  - cbn [parseAt] in *.
    assert (v' = VUndefined ∨ v' ≠ VUndefined) as [->|Hdef]
      by (destruct v'; (by left) || (by right)).
    + destruct v; try done;
        by (exfalso; eapply (parseAt_defined s p _ VUndefined); [exact Hv|..]).
    + assert (parseAt s p v' = Valid v') as Hv'.
      { destruct v; by apply (IH Hwf p _ _ Hv). }
      by destruct v'.
  - cbn [parseAt] in *. destruct v as [| | | | |l|]; try done.
    unfold mergeArray in Hv.
    destruct (forallb isValid (imap (λ i x, parseAt s (p ++ [Index i]) x) l))
      eqn:Hall; [|done].
    injection Hv as <-.
    rewrite (imap_parse_values s (λ i, (p ++ [Index i])%list)
               (λ i, (p ++ [Index i])%list) l (IH Hwf) Hall).
    apply mergeArray_valid.
  - apply andb_true_iff in Hwf as [Hnodup Hwf].
    apply bool_decide_eq_true in Hnodup.
    assert (Forall (λ f, ∀ p v v', parseAt f.2 p v = Valid v' →
                           ∀ p', parseAt f.2 p' v' = Valid v') shape) as IH'.
    { rewrite forallb_forall in Hwf. rewrite Forall_forall in IH |- *.
      intros f Hf. apply IH; [done|]. by apply Hwf, list_elem_of_In. }
    cbn [parseAt] in *. destruct v as [| | | | | |data]; try done.
    unfold mergeObject in Hv.
    destruct (forallb (λ r, isValid r.2) _) eqn:Hall in Hv; [|done].
    injection Hv as <-.
    set (results := (λ f, (f.1, parseAt f.2 (p ++ [Key f.1]) (getProp data f.1)))
                      <$> shape) in *.
    assert (results.*1 = shape.*1) as Hkeys by apply results_keys.
    rewrite (fields_reparse shape data _ p IH' Hall).
    + fold results. unfold mergeObject. rewrite Hall.
      by rewrite refold_parsed by (by rewrite ?Hkeys).
    + intros k w Hin. apply getProp_parsed; [by rewrite Hkeys|done|].
      apply extraKeys_lookup_shape. apply list_elem_of_fmap. by exists (k, Valid w).
Qed.

(** X9. Validation is idempotent for every schema that [lib/dokploy.ts]
    exports: what a schema returns, the schema accepts and returns
    unchanged.  (The server validates the project list twice, on its own
    and inside the envelope, and the client validates the envelope again.) *)
Theorem validation_idempotent (s : schema) (v v' : value) :
  s ∈ exportedSchemas →
  safeParse s v = Valid v' → safeParse s v' = Valid v'.
Proof.
  intros Hs Hv. unfold safeParse in *.
  apply (parseAt_idempotent s) with (p := []) (v := v); [|done].
  unfold exportedSchemas in Hs.
  repeat (apply elem_of_cons in Hs as [->|Hs]; [by vm_compute|]).
  by apply elem_of_nil in Hs.
Qed.

Lemma validation_idempotent_witness :
  ∃ v', safeParse domainSchema (VObj domainWithExtra) = Valid v' ∧
        safeParse domainSchema v' = Valid v'.
Proof.
  destruct (safeParse domainSchema (VObj domainWithExtra)) as [v'|] eqn:Hv;
    [|vm_compute in Hv; discriminate Hv].
  exists v'. split; [done|].
  apply (validation_idempotent domainSchema (VObj domainWithExtra) v');
    [apply list_elem_of_here|exact Hv].
Defined.

(** The properties of a validated object are themselves valid for the
    schemas of the shape. *)
Lemma object_field_valid (shape : list (string * schema)) (mode : unknownKeys)
    (p : list pathItem) (v v' : value) (k : string) (s : schema) :
  wellFormed (ZObject shape mode) = true →
  parseAt (ZObject shape mode) p v = Valid v' →
  (k, s) ∈ shape →
  ∃ out, v' = VObj out ∧ ∀ p', parseAt s p' (getProp out k) = Valid (getProp out k).
Proof.
  intros Hwf Hv Hks.
  pose proof (parseAt_idempotent _ Hwf _ _ _ Hv p) as Hv'.
  assert (∃ out, v' = VObj out) as [out ->].
  { cbn [parseAt] in Hv. destruct v; try done. unfold mergeObject in Hv.
    destruct (forallb _ _); simplify_eq. eauto. }
  exists out. split; [done|]. intros p'.
  cbn in Hwf. apply andb_true_iff in Hwf as [Hnodup Hwf].
  apply bool_decide_eq_true in Hnodup.
  cbn [parseAt] in Hv'. unfold mergeObject in Hv'.
  destruct (forallb (λ r, isValid r.2) _) eqn:Hall in Hv'; [|done].
  injection Hv' as Hout.
  set (results := (λ f, (f.1, parseAt f.2 (p ++ [Key f.1]) (getProp out f.1)))
                    <$> shape) in *.
  assert (results.*1 = shape.*1) as Hkeys by apply results_keys.
  assert ((k, parseAt s (p ++ [Key k]) (getProp out k)) ∈ results) as Hin.
  { apply list_elem_of_fmap. by exists (k, s). }
  destruct (parseAt s (p ++ [Key k]) (getProp out k)) as [w|] eqn:Hw.
  - assert (getProp out k = w) as Hgw.
    { rewrite <-Hout at 1. apply getProp_parsed; [by rewrite Hkeys|done|].
      apply extraKeys_lookup_shape. apply list_elem_of_fmap. by exists (k, Valid w). }
    rewrite Hgw in Hw |- *. by apply (parseAt_path _ _ _ _ Hw).
  - rewrite forallb_forall in Hall. apply list_elem_of_In, Hall in Hin. done.
Qed.

(** The elements of a validated array are themselves valid. *)
Lemma array_elements_valid (s : schema) (q : nat → list pathItem) (l : list value) :
  forallb isValid (imap (λ i x, parseAt s (q i) x) l) = true →
  omap valueOf (imap (λ i x, parseAt s (q i) x) l) = l →
  Forall (λ x, ∀ p', parseAt s p' x = Valid x) l.
Proof.
  revert q. induction l as [|x l IH]; intros q; [constructor|].
  cbn [imap forallb]. destruct (parseAt s (q 0) x) as [w|] eqn:Hw; [|done].
  cbn. intros Hall [= -> Hl]. constructor.
  - intros p'. by apply (parseAt_path _ _ _ _ Hw).
  - by apply (IH (q ∘ S)).
Qed.

Lemma array_of_valid (s : schema) (p : list pathItem) (l : list value) :
  Forall (λ x, ∀ p', parseAt s p' x = Valid x) l →
  parseAt (ZArray s) p (VArr l) = Valid (VArr l).
Proof.
  intros Hl. cbn [parseAt].
  assert (∀ q : nat → list pathItem,
            imap (λ i x, parseAt s (q i) x) l = Valid <$> l) as ->.
  { induction Hl as [|x l Hx _ IH]; intros q; [done|].
    cbn [imap]. rewrite Hx. cbn. f_equal. apply (IH (q ∘ S)). }
  apply mergeArray_valid.
Qed.

Lemma array_valid_elements (s : schema) (p : list pathItem) (l : list value) :
  parseAt (ZArray s) p (VArr l) = Valid (VArr l) →
  Forall (λ x, ∀ p', parseAt s p' x = Valid x) l.
Proof.
  change (parseAt (ZArray s) p (VArr l))
    with (mergeArray (imap (λ i x, parseAt s (p ++ [Index i]) x) l)).
  unfold mergeArray.
  destruct (forallb isValid _) eqn:Hall; [|done].
  intros [= Hl]. by apply (array_elements_valid _ _ _ Hall Hl).
Qed.

(** ** The envelope the handler builds *)

Lemma getProp_list_to_map_here (k : string) (v : value) (l : list (string * value)) :
  getProp (list_to_map ((k, v) :: l)) k = v.
Proof. unfold getProp. by rewrite list_to_map_cons, lookup_insert_eq. Qed.

Lemma getProp_list_to_map_further (k k' : string) (v : value)
    (l : list (string * value)) :
  k ≠ k' → getProp (list_to_map ((k, v) :: l)) k' = getProp (list_to_map l) k'.
Proof. intros Hne. unfold getProp. by rewrite list_to_map_cons, lookup_insert_ne. Qed.

Lemma parseAt_optional_defined (s : schema) (p : list pathItem) (v : value) :
  v ≠ VUndefined → parseAt (ZOptional s) p v = parseAt s p v.
Proof. by destruct v. Qed.

Lemma undefined_or_defined (v : value) : v = VUndefined ∨ v ≠ VUndefined.
Proof. destruct v; (by left) || (by right). Qed.

(** The title, version and description the handler lifts from a validated
    OpenAPI document are strings or [undefined]. *)
Lemma openApi_info_field (openApiJson openApi : value) (k : string) :
  safeParse openApiInfoSchema openApiJson = Valid openApi →
  k ∈ ["title"; "version"; "description"] →
  ∀ p, parseAt (ZOptional zString) p (Server.getField (Server.getField openApi "info") k)
       = Valid (Server.getField (Server.getField openApi "info") k).
Proof.
  intros Hparse Hk p. unfold safeParse, openApiInfoSchema in Hparse.
  eapply object_field_valid in Hparse as (out & -> & Hinfo);
    [|by vm_compute|apply list_elem_of_here].
  cbn [Server.getField]. specialize (Hinfo []).
  destruct (undefined_or_defined (getProp out "info")) as [->|Hdef]; [done|].
  rewrite parseAt_optional_defined in Hinfo by done.
  eapply object_field_valid with (k := k) (s := ZOptional zString) in Hinfo
    as (io & -> & Hfield); [| by vm_compute |].
  - cbn [Server.getField]. apply Hfield.
  - repeat (apply elem_of_cons in Hk as [->|Hk]);
      [apply list_elem_of_here
      |apply list_elem_of_further, list_elem_of_here
      |do 2 apply list_elem_of_further; apply list_elem_of_here
      |by apply elem_of_nil in Hk].
Qed.

(** The server URLs of a validated OpenAPI document are strings, and
    collecting them does not throw. *)
Lemma openApi_servers (openApiJson openApi : value) :
  safeParse openApiInfoSchema openApiJson = Valid openApi →
  ∃ urls, Server.serverUrls (Server.getField openApi "servers") = Return (VArr urls) ∧
          Forall (λ u, ∀ p, parseAt zString p u = Valid u) urls.
Proof.
  intros Hparse. unfold safeParse, openApiInfoSchema in Hparse.
  eapply object_field_valid in Hparse as (out & -> & Hservers);
    [|by vm_compute|apply list_elem_of_further, list_elem_of_here].
  cbn [Server.getField]. specialize (Hservers []).
  destruct (undefined_or_defined (getProp out "servers")) as [->|Hdef].
  { exists []. by split. }
  rewrite parseAt_optional_defined in Hservers by done.
  destruct (getProp out "servers") as [| | | | |l|]; try done.
  apply array_valid_elements in Hservers as Helems.
  eexists. split; [reflexivity|].
  clear Hdef Hservers. induction Helems as [|x l Hx _ IH]; [constructor|].
  cbn [map]. constructor; [|exact IH].
  specialize (Hx []).
  eapply object_field_valid with (k := "url") (s := zString) in Hx
    as (xo & -> & Hurl); [|by vm_compute|apply list_elem_of_here].
  cbn [Server.getField]. apply Hurl.
Qed.

(** An object whose properties are all named by the shape and are valid
    for it is returned as it is. *)
Lemma object_fixpoint (shape : list (string * schema)) (mode : unknownKeys)
    (p : list pathItem) (data : gmap string value) :
  NoDup (shape.*1) →
  (∀ k s, (k, s) ∈ shape →
     parseAt s (p ++ [Key k]) (getProp data k) = Valid (getProp data k)) →
  (∀ k, k ∉ shape.*1 → data !! k = None) →
  parseAt (ZObject shape mode) p (VObj data) = Valid (VObj data).
Proof.
  intros Hnodup Hfields Hkeys.
  change (parseAt (ZObject shape mode) p (VObj data))
    with (mergeObject mode data
            ((λ f, (f.1, parseAt f.2 (p ++ [Key f.1]) (getProp data f.1))) <$> shape)).
  assert ((λ f, (f.1, parseAt f.2 (p ++ [Key f.1]) (getProp data f.1))) <$> shape
          = (λ f, (f.1, Valid (getProp data f.1))) <$> shape) as ->.
  { apply list_fmap_ext. intros i [k s] Hi. simpl. f_equal.
    apply Hfields. by eapply list_elem_of_lookup_2. }
  set (results := (λ f : string * schema, (f.1, Valid (getProp data f.1))) <$> shape).
  assert (results.*1 = shape.*1) as Hrk.
  { unfold results. by rewrite <-list_fmap_compose. }
  unfold mergeObject.
  assert (forallb (λ r, isValid r.2) results = true) as ->.
  { unfold results. clear. induction shape; simpl; auto. }
  do 2 f_equal. apply map_eq. intros k.
  destruct (decide (k ∈ shape.*1)) as [Hk|Hk].
  - assert ((k, Valid (getProp data k)) ∈ results) as Hin.
    { apply list_elem_of_fmap in Hk as ([k' s] & -> & Hks).
      apply list_elem_of_fmap. by exists (k', s). }
    rewrite (foldl_setParsed_lookup _ _ _ _ (getProp data k)) by (by rewrite ?Hrk).
    rewrite extraKeys_lookup_shape by (by rewrite Hrk).
    unfold getProp. by destruct (data !! k) as [[]|].
  - rewrite foldl_setParsed_other, extraKeys_lookup by (by rewrite Hrk).
    rewrite (Hkeys k Hk). by destruct mode.
Qed.

(** The envelope the handler builds from validated parts is valid, and
    validation returns it unchanged. *)
Lemma handlerEnvelope_valid (openApiJson openApi projectsJson projects : value)
    (urls : list value) (now : string) :
  safeParse openApiInfoSchema openApiJson = Valid openApi →
  safeParse projectListSchema projectsJson = Valid projects →
  Forall (λ u, ∀ p, parseAt zString p u = Valid u) urls →
  safeParse configResponseSchema (VObj (handlerEnvelope openApi projects (VArr urls) now))
  = Valid (VObj (handlerEnvelope openApi projects (VArr urls) now)).
Proof.
  intros Hopen Hprojects Hurls. unfold safeParse, configResponseSchema.
  apply object_fixpoint.
  - apply (bool_decide_unpack _). by vm_compute.
  - intros k s Hks. unfold handlerEnvelope.
    repeat (apply elem_of_cons in Hks as [[= -> ->]|Hks]);
      [| |by apply elem_of_nil in Hks].
    + rewrite getProp_list_to_map_here.
      apply (parseAt_idempotent projectListSchema) with (p := []) (v := projectsJson);
        [by vm_compute|done].
    + rewrite getProp_list_to_map_further by done.
      rewrite getProp_list_to_map_here.
      apply object_fixpoint.
      * apply (bool_decide_unpack _). by vm_compute.
      * intros k s Hks.
        repeat (apply elem_of_cons in Hks as [[= -> ->]|Hks]);
          [| | | | |by apply elem_of_nil in Hks];
          rewrite ?getProp_list_to_map_further by done;
          rewrite getProp_list_to_map_here.
        -- apply (openApi_info_field openApiJson); [done|].
           apply list_elem_of_here.
        -- apply (openApi_info_field openApiJson); [done|].
           apply list_elem_of_further, list_elem_of_here.
        -- apply (openApi_info_field openApiJson); [done|].
           do 2 apply list_elem_of_further. apply list_elem_of_here.
        -- change (parseAt (ZDefault (ZArray zString) (VArr [])) ?q (VArr urls))
             with (parseAt (ZArray zString) q (VArr urls)).
           by apply array_of_valid.
        -- done.
      * intros k Hk. apply not_elem_of_list_to_map_1. exact Hk.
  - intros k Hk. unfold handlerEnvelope. apply not_elem_of_list_to_map_1. exact Hk.
Qed.

(** ** The handler, step by step *)

Section HandlerSteps.
Variable zodMessage : list issue → string.
Variable secondRejectsFirst : bool.
Variable now : string.

(** What the handler does once the base URL is known and the two
    requests have settled. *)
Lemma configHandler_settled
    (fetch : string → list (string * string) → completion Server.FetchResponse)
    (DOKPLOY_BASE_URL DOKPLOY_API_KEY : option string) (base : string) :
  sanitizeBaseUrl (coalesce DOKPLOY_BASE_URL "") = Some base →
  Server.configHandler zodMessage fetch secondRejectsFirst now
    DOKPLOY_BASE_URL DOKPLOY_API_KEY
  = tryCatch
      (responses ← Server.promiseAll secondRejectsFirst
         (fetch (base +:+ "/settings.getOpenApiDocument")
            (requestHeaders DOKPLOY_API_KEY))
         (fetch (base +:+ "/project.all") (requestHeaders DOKPLOY_API_KEY));
       if negb (Server.ok responses.1) then
         Throw ("Unable to load Dokploy OpenAPI document ("
                  +:+ pretty (Server.status responses.1) +:+ " "
                  +:+ Server.statusText responses.1 +:+ ")")
       else if negb (Server.ok responses.2) then
         Throw ("Unable to load Dokploy projects ("
                  +:+ pretty (Server.status responses.2) +:+ " "
                  +:+ Server.statusText responses.2 +:+ ")")
       else
         openApiJson ← Server.json responses.1;
         projectsJson ← Server.json responses.2;
         openApi ← Server.parse zodMessage openApiInfoSchema openApiJson;
         projects ← Server.parse zodMessage projectListSchema projectsJson;
         servers ← Server.serverUrls (Server.getField openApi "servers");
         payload ← Server.parse zodMessage configResponseSchema
                     (VObj (handlerEnvelope openApi projects servers now));
         Return (Server.mkHttpResponse 200 payload [("cache-control", "no-store")]))
      (λ message, Return (Server.errorResponse message)).
Proof.
  intros Hbase. unfold Server.configHandler. rewrite Hbase. cbv zeta.
  rewrite (sanitizeBaseUrl_truthy _ _ Hbase). cbn [negb].
  by rewrite configHandler_headers.
Qed.

(** X10. The handler never throws.  It answers either 500 with a body
    that holds one [error] message, or 200 with the header
    [cache-control: no-store] and a body that the envelope schema
    accepts and returns unchanged. *)
Theorem configHandler_total
    (fetch : string → list (string * string) → completion Server.FetchResponse)
    (DOKPLOY_BASE_URL DOKPLOY_API_KEY : option string) :
  ∃ response,
    Server.configHandler zodMessage fetch secondRejectsFirst now
      DOKPLOY_BASE_URL DOKPLOY_API_KEY = Return response ∧
    ((∃ message,
        response
        = Server.mkHttpResponse 500 (VObj {[ "error" := VStr message ]}) []) ∨
     (∃ payload,
        response = Server.mkHttpResponse 200 payload [("cache-control", "no-store")] ∧
        safeParse configResponseSchema payload = Valid payload)).
Proof.
  destruct (sanitizeBaseUrl (coalesce DOKPLOY_BASE_URL "")) as [base|] eqn:Hbase.
  2: { rewrite configHandler_missing_base by done. eauto. }
  rewrite (configHandler_settled _ _ _ base Hbase).
  destruct (fetch (base +:+ "/settings.getOpenApiDocument") _) as [r1|e1],
    (fetch (base +:+ "/project.all") _) as [r2|e2]; cbn [mbind completion_bind tryCatch Server.promiseAll negb fst snd]; eauto.
  destruct (Server.ok r1); cbn [mbind completion_bind tryCatch Server.promiseAll negb fst snd]; eauto.
  destruct (Server.ok r2); cbn [mbind completion_bind tryCatch Server.promiseAll negb fst snd]; eauto.
  destruct (Server.json r1) as [j1|]; cbn [mbind completion_bind tryCatch Server.promiseAll negb fst snd]; eauto.
  destruct (Server.json r2) as [j2|]; cbn [mbind completion_bind tryCatch Server.promiseAll negb fst snd]; eauto.
  unfold Server.parse.
  destruct (safeParse openApiInfoSchema j1) as [openApi|]; cbn [mbind completion_bind tryCatch Server.promiseAll negb fst snd]; eauto.
  destruct (safeParse projectListSchema j2) as [projects|]; cbn [mbind completion_bind tryCatch Server.promiseAll negb fst snd]; eauto.
  destruct (Server.serverUrls _) as [servers|]; cbn [mbind completion_bind tryCatch Server.promiseAll negb fst snd]; eauto.
  destruct (safeParse configResponseSchema _) as [payload|] eqn:Hpayload; cbn [mbind completion_bind tryCatch Server.promiseAll negb fst snd]; eauto.
  eexists. split; [done|]. right. exists payload. split; [done|].
  eapply parseAt_idempotent; [by vm_compute|exact Hpayload].
Qed.

(** X11. When the base URL is configured, both calls answer with a
    success status and their bodies are JSON that the schemas accept,
    the handler answers 200 with exactly the envelope it assembled: the
    validated projects and the meta record.  The last validation neither
    rejects nor changes it. *)
Theorem configHandler_valid_upstream
    (fetch : string → list (string * string) → completion Server.FetchResponse)
    (DOKPLOY_BASE_URL DOKPLOY_API_KEY : option string) (base : string)
    (openApiResponse projectsResponse : Server.FetchResponse)
    (openApiJson projectsJson openApi projects : value) :
  sanitizeBaseUrl (coalesce DOKPLOY_BASE_URL "") = Some base →
  fetch (base +:+ "/settings.getOpenApiDocument") (requestHeaders DOKPLOY_API_KEY)
    = Return openApiResponse →
  fetch (base +:+ "/project.all") (requestHeaders DOKPLOY_API_KEY)
    = Return projectsResponse →
  Server.ok openApiResponse = true → Server.ok projectsResponse = true →
  Server.json openApiResponse = Return openApiJson →
  Server.json projectsResponse = Return projectsJson →
  safeParse openApiInfoSchema openApiJson = Valid openApi →
  safeParse projectListSchema projectsJson = Valid projects →
  ∃ servers,
    Server.serverUrls (Server.getField openApi "servers") = Return servers ∧
    Server.configHandler zodMessage fetch secondRejectsFirst now
      DOKPLOY_BASE_URL DOKPLOY_API_KEY
    = Return
        (Server.mkHttpResponse 200
           (VObj (handlerEnvelope openApi projects servers now))
           [("cache-control", "no-store")]).
Proof.
  intros Hbase Hfetch1 Hfetch2 Hok1 Hok2 Hjson1 Hjson2 Hopen Hprojects.
  destruct (openApi_servers _ _ Hopen) as (urls & Hservers & Hurls).
  exists (VArr urls). split; [done|].
  rewrite (configHandler_settled _ _ _ base Hbase), Hfetch1, Hfetch2. cbn [mbind completion_bind tryCatch Server.promiseAll negb fst snd].
  rewrite Hok1, Hok2. cbn [mbind completion_bind tryCatch Server.promiseAll negb fst snd]. rewrite Hjson1, Hjson2. cbn [mbind completion_bind tryCatch Server.promiseAll negb fst snd].
  unfold Server.parse. rewrite Hopen, Hprojects. cbn [mbind completion_bind tryCatch Server.promiseAll negb fst snd]. rewrite Hservers. cbn [mbind completion_bind tryCatch Server.promiseAll negb fst snd].
  by rewrite (handlerEnvelope_valid _ _ _ _ _ _ Hopen Hprojects Hurls).
Qed.

(** X12. A request that fails before any answer arrives (the promise
    of [fetch] rejects) makes the handler answer 500 with the reason of
    a rejected request, whatever the other request answered. *)
Theorem configHandler_network_failure
    (fetch : string → list (string * string) → completion Server.FetchResponse)
    (DOKPLOY_BASE_URL DOKPLOY_API_KEY : option string) (base reason : string) :
  sanitizeBaseUrl (coalesce DOKPLOY_BASE_URL "") = Some base →
  fetch (base +:+ "/settings.getOpenApiDocument") (requestHeaders DOKPLOY_API_KEY)
    = Throw reason ∨
  fetch (base +:+ "/project.all") (requestHeaders DOKPLOY_API_KEY) = Throw reason →
  ∃ message,
    Server.configHandler zodMessage fetch secondRejectsFirst now
      DOKPLOY_BASE_URL DOKPLOY_API_KEY
    = Return (Server.mkHttpResponse 500 (VObj {[ "error" := VStr message ]}) []) ∧
    (fetch (base +:+ "/settings.getOpenApiDocument") (requestHeaders DOKPLOY_API_KEY)
       = Throw message ∨
     fetch (base +:+ "/project.all") (requestHeaders DOKPLOY_API_KEY) = Throw message).
Proof.
  intros Hbase Hreject. rewrite (configHandler_settled _ _ _ base Hbase).
  destruct (fetch (base +:+ "/settings.getOpenApiDocument") _) as [r1|e1],
    (fetch (base +:+ "/project.all") _) as [r2|e2]; cbn [mbind completion_bind tryCatch Server.promiseAll negb fst snd].
  - by destruct Hreject.
  - eauto.
  - eauto.
  - destruct secondRejectsFirst; eauto.
Qed.

(** X13. When both calls answer with a success status, a body that is
    not JSON or that its schema rejects makes the handler answer 500:
    with the message of the body error, or with the message of the
    validation error for the issues found.  Both bodies are read before
    either is validated, the OpenAPI body first each time. *)
Theorem configHandler_invalid_body
    (fetch : string → list (string * string) → completion Server.FetchResponse)
    (DOKPLOY_BASE_URL DOKPLOY_API_KEY : option string) (base : string)
    (openApiResponse projectsResponse : Server.FetchResponse) :
  sanitizeBaseUrl (coalesce DOKPLOY_BASE_URL "") = Some base →
  fetch (base +:+ "/settings.getOpenApiDocument") (requestHeaders DOKPLOY_API_KEY)
    = Return openApiResponse →
  fetch (base +:+ "/project.all") (requestHeaders DOKPLOY_API_KEY)
    = Return projectsResponse →
  Server.ok openApiResponse = true → Server.ok projectsResponse = true →
  (∀ message,
     Server.json openApiResponse = Throw message ∨
     ((∃ openApiJson, Server.json openApiResponse = Return openApiJson) ∧
      Server.json projectsResponse = Throw message) →
     Server.configHandler zodMessage fetch secondRejectsFirst now
       DOKPLOY_BASE_URL DOKPLOY_API_KEY
     = Return (Server.errorResponse message)) ∧
  (∀ openApiJson projectsJson issues,
     Server.json openApiResponse = Return openApiJson →
     Server.json projectsResponse = Return projectsJson →
     safeParse openApiInfoSchema openApiJson = Invalid issues ∨
     (isValid (safeParse openApiInfoSchema openApiJson) = true ∧
      safeParse projectListSchema projectsJson = Invalid issues) →
     Server.configHandler zodMessage fetch secondRejectsFirst now
       DOKPLOY_BASE_URL DOKPLOY_API_KEY
     = Return (Server.errorResponse (zodMessage issues))).
Proof.
  intros Hbase Hfetch1 Hfetch2 Hok1 Hok2.
  rewrite (configHandler_settled _ _ _ base Hbase), Hfetch1, Hfetch2.
  cbn [mbind completion_bind tryCatch Server.promiseAll negb fst snd].
  rewrite Hok1, Hok2.
  cbn [mbind completion_bind tryCatch Server.promiseAll negb fst snd].
  split.
  - intros message [Hj1|[Hj1 Hj2]].
    + by rewrite Hj1.
    + destruct Hj1 as [j1 ->].
      cbn [mbind completion_bind tryCatch]. by rewrite Hj2.
  - intros j1 j2 issues Hj1 Hj2 Hinvalid. rewrite Hj1, Hj2.
    cbn [mbind completion_bind tryCatch]. unfold Server.parse.
    destruct Hinvalid as [Hopen|[Hopen Hprojects]].
    + by rewrite Hopen.
    + destruct (safeParse openApiInfoSchema j1) as [openApi|]; [|done].
      cbn [mbind completion_bind tryCatch]. by rewrite Hprojects.
Qed.

(** X14. The handler uses the network for two requests only:
    [{base}/settings.getOpenApiDocument] and [{base}/project.all], both
    with the header [Accept] and, when a key is configured, [x-api-key].
    Two upstreams that settle these two requests alike get the same
    answer. *)
Theorem configHandler_requests
    (fetch fetch' : string → list (string * string) → completion Server.FetchResponse)
    (DOKPLOY_BASE_URL DOKPLOY_API_KEY : option string) :
  (∀ base, sanitizeBaseUrl (coalesce DOKPLOY_BASE_URL "") = Some base →
     fetch (base +:+ "/settings.getOpenApiDocument") (requestHeaders DOKPLOY_API_KEY)
     = fetch' (base +:+ "/settings.getOpenApiDocument") (requestHeaders DOKPLOY_API_KEY) ∧
     fetch (base +:+ "/project.all") (requestHeaders DOKPLOY_API_KEY)
     = fetch' (base +:+ "/project.all") (requestHeaders DOKPLOY_API_KEY)) →
  Server.configHandler zodMessage fetch secondRejectsFirst now
    DOKPLOY_BASE_URL DOKPLOY_API_KEY
  = Server.configHandler zodMessage fetch' secondRejectsFirst now
      DOKPLOY_BASE_URL DOKPLOY_API_KEY.
Proof.
  intros Hsame.
  destruct (sanitizeBaseUrl (coalesce DOKPLOY_BASE_URL "")) as [base|] eqn:Hbase.
  - destruct (Hsame base eq_refl) as [H1 H2].
    by rewrite !(configHandler_settled _ _ _ base Hbase), H1, H2.
  - by rewrite !configHandler_missing_base.
Qed.
End HandlerSteps.

Lemma configHandler_valid_upstream_witness :
  ∃ payload,
    Server.configHandler countIssues healthyFetch false "2024-01-01T00:00:00.000Z"
      (Some "https://host/") (Some "secret")
    = Return (Server.mkHttpResponse 200 payload [("cache-control", "no-store")]).
Proof.
  edestruct (configHandler_valid_upstream countIssues false "2024-01-01T00:00:00.000Z"
               healthyFetch (Some "https://host/") (Some "secret") "https://host/api")
    as (servers & _ & Hanswer).
  - reflexivity.
  - reflexivity.
  - reflexivity.
  - reflexivity.
  - reflexivity.
  - reflexivity.
  - reflexivity.
  - vm_compute. reflexivity.
  - vm_compute. reflexivity.
  - eexists. exact Hanswer.
Defined.

Lemma configHandler_network_failure_witness :
  Server.configHandler countIssues refusedFetch false "2024-01-01T00:00:00.000Z"
    (Some "https://host/") None
  = Return (Server.mkHttpResponse 500 (VObj {[ "error" := VStr "Unable to connect" ]}) []).
Proof.
  destruct (configHandler_network_failure countIssues false "2024-01-01T00:00:00.000Z"
              refusedFetch (Some "https://host/") None "https://host/api"
              "Unable to connect" eq_refl (or_introl eq_refl))
    as (message & Hanswer & [[= <-]|[= <-]]); exact Hanswer.
Defined.

Lemma configHandler_invalid_body_witness :
  Server.configHandler countIssues malformedFetch false "2024-01-01T00:00:00.000Z"
    (Some "https://host/") None
  = Return (Server.mkHttpResponse 500 (VObj {[ "error" := VStr "1 issue(s)" ]}) []).
Proof.
  destruct (configHandler_invalid_body countIssues false "2024-01-01T00:00:00.000Z"
              malformedFetch (Some "https://host/") None "https://host/api"
              (Server.mkFetchResponse 200 "OK" (Return (VObj ∅)))
              (Server.mkFetchResponse 200 "OK" (Return (VObj ∅)))
              eq_refl eq_refl eq_refl eq_refl eq_refl) as [_ Hinvalid].
  apply (Hinvalid (VObj ∅) (VObj ∅) [mkIssue invalid_type []] eq_refl eq_refl).
  right. split; by vm_compute.
Defined.

Lemma configHandler_requests_witness :
  Server.configHandler countIssues healthyFetch false "2024-01-01T00:00:00.000Z"
    (Some "https://host/") (Some "secret")
  = Server.configHandler countIssues twoRequestsFetch false "2024-01-01T00:00:00.000Z"
      (Some "https://host/") (Some "secret").
Proof.
  apply configHandler_requests. intros base [= <-]. split; reflexivity.
Defined.

(** ** More on the base URL *)

Lemma testApiSegment_app_api (s : string) : testApiSegment (s +:+ "/api") = true.
Proof.
  apply testApiSegment_spec. exists s, "". split; [done|by left].
Qed.

(** X15. The base URL is null exactly when the input is empty or white
    space only.  A base URL that is not null is not empty, and its text
    contains [/api] followed by a slash or by the end of the text
    (anywhere in the text: in [https://api] it is the host). *)
Theorem sanitizeBaseUrl_api_segment (input : string) :
  match sanitizeBaseUrl input with
  | Some base => containsApiSegment base ∧ base ≠ "" ∧ allWhiteSpace input = false
  | None => allWhiteSpace input = true
  end.
Proof.
  assert (∀ s, trimStart s = "" ↔ allWhiteSpace s = true) as HtrimStart.
  { induction s as [|c s IH]; [done|]. simpl.
    destruct (isWhiteSpace c); [exact IH|done]. }
  assert (∀ s, trimEnd s = "" → trimStart s = "") as HtrimEnd.
  { induction s as [|c s IH]; [done|]. simpl.
    destruct (trimEnd s); [|done].
    destruct (isWhiteSpace c); [intros _; by apply IH|done]. }
  assert (trim input = "" ↔ allWhiteSpace input = true) as Htrim.
  { unfold trim. rewrite <-HtrimStart. split.
    - intros H%HtrimEnd. destruct (trimStart_spec input) as (pre & _ & _ & Hhead).
      destruct (trimStart input) as [|c r]; [done|].
      simpl in H. by rewrite (Hhead c r) in H.
    - by intros ->. }
  unfold sanitizeBaseUrl. destruct (trim input) as [|c t] eqn:Ht; cbn [truthy_string negb].
  - by apply Htrim.
  - assert (allWhiteSpace input = false) as Hinput.
    { destruct (allWhiteSpace input); [|done]. discriminate (proj2 Htrim eq_refl). }
    destruct (testApiSegment (stripTrailingSlash (String c t))) eqn:Htest; cbn [negb].
    + split; [by apply testApiSegment_spec|]. split; [|done].
      intros Hempty. by rewrite Hempty in Htest.
    + split; [apply testApiSegment_spec, testApiSegment_app_api|]. split; [|done].
      by destruct (stripTrailingSlash (String c t)).
Qed.

Lemma allWhiteSpace_trimStart (pre s : string) :
  allWhiteSpace pre = true → trimStart (pre +:+ s) = trimStart s.
Proof.
  induction pre as [|c pre IH]; [done|]. simpl.
  intros [-> Hpre]%andb_true_iff. by apply IH.
Qed.

Lemma trimEnd_allWhiteSpace (post : string) :
  allWhiteSpace post = true → trimEnd post = "".
Proof.
  induction post as [|c post IH]; [done|]. simpl.
  intros [-> Hpost]%andb_true_iff. by rewrite IH.
Qed.

Lemma trimEnd_app (s t : string) :
  trimEnd (s +:+ t) = match trimEnd t with "" => trimEnd s | String c r => s +:+ String c r end.
Proof.
  induction s as [|c s IH]; simpl.
  - by destruct (trimEnd t).
  - rewrite IH. destruct (trimEnd t) as [|c' r]; [done|]. by destruct s.
Qed.

Lemma trimEnd_trimmed (s : string) :
  (∀ c r, s = r +:+ String c "" → isWhiteSpace c = false) → trimEnd s = s.
Proof.
  induction s as [|c s IH]; [done|]. intros Hlast. simpl.
  destruct s as [|c' s].
  - simpl. by rewrite (Hlast c "").
  - rewrite IH; [done|]. intros c0 r Hr. apply (Hlast c0 (String c r)).
    simpl. by rewrite Hr.
Qed.

Lemma trim_trimmed (s : string) : isTrimmed s → trim s = s.
Proof.
  intros [Hfirst Hlast]. unfold trim.
  assert (trimStart s = s) as ->.
  { destruct s as [|c r]; [done|]. simpl. by rewrite (Hfirst c r). }
  by apply trimEnd_trimmed.
Qed.

Lemma length_append (s t : string) :
  String.length (s +:+ t) = (String.length s + String.length t)%nat.
Proof. induction s as [|c s IH]; [done|]. simpl. by rewrite IH. Qed.

(** White space around a text that has none at its ends is removed. *)
Lemma trim_surrounded (pre s post : string) :
  allWhiteSpace pre = true → allWhiteSpace post = true →
  s ≠ "" → trim s = s → trim (pre +:+ s +:+ post) = s.
Proof.
  intros Hpre Hpost Hne Hs. unfold trim in *.
  rewrite allWhiteSpace_trimStart by done.
  assert (trimStart s = s) as Hstart.
  { destruct s as [|c r]; [done|]. simpl in *.
    destruct (isWhiteSpace c) eqn:Hc; [|done].
    destruct (trimStart_spec r) as (pre' & Hr & _ & _).
    destruct (trimEnd_spec (trimStart r)) as (post' & Ht & _ & _).
    apply (f_equal String.length) in Hr, Ht, Hs.
    rewrite length_append in Hr, Ht. simpl in Hs. lia. }
  assert (trimStart (s +:+ post) = s +:+ post) as ->.
  { destruct s as [|c r]; [done|]. simpl in *.
    destruct (isWhiteSpace c); [|done].
    destruct (trimStart_spec r) as (pre' & Hr & _ & _).
    apply (f_equal String.length) in Hstart, Hr.
    rewrite length_append in Hr. simpl in Hstart. lia. }
  rewrite trimEnd_app, trimEnd_allWhiteSpace by done.
  by rewrite Hstart in Hs.
Qed.

Lemma stripTrailingSlash_app (s t : string) :
  t ≠ "" → stripTrailingSlash (s +:+ t) = s +:+ stripTrailingSlash t.
Proof.
  intros Ht. induction s as [|c s IH]; [done|]. simpl. rewrite IH.
  destruct (s +:+ t) as [|c' r] eqn:Hst; [|done].
  by destruct s, t.
Qed.

Lemma append_empty_r (s : string) : s +:+ "" = s.
Proof. induction s as [|c s IH]; [done|]. simpl. by rewrite IH. Qed.


(** X16. The ways of writing the base URL give the same result: for a
    host part [h] that is not empty, has no white space at its ends, does
    not end with a slash and contains no [/api] segment, the inputs [h],
    [h/], [h/api] and [h/api/], each with any white space around it, are
    all normalised to [h/api]. *)
Theorem sanitizeBaseUrl_forms (h pre post : string) :
  h ≠ "" → isTrimmed h → (∀ r, h ≠ r +:+ "/") → ¬ containsApiSegment h →
  allWhiteSpace pre = true → allWhiteSpace post = true →
  ∀ form, form ∈ [h; h +:+ "/"; h +:+ "/api"; h +:+ "/api/"] →
    sanitizeBaseUrl (pre +:+ form +:+ post) = Some (h +:+ "/api").
Proof.
  intros Hne Htrimmed Hslash Hapi Hpre Hpost form Hform.
  assert (stripTrailingSlash h = h) as Hstrip.
  { by destruct (stripTrailingSlash_spec h) as [Hh|[_ ?]]; [destruct (Hslash _ Hh)|]. }
  assert (testApiSegment h = false) as Htest.
  { destruct (testApiSegment h) eqn:Htest; [|done].
    by apply testApiSegment_spec in Htest. }
  assert (∀ t c r, trimEnd t = String c r → trim (h +:+ t) = h +:+ String c r)
    as Htrim.
  { intros t c r Ht. unfold trim.
    destruct h as [|c0 r0]; [done|].
    change ((String c0 r0) +:+ t) with (String c0 (r0 +:+ t)).
    cbn [trimStart]. destruct Htrimmed as [Hfirst _].
    rewrite (Hfirst c0 r0 eq_refl).
    change (String c0 (r0 +:+ t)) with ((String c0 r0) +:+ t).
    by rewrite trimEnd_app, Ht. }
  assert (∀ t, h +:+ t ≠ "") as Hnonempty by (intros t; by destruct h).
  unfold sanitizeBaseUrl.
  repeat (apply elem_of_cons in Hform as [->|Hform]);
    [| | | |by apply elem_of_nil in Hform].
  - rewrite trim_surrounded by (done || by apply trim_trimmed).
    apply truthy_string_true in Hne as ->. cbn [negb].
    by rewrite Hstrip, Htest.
  - rewrite trim_surrounded by (done || by apply (Htrim "/" "/"%char "")).
    destruct (h +:+ "/") as [|c r] eqn:Hh; [by destruct (Hnonempty "/")|].
    cbn [truthy_string negb]. rewrite <-Hh.
    rewrite stripTrailingSlash_app by done. cbn [stripTrailingSlash Ascii.eqb].
    simpl. by rewrite append_empty_r, Htest.
  - rewrite trim_surrounded by (done || by apply (Htrim "/api" "/"%char "api")).
    destruct (h +:+ "/api") as [|c r] eqn:Hh; [by destruct (Hnonempty "/api")|].
    cbn [truthy_string negb]. rewrite <-Hh.
    rewrite stripTrailingSlash_app by done.
    change (stripTrailingSlash "/api") with "/api".
    by rewrite testApiSegment_app_api.
  - rewrite trim_surrounded by (done || by apply (Htrim "/api/" "/"%char "api/")).
    destruct (h +:+ "/api/") as [|c r] eqn:Hh; [by destruct (Hnonempty "/api/")|].
    cbn [truthy_string negb]. rewrite <-Hh.
    rewrite stripTrailingSlash_app by done.
    change (stripTrailingSlash "/api/") with "/api".
    by rewrite testApiSegment_app_api.
Qed.

Lemma sanitizeBaseUrl_forms_witness :
  sanitizeBaseUrl (" " +:+ ("https://host" +:+ "/api/") +:+ " ")
  = Some ("https://host" +:+ "/api").
Proof.
  apply (sanitizeBaseUrl_forms "https://host" " " " ").
  - discriminate.
  - destruct (trim_spec "https://host") as (? & ? & _ & _ & _ & Htrimmed).
    exact Htrimmed.
  - intros r Hr.
    destruct (stripTrailingSlash_spec "https://host") as [Hh|[Hh _]].
    + discriminate Hh.
    + exact (Hh r Hr).
  - intros Hapi%testApiSegment_spec. discriminate Hapi.
  - reflexivity.
  - reflexivity.
  - do 3 apply list_elem_of_further. apply list_elem_of_here.
Defined.

(** ** Validated values have the inferred type *)

Lemma validFor_parsed (s : schema) (p : list pathItem) (v v' : value) :
  wellFormed s = true → parseAt s p v = Valid v' → validFor s v'.
Proof. intros Hwf Hv p'. by apply (parseAt_idempotent s Hwf p v). Qed.

Lemma readsAs_string (n : nat) :
  readsAs (ZString n) asString (λ s, (n ≤ String.length s)%nat).
Proof.
  intros x Hx. specialize (Hx []). cbn [parseAt] in Hx.
  destruct x; try done. eexists. split; [done|].
  destruct (n <=? String.length s)%nat eqn:Hn; [|done]. by apply Nat.leb_le.
Qed.

Lemma readsAs_boolean : readsAs ZBoolean asBoolean (λ _, True).
Proof. intros x Hx. specialize (Hx []). destruct x; try done. by eexists. Qed.

Lemma readsAs_number : readsAs ZNumber asNumber (λ _, True).
Proof. intros x Hx. specialize (Hx []). destruct x; try done. by eexists. Qed.

Lemma readsAs_optional {A} (s : schema) (read : value → option A) (P : A → Prop) :
  readsAs s read P →
  readsAs (ZOptional s) (asOptional read) (λ o, ∀ a, o = Some a → P a).
Proof.
  intros Hs x Hx.
  destruct (undefined_or_defined x) as [->|Hdef].
  { exists None. by split. }
  destruct (Hs x) as (a & Ha & HP).
  { intros p. specialize (Hx p). by rewrite parseAt_optional_defined in Hx. }
  exists (Some a). split; [|by intros ? [= <-]].
  destruct x; try done; cbn [asOptional]; by rewrite Ha.
Qed.

Lemma readsAs_nullable_optional {A} (s : schema) (read : value → option A)
    (P : A → Prop) :
  readsAs s read P →
  readsAs (ZNullable (ZOptional s)) (asNullish read) (λ m, ∀ a, m = Val a → P a).
Proof.
  intros Hs x Hx.
  destruct x as [| |b|n|t|l|o] eqn:Ex;
    [by exists Undefined|by exists Null|..];
    (destruct (Hs x) as (a & Ha & HP);
     [subst x; intros p; exact (Hx p)
     |subst x; exists (Val a); split;
      [cbn [asNullish]; by rewrite Ha|by intros ? [= <-]]]).
Qed.

Lemma readsAs_optional_nullable {A} (s : schema) (read : value → option A)
    (P : A → Prop) :
  readsAs s read P →
  readsAs (ZOptional (ZNullable s)) (asNullish read) (λ m, ∀ a, m = Val a → P a).
Proof.
  intros Hs x Hx.
  destruct x as [| |b|n|t|l|o] eqn:Ex;
    [by exists Undefined|by exists Null|..];
    (destruct (Hs x) as (a & Ha & HP);
     [subst x; intros p; exact (Hx p)
     |subst x; exists (Val a); split;
      [cbn [asNullish]; by rewrite Ha|by intros ? [= <-]]]).
Qed.

Lemma readsAs_array {A} (s : schema) (read : value → option A) (P : A → Prop) :
  readsAs s read P → readsAs (ZArray s) (asArray read) (Forall P).
Proof.
  intros Hs x Hx. pose proof (Hx []) as Hx0.
  destruct x as [| | | | |l|]; try done.
  apply array_valid_elements in Hx0. cbn [asArray]. clear Hx.
  induction Hx0 as [|y l Hy _ (ys & Hys & HP)].
  - exists []. by split.
  - destruct (Hs y Hy) as (a & Ha & HPa). exists (a :: ys).
    split; [|by constructor]. cbn. rewrite Ha. cbn. by rewrite Hys.
Qed.

Lemma readsAs_default_array {A} (s : schema) (read : value → option A) (P : A → Prop) :
  readsAs s read P → readsAs (ZDefault (ZArray s) (VArr [])) (asArray read) (Forall P).
Proof.
  intros Hs x Hx.
  destruct (undefined_or_defined x) as [->|Hdef]; [by specialize (Hx [])|].
  apply (readsAs_array s read P Hs). intros p. specialize (Hx p).
  by destruct x.
Qed.

(** The properties of a value valid for an object schema. *)
Lemma validFor_object (shape : list (string * schema)) (mode : unknownKeys)
    (x : value) :
  wellFormed (ZObject shape mode) = true →
  validFor (ZObject shape mode) x →
  ∃ o, x = VObj o ∧ ∀ k s, (k, s) ∈ shape → validFor s (getProp o k).
Proof.
  intros Hwf Hx. pose proof (Hx []) as Hx0.
  destruct x as [| | | | | |o]; try done.
  exists o. split; [done|]. intros k s Hks.
  destruct (object_field_valid shape mode [] (VObj o) (VObj o) k s Hwf Hx0 Hks)
    as (o' & [= <-] & Hfield).
  exact Hfield.
Qed.

Ltac in_shape :=
  first [apply list_elem_of_here | apply list_elem_of_further; in_shape].

Ltac read_field Hfields k Hreads :=
  let a := fresh "a" in
  let Ha := fresh "Ha" in
  let HP := fresh "HP" in
  edestruct Hreads as (a & Ha & HP); [eapply (Hfields k); in_shape|];
  rewrite Ha; cbn [mbind option_bind].

Lemma readsAs_domain : readsAs domainSchema asDomain (λ d, Domain.host d ≠ "").
Proof.
  intros x Hx.
  apply validFor_object in Hx as (o & -> & Hfields); [|by vm_compute].
  cbn [asDomain].
  read_field Hfields "domainId" (readsAs_optional _ _ _ (readsAs_string 0)).
  read_field Hfields "host" (readsAs_string 1).
  read_field Hfields "https" (readsAs_optional _ _ _ readsAs_boolean).
  read_field Hfields "port" (readsAs_nullable_optional _ _ _ readsAs_number).
  read_field Hfields "path" (readsAs_nullable_optional _ _ _ (readsAs_string 0)).
  read_field Hfields "serviceName" (readsAs_nullable_optional _ _ _ (readsAs_string 0)).
  eexists. split; [done|]. cbn. intros ->. cbn in *. lia.
Qed.

Lemma readsAs_resource : readsAs resourceSchema asResource resourceHasHosts.
Proof.
  intros x Hx.
  apply validFor_object in Hx as (o & -> & Hfields); [|by vm_compute].
  cbn [asResource].
  read_field Hfields "composeId" (readsAs_optional _ _ _ (readsAs_string 0)).
  read_field Hfields "applicationId" (readsAs_optional _ _ _ (readsAs_string 0)).
  read_field Hfields "databaseId" (readsAs_optional _ _ _ (readsAs_string 0)).
  read_field Hfields "name" (readsAs_optional _ _ _ (readsAs_string 0)).
  read_field Hfields "appName" (readsAs_optional _ _ _ (readsAs_string 0)).
  read_field Hfields "composeStatus" (readsAs_optional _ _ _ (readsAs_string 0)).
  read_field Hfields "status" (readsAs_optional _ _ _ (readsAs_string 0)).
  read_field Hfields "domains"
    (readsAs_nullable_optional _ _ _ (readsAs_array _ _ _ readsAs_domain)).
  eexists. split; [done|]. unfold resourceHasHosts. cbn.
  match goal with |- Forall _ (nullish ?m _) => destruct m as [| |ds] end;
    [constructor|constructor|]. cbn. auto.
Qed.

Lemma readsAs_environment :
  readsAs environmentSchema asEnvironment environmentHasHosts.
Proof.
  intros x Hx.
  apply validFor_object in Hx as (o & -> & Hfields); [|by vm_compute].
  cbn [asEnvironment].
  read_field Hfields "environmentId" (readsAs_optional _ _ _ (readsAs_string 0)).
  read_field Hfields "name" (readsAs_optional _ _ _ (readsAs_string 0)).
  read_field Hfields "description" (readsAs_optional_nullable _ _ _ (readsAs_string 0)).
  read_field Hfields "applications"
    (readsAs_optional _ _ _ (readsAs_array _ _ _ readsAs_resource)).
  read_field Hfields "compose"
    (readsAs_optional _ _ _ (readsAs_array _ _ _ readsAs_resource)).
  read_field Hfields "postgres"
    (readsAs_optional _ _ _ (readsAs_array _ _ _ readsAs_resource)).
  read_field Hfields "mysql"
    (readsAs_optional _ _ _ (readsAs_array _ _ _ readsAs_resource)).
  read_field Hfields "mariadb"
    (readsAs_optional _ _ _ (readsAs_array _ _ _ readsAs_resource)).
  read_field Hfields "mongo"
    (readsAs_optional _ _ _ (readsAs_array _ _ _ readsAs_resource)).
  read_field Hfields "redis"
    (readsAs_optional _ _ _ (readsAs_array _ _ _ readsAs_resource)).
  eexists. split; [done|]. intros k resources. destruct k; cbn; auto.
Qed.

Lemma readsAs_project : readsAs projectSchema asProject projectHasHosts.
Proof.
  intros x Hx.
  apply validFor_object in Hx as (o & -> & Hfields); [|by vm_compute].
  cbn [asProject].
  read_field Hfields "projectId" (readsAs_optional _ _ _ (readsAs_string 0)).
  read_field Hfields "name" (readsAs_optional _ _ _ (readsAs_string 0)).
  read_field Hfields "description" (readsAs_optional_nullable _ _ _ (readsAs_string 0)).
  read_field Hfields "environments"
    (readsAs_optional _ _ _ (readsAs_array _ _ _ readsAs_environment)).
  eexists. split; [done|]. unfold projectHasHosts. cbn.
  match goal with |- Forall _ (coalesce ?m _) => destruct m as [es|] end;
    [|constructor]. cbn. auto.
Qed.

Lemma readsAs_projectList :
  readsAs projectListSchema (asArray asProject) (Forall projectHasHosts).
Proof. apply readsAs_array, readsAs_project. Qed.

Lemma readsAs_meta :
  readsAs
    (ZObject
       [ ("title", ZOptional zString);
         ("version", ZOptional zString);
         ("description", ZOptional zString);
         ("servers", ZDefault (ZArray zString) (VArr []));
         ("fetchedAt", zString) ]
       Strip)
    asMeta (λ _, True).
Proof.
  intros x Hx.
  apply validFor_object in Hx as (o & -> & Hfields); [|by vm_compute].
  cbn [asMeta].
  read_field Hfields "title" (readsAs_optional _ _ _ (readsAs_string 0)).
  read_field Hfields "version" (readsAs_optional _ _ _ (readsAs_string 0)).
  read_field Hfields "description" (readsAs_optional _ _ _ (readsAs_string 0)).
  read_field Hfields "servers" (readsAs_default_array _ _ _ (readsAs_string 0)).
  read_field Hfields "fetchedAt" (readsAs_string 0).
  by eexists.
Qed.

Lemma readsAs_configResponse :
  readsAs configResponseSchema asConfigResponse
    (λ config, Forall projectHasHosts (ConfigResponse.projects config)).
Proof.
  intros x Hx.
  apply validFor_object in Hx as (o & -> & Hfields); [|by vm_compute].
  cbn [asConfigResponse].
  read_field Hfields "projects" readsAs_projectList.
  read_field Hfields "meta" readsAs_meta.
  by eexists.
Qed.

(** X17. What [parse] returns has the type inferred from its schema: a
    value returned by the schema of domains, resources, environments,
    projects, the project list or the response envelope reads as a
    [Domain], [Resource], [Environment], [Project], list of projects or
    [ConfigResponse]; the host of a domain read this way is not empty. *)
Theorem parse_typed (input parsed : value) :
  (safeParse domainSchema input = Valid parsed →
   ∃ domain, asDomain parsed = Some domain ∧ Domain.host domain ≠ "") ∧
  (safeParse resourceSchema input = Valid parsed →
   ∃ resource, asResource parsed = Some resource) ∧
  (safeParse environmentSchema input = Valid parsed →
   ∃ environment, asEnvironment parsed = Some environment) ∧
  (safeParse projectSchema input = Valid parsed →
   ∃ project, asProject parsed = Some project) ∧
  (safeParse projectListSchema input = Valid parsed →
   ∃ projects, asArray asProject parsed = Some projects) ∧
  (safeParse configResponseSchema input = Valid parsed →
   ∃ config, asConfigResponse parsed = Some config).
Proof.
  repeat split; intros Hparsed;
    (apply validFor_parsed in Hparsed; [|by vm_compute]).
  - by apply readsAs_domain.
  - apply readsAs_resource in Hparsed as (resource & ? & _). by exists resource.
  - apply readsAs_environment in Hparsed as (environment & ? & _). by exists environment.
  - apply readsAs_project in Hparsed as (project & ? & _). by exists project.
  - apply readsAs_projectList in Hparsed as (projects & ? & _). by exists projects.
  - apply readsAs_configResponse in Hparsed as (config & ? & _). by exists config.
Qed.

Lemma omap_all_Some {A B} (f : A → option B) (l : list A) :
  Forall (λ x, is_Some (f x)) l → Some <$> omap f l = f <$> l.
Proof.
  induction 1 as [|x l [y Hy] _ IH]; [done|].
  cbn. rewrite Hy. cbn. by rewrite IH.
Qed.

Lemma resolveDomainUrl_host (Number_toString : number → string) (domain : Domain.t) :
  Domain.host domain ≠ "" → is_Some (resolveDomainUrl Number_toString (Some domain)).
Proof.
  intros Hhost%truthy_string_true. unfold resolveDomainUrl. rewrite Hhost. by eexists.
Qed.

(** X18. From the payload to the links: when the envelope schema accepts
    a payload, the parsed result reads as a [ConfigResponse], and every
    entry that [flattenProjects] makes of its projects comes from one of
    its resources and has exactly one URL for each domain of that
    resource, in order: validation has made sure that every domain has a
    host, so no domain is dropped. *)
Theorem validated_entries (Number_toString : number → string) (localeCompare : string → string → Z)
    (payload parsed : value) :
  safeParse configResponseSchema payload = Valid parsed →
  ∃ config,
    asConfigResponse parsed = Some config ∧
    ∀ entry,
      entry ∈ flattenProjects Number_toString localeCompare (ConfigResponse.projects config) →
      ∃ index project environment sec resIndex resource,
        located (ConfigResponse.projects config)
          index project environment sec resIndex resource ∧
        entry = entryOf Number_toString project index environment sec resource resIndex ∧
        Some <$> ResourceEntry.urls entry
        = (λ domain, resolveDomainUrl Number_toString (Some domain))
            <$> nullish (Resource.domains resource) [].
Proof.
  intros Hparsed. apply validFor_parsed in Hparsed; [|by vm_compute].
  apply readsAs_configResponse in Hparsed as (config & Hconfig & Hhosts).
  exists config. split; [done|]. intros entry Hentry.
  apply elem_of_flattenProjects in Hentry
    as (index & project & environment & sec & resIndex & resource & Hlocated & ->).
  exists index, project, environment, sec, resIndex, resource.
  split; [done|]. split; [done|].
  destruct Hlocated as [Hproject Henvironment _ (resources & Hresources & Hresource)].
  rewrite Forall_lookup in Hhosts. specialize (Hhosts _ _ Hproject).
  unfold projectHasHosts in Hhosts. rewrite Forall_forall in Hhosts.
  specialize (Hhosts _ Henvironment _ _ Hresources).
  rewrite Forall_lookup in Hhosts. specialize (Hhosts _ _ Hresource).
  cbn [entryOf ResourceEntry.urls]. unfold resourceUrls.
  rewrite resourceUrls_omap. apply omap_all_Some.
  eapply Forall_impl; [exact Hhosts|]. apply resolveDomainUrl_host.
Qed.

Lemma validated_entries_witness :
  ∃ parsed config,
    safeParse configResponseSchema samplePayload = Valid parsed ∧
    asConfigResponse parsed = Some config.
Proof.
  destruct (safeParse configResponseSchema samplePayload) as [parsed|] eqn:Hparsed;
    [|vm_compute in Hparsed; discriminate Hparsed].
  destruct (validated_entries sampleNumberToString codeUnitCompare samplePayload parsed Hparsed)
    as (config & Hconfig & _).
  exists parsed, config. split; [reflexivity|exact Hconfig].
Defined.

(** ** [getDomainLabel] *)

Lemma splitOn_nonempty (sep : Ascii.ascii) (s : string) : splitOn sep s ≠ [].
Proof.
  destruct s as [|c s]; [done|]. simpl.
  destruct (Ascii.eqb c sep); [done|]. by destruct (splitOn sep s).
Qed.

Lemma concat_splitOn (s : string) : String.concat "." (splitOn "."%char s) = s.
Proof.
  induction s as [|c s IH]; [done|]. cbn [splitOn].
  destruct (Ascii.eqb_spec c "."%char) as [->|Hc].
  - pose proof (splitOn_nonempty "."%char s) as Hne.
    destruct (splitOn "."%char s) as [|piece pieces] eqn:Hs; [done|].
    cbn [String.concat]. simpl. by rewrite <-IH.
  - pose proof (splitOn_nonempty "."%char s) as Hne.
    destruct (splitOn "."%char s) as [|piece pieces] eqn:Hs; [done|].
    rewrite <-IH. by destruct pieces.
Qed.

Lemma dots_append (s t : string) : dots (s +:+ t) = (dots s + dots t)%nat.
Proof. induction s as [|c s IH]; [done|]. simpl. rewrite IH. lia. Qed.

Lemma length_splitOn (s : string) : length (splitOn "."%char s) = S (dots s).
Proof.
  induction s as [|c s IH]; [done|]. cbn [splitOn dots].
  pose proof (splitOn_nonempty "."%char s) as Hne.
  destruct (Ascii.eqb c "."%char).
  - cbn. by rewrite IH.
  - destruct (splitOn "."%char s) as [|piece pieces]; [done|]. exact IH.
Qed.

Lemma splitOn_pieces (s : string) :
  Forall (λ piece, dots piece = 0%nat) (splitOn "."%char s).
Proof.
  induction s as [|c s IH]; [by repeat constructor|]. cbn [splitOn].
  destruct (Ascii.eqb c "."%char) eqn:Hc; [by constructor|].
  destruct (splitOn "."%char s) as [|piece pieces]; [repeat constructor; simpl; by rewrite Hc|].
  apply Forall_cons in IH as [Hpiece Hpieces].
  constructor; [|done]. simpl. by rewrite Hc, Hpiece.
Qed.

Lemma append_assoc (s t u : string) : (s +:+ t) +:+ u = s +:+ (t +:+ u).
Proof. induction s as [|c s IH]; [done|]. simpl. by rewrite IH. Qed.

Lemma concat_app (l1 l2 : list string) :
  l1 ≠ [] → l2 ≠ [] →
  String.concat "." (l1 ++ l2)%list
  = String.concat "." l1 +:+ "." +:+ String.concat "." l2.
Proof.
  intros H1 H2. induction l1 as [|x l1 IH]; [done|].
  destruct l1 as [|y l1].
  - destruct l2; [done|]. done.
  - change (String.concat "." ((x :: y :: l1) ++ l2)%list)
      with (x +:+ "." +:+ String.concat "." ((y :: l1) ++ l2)%list).
    change (String.concat "." (x :: y :: l1))
      with (x +:+ "." +:+ String.concat "." (y :: l1)).
    rewrite IH by done. by rewrite !append_assoc.
Qed.

Lemma dots_concat (l : list string) :
  Forall (λ piece, dots piece = 0%nat) l →
  dots (String.concat "." l) = (length l - 1)%nat.
Proof.
  induction 1 as [|x l Hx Hl IH]; [done|].
  destruct l as [|y l]; [by simpl; rewrite Hx|].
  change (String.concat "." (x :: y :: l))
    with (x +:+ "." +:+ String.concat "." (y :: l)).
  rewrite !dots_append, IH, Hx. simpl. lia.
Qed.

(** X19. The label of a link.  When the text is not a URL the label is
    the text itself.  Otherwise the label is the end of the host name: the
    whole host name when it has at most one dot, and else its last two
    pieces, which follow a dot of the host name and have exactly one dot
    between them, whatever the public suffix of the host is. *)
Theorem getDomainLabel_spec (hostname : string → completion string) (url : string) :
  match hostname url with
  | Throw _ => getDomainLabel hostname url = url
  | Return host =>
      if decide (dots host ≤ 1)%nat then getDomainLabel hostname url = host
      else
        ∃ front, host = front +:+ "." +:+ getDomainLabel hostname url ∧
                 dots (getDomainLabel hostname url) = 1%nat
  end.
Proof.
  unfold getDomainLabel. destruct (hostname url) as [host|]; [|done].
  pose proof (length_splitOn host) as Hlen.
  case_decide as Hdots.
  - destruct (Nat.leb_spec (length (splitOn "."%char host)) 2); [done|lia].
  - destruct (Nat.leb_spec (length (splitOn "."%char host)) 2); [lia|].
    unfold sliceLast.
    set (parts := splitOn "."%char host) in *.
    set (k := (length parts - 2)%nat).
    exists (String.concat "." (take k parts)).
    assert (take k parts ≠ []) as Htake.
    { intros Ht%(f_equal length). rewrite length_take in Ht. simpl in Ht. lia. }
    assert (drop k parts ≠ []) as Hdrop.
    { intros Hd%(f_equal length). rewrite length_drop in Hd. simpl in Hd. lia. }
    split.
    + rewrite <-concat_app by done. rewrite take_drop. symmetry. apply concat_splitOn.
    + rewrite dots_concat.
      * rewrite length_drop. lia.
      * apply Forall_drop, splitOn_pieces.
Qed.

Example getDomainLabel_subdomain :
  getDomainLabel sampleHostname "https://app.shop.example.com" = "example.com" ∧
  getDomainLabel sampleHostname "app.shop.example.com" = "app.shop.example.com".
Proof. by vm_compute. Qed.

(** ** The client *)

Section ClientFacts.
Variable zodMessage : list issue → string.

(** What [loadConfig] sets last. *)
Lemma loadConfig_settled (response : completion Server.FetchResponse)
  (prev : Client.FetchState) :
∃ settled,
  Client.loadConfig zodMessage response prev
  = Return [Client.mkFetchState Client.loading (Client.data prev) (Client.error prev);
            settled] ∧
  ((∃ r payload parsed,
      response = Return r ∧ Server.ok r = true ∧ Server.json r = Return payload ∧
      safeParse configResponseSchema payload = Valid parsed ∧
      settled = Client.mkFetchState Client.idle (Some parsed) None) ∨
   (∃ message,
      settled = Client.mkFetchState Client.idle None (Some message) ∧
      ∀ r, response = Return r → Server.ok r = false →
           message = pretty (Server.status r) +:+ " " +:+ Server.statusText r)).
Proof.
unfold Client.loadConfig. cbv zeta.
destruct response as [r|message]; cbn [mbind completion_bind tryCatch].
2: { eexists. split; [done|]. right. eexists. split; [done|]. by intros r [=]. }
destruct (Server.ok r) eqn:Hok; cbn [negb mbind completion_bind tryCatch].
2: { eexists. split; [done|]. right. eexists. split; [done|]. by intros ? [= <-]. }
destruct (Server.json r) as [payload|message] eqn:Hjson;
  cbn [mbind completion_bind tryCatch].
2: { eexists. split; [done|]. right. eexists. split; [done|].
     intros ? [= <-]. congruence. }
unfold Server.parse.
destruct (safeParse configResponseSchema payload) as [parsed|issues] eqn:Hparsed;
  cbn [mbind completion_bind tryCatch].
2: { eexists. split; [done|]. right. eexists. split; [done|].
     intros ? [= <-]. congruence. }
eexists. split; [done|]. left. by exists r, payload, parsed.
Qed.

(** X20. [loadConfig] never rejects.  It sets two states: first
  [loading], with the data and the error of the state before; then
  [idle], with either data and no error, or an error message and no
  data.  Data it sets is valid for the envelope schema and has the type
  [ConfigResponse].  When the response has no success status, the
  message is the status and the status text, whatever the body says. *)
Theorem loadConfig_settles (response : completion Server.FetchResponse)
  (prev : Client.FetchState) :
∃ settled,
  Client.loadConfig zodMessage response prev
  = Return [Client.mkFetchState Client.loading (Client.data prev) (Client.error prev);
            settled] ∧
  Client.status settled = Client.idle ∧
  match Client.data settled, Client.error settled with
  | Some parsed, None =>
      validFor configResponseSchema parsed ∧ is_Some (asConfigResponse parsed)
  | None, Some message =>
      ∀ r, response = Return r → Server.ok r = false →
           message = pretty (Server.status r) +:+ " " +:+ Server.statusText r
  | _, _ => False
  end.
Proof.
destruct (loadConfig_settled response prev)
  as (settled & Hload & [(r & payload & parsed & _ & _ & _ & Hparsed & Hsettled)
                        |(message & Hsettled & Hmessage)]);
  exists settled; (split; [exact Hload|]); subst settled; (split; [done|]); cbn.
- apply validFor_parsed in Hparsed; [|by vm_compute]. split; [done|].
  apply readsAs_configResponse in Hparsed as (config & -> & _). by eexists.
- exact Hmessage.
Qed.
End ClientFacts.

Section ViewFacts.
Variable Number_toString : number → string.
Variable zodMessage : list issue → string.
Variable localeCompare : string → string → Z.
Variable toLocaleString : string → completion string.
Variable hostname : string → completion string.

Lemma render_idle_error (message : string) (pinnedResources : list string) :
Client.render Number_toString localeCompare toLocaleString hostname
  (Client.mkFetchState Client.idle None (Some message)) pinnedResources
= Some
    (Client.mkView "Applications Overview" None None
       (if decide (message = "") then None else Some message)
       false false [] []).
Proof. by destruct message. Qed.

Lemma pinned_cards (entries : list ResourceEntry.t) (pinnedResources : list string) :
Forall (λ card, Client.pinLabel card = "Unpin project")
  (map (λ entry, Client.DashboardCard hostname entry pinnedResources)
     (pinnedEntries entries pinnedResources)) ∧
Forall (λ card, Client.pinLabel card = "Pin project")
  (map (λ entry, Client.DashboardCard hostname entry pinnedResources)
     (regularEntries entries pinnedResources)).
Proof.
unfold pinnedEntries, regularEntries.
split; apply Forall_fmap, Forall_forall; intros entry [Hpin _]%list_elem_of_filter;
  cbn; by case_decide.
Qed.

Lemma pinned_regular_length (entries : list ResourceEntry.t)
  (pinnedResources : list string) :
(length (pinnedEntries entries pinnedResources)
 + length (regularEntries entries pinnedResources))%nat = length entries.
Proof.
unfold pinnedEntries, regularEntries. rewrite <-length_app.
by rewrite (filter_app_complement
              (λ entry, ResourceEntry.id entry ∈ pinnedResources)).
Qed.

(** X21. The view once [loadConfig] has settled.  There is a view, and
  it has no skeleton.  After a failure it shows the default heading and
  the error card with the message (no error card when the message is
  empty), and nothing else: no description, no time of the last update,
  no cards, no empty-state card.  After a success it shows no
  error card; every entry of the flattened projects has exactly one
  card, in the pinned section with the label [Unpin project] or in the
  regular grid with the label [Pin project]; and the empty-state card is
  shown exactly when there is no card. *)
Theorem render_settled (response : completion Server.FetchResponse)
  (prev started settled : Client.FetchState) (pinnedResources : list string) :
Client.loadConfig zodMessage response prev = Return [started; settled] →
∃ view,
  Client.render Number_toString localeCompare toLocaleString hostname settled pinnedResources
  = Some view ∧
  Client.skeleton view = false ∧
  match Client.data settled with
  | None =>
      ∃ message,
        Client.error settled = Some message ∧
        view
        = Client.mkView "Applications Overview" None None
            (if decide (message = "") then None else Some message)
            false false [] []
  | Some parsed =>
      ∃ config,
        asConfigResponse parsed = Some config ∧
        Client.errorCard view = None ∧
        (length (Client.pinnedSection view) + length (Client.regularGrid view))%nat
        = length (flattenProjects Number_toString localeCompare (ConfigResponse.projects config)) ∧
        Client.cardKey <$> Client.pinnedSection view
        = ResourceEntry.id
            <$> pinnedEntries
                  (flattenProjects Number_toString localeCompare (ConfigResponse.projects config))
                  pinnedResources ∧
        Client.cardKey <$> Client.regularGrid view
        = ResourceEntry.id
            <$> regularEntries
                  (flattenProjects Number_toString localeCompare (ConfigResponse.projects config))
                  pinnedResources ∧
        Forall (λ card, Client.pinLabel card = "Unpin project")
          (Client.pinnedSection view) ∧
        Forall (λ card, Client.pinLabel card = "Pin project")
          (Client.regularGrid view) ∧
        (Client.emptyCard view = true ↔
         Client.pinnedSection view = [] ∧ Client.regularGrid view = [])
  end.
Proof.
intros Hload.
destruct (loadConfig_settled zodMessage response prev)
  as (settled' & Hload' & Hcases).
rewrite Hload in Hload'. injection Hload' as _ <-.
destruct Hcases as [(r & payload & parsed & _ & _ & _ & Hparsed & ->)
                   |(message & -> & _)].
- apply validFor_parsed in Hparsed; [|by vm_compute].
  apply readsAs_configResponse in Hparsed as (config & Hconfig & _).
  unfold Client.render. cbn [Client.data Client.status Client.error].
  rewrite Hconfig. cbn [fmap option_fmap option_map mbind option_bind].
  set (entries := flattenProjects Number_toString localeCompare (ConfigResponse.projects config)).
  eexists. split; [reflexivity|].
  cbn [Client.skeleton Client.errorCard Client.emptyCard Client.pinnedSection
         Client.regularGrid Client.present Client.truthy_nullable
         Client.whenTruthy andb negb].
  split; [done|]. exists config. split; [done|]. split; [done|].
  rewrite !length_map, <-!list_fmap_compose.
  split; [apply pinned_regular_length|]. split; [done|]. split; [done|].
  split; [apply pinned_cards|]. split; [apply pinned_cards|].
  rewrite !andb_true_r, Nat.eqb_eq, <-(pinned_regular_length entries pinnedResources).
  destruct (pinnedEntries entries pinnedResources),
    (regularEntries entries pinnedResources);
    cbn; split; try done; try lia; by intros [? ?].
- rewrite render_idle_error. eexists. split; [done|]. split; [done|].
  by exists message.
Qed.

(** X22. The view while a load is pending, that is, of the first state
  [loadConfig] sets: it is the view of the state before, except that the
  skeleton is shown exactly when there is no data and that the
  empty-state card is hidden.  So during a retry the error card stays on
  screen next to the skeleton, and during a reload the cards stay. *)
Theorem render_loading (prev : Client.FetchState) (pinnedResources : list string)
  (view : Client.View) :
Client.render Number_toString localeCompare toLocaleString hostname prev pinnedResources
= Some view →
Client.render Number_toString localeCompare toLocaleString hostname
  (Client.mkFetchState Client.loading (Client.data prev) (Client.error prev))
  pinnedResources
= Some
    (Client.mkView (Client.heading view) (Client.description view)
       (Client.updated view) (Client.errorCard view)
       (negb (Client.present (Client.data prev))) false
       (Client.pinnedSection view) (Client.regularGrid view)).
Proof.
unfold Client.render. destruct prev as [status data error].
cbn [Client.data Client.status Client.error].
destruct data as [parsed|]; [destruct (asConfigResponse parsed) as [config|]|];
  cbn [fmap option_fmap option_map mbind option_bind]; [|done|];
  intros [= <-];
  cbn [Client.heading Client.description Client.updated Client.errorCard
         Client.pinnedSection Client.regularGrid Client.present andb negb];
  by rewrite ?andb_false_r.
Qed.
End ViewFacts.

Lemma render_settled_witness :
  ∃ view,
    Client.render sampleNumberToString codeUnitCompare (λ input, Return input) sampleHostname
      (Client.mkFetchState Client.idle None (Some "500 Internal Server Error")) []
    = Some view ∧
    Client.errorCard view = Some "500 Internal Server Error".
Proof.
  destruct (render_settled sampleNumberToString countIssues codeUnitCompare (λ input, Return input)
              sampleHostname
              (Return
                 (Server.mkFetchResponse 500 "Internal Server Error"
                    (Return (VObj {[ "error" := VStr "Unable to connect" ]}))))
              Client.initialState
              (Client.mkFetchState Client.loading None None)
              (Client.mkFetchState Client.idle None (Some "500 Internal Server Error"))
              [] eq_refl)
    as (view & Hview & _ & message & Herror & Hshown).
  injection Herror as <-.
  exists view. split; [exact Hview|]. rewrite Hshown. reflexivity.
Defined.

Lemma render_loading_witness :
  Client.render sampleNumberToString codeUnitCompare (λ input, Return input) sampleHostname
    (Client.mkFetchState Client.loading None (Some "500 Internal Server Error")) []
  = Some
      (Client.mkView "Applications Overview" None None
         (Some "500 Internal Server Error") true false [] []).
Proof.
  apply (render_loading sampleNumberToString codeUnitCompare (λ input, Return input) sampleHostname
           (Client.mkFetchState Client.idle None (Some "500 Internal Server Error")) []
           (Client.mkView "Applications Overview" None None
              (Some "500 Internal Server Error") false false [] [])).
  reflexivity.
Defined.
